(** * gnim reactive runtime: scopes, signal sources and reconcilers

    A shallow embedding of
      - [src/jsx/scope.ts]   (Scope, createContext, getScope, onMount, onCleanup),
      - [src/jsx/state.ts]   (createState, createComputed, createConnection,
                              createExternal),
      - [src/jsx/Fragment.ts], [src/jsx/For.ts] and [src/jsx/With.ts],
      - [src/util.ts]        (kebabify, snakeify, camelify).

    JavaScript closures that the library stores (subscriber callbacks, mount
    and cleanup callbacks, unsubscribe functions) are defunctionalised: a
    caller-supplied callback is a label whose invocation is recorded in a
    trace, a library-made closure is a constructor carrying the variables it
    captured.  Objects with identity (scopes, signal sources) live in a heap
    indexed by allocation order. *)

From Stdlib Require Import ZArith Lia.
From stdpp Require Import base option list gmap strings.

Open Scope Z_scope.
Open Scope nat_scope.

(** ** JavaScript values *)

Module JS.

Inductive value :=
  | VUndefined
  | VNull
  | VBool (b : bool)
  | VNum (z : Z)
  | VStr (s : string).

#[global] Instance value_eq_dec : EqDecision value.
Proof. solve_decision. Defined.

(** [a !== b] on primitives. *)
Definition strict_ne (a b : value) : bool := bool_decide (a ≠ b).

(** ToBoolean, as used by [!x]. *)
Definition truthy (v : value) : bool :=
  match v with
  | VUndefined | VNull => false
  | VBool b => b
  | VNum z => negb (Z.eqb z 0)
  | VStr s => negb (String.eqb s "")
  end.

(** The result of running caller code: it returns or it throws. *)
Inductive outcome (A : Type) :=
  | Returned (a : A)
  | Threw (msg : string).
Arguments Returned {A} a.
Arguments Threw {A} msg.

(** [Set.prototype.add]: insertion order, each element once. *)
Definition set_add `{EqDecision A} (x : A) (l : list A) : list A :=
  if decide (x ∈ l) then l else l ++ [x].

(** [Set.prototype.delete]. *)
Definition set_delete `{EqDecision A} (x : A) (l : list A) : list A :=
  filter (λ y, y ≠ x) l.

(** [new Set(l)]: the elements of [l] in order of first occurrence. *)
Definition Set_of `{EqDecision A} (l : list A) : list A :=
  foldl (λ acc x, set_add x acc) [] l.

(** Array reads and writes: a hole or an index past the end reads as
    [undefined]; a write past the end extends the array. *)
Definition arr_get (a : list value) (i : nat) : value :=
  default VUndefined (a !! i).

Definition arr_set (a : list value) (i : nat) (v : value) : list value :=
  if decide (i < length a) then <[i := v]> a
  else a ++ replicate (i - length a) VUndefined ++ [v].

(** [Map.prototype.get]: a missing key reads as [undefined]. *)
Definition Map_get (m : gmap nat value) (k : nat) : value :=
  default VUndefined (m !! k).

End JS.

Import JS.

(** ** scope.ts *)

Module ScopeTs.

(** [class Scope].  [parent] is [None] for [null], [undefined] and after
    [delete this.parent].  Callbacks are labels. *)
Record Scope := mkScope {
  parent : option nat;
  contexts : gmap nat value;
  cleanups : list nat;
  mounts : list nat;
  mounted : bool;
}.

Inductive event :=
  | MountRan (cb : nat)
  | CleanupRan (cb : nat)
  | ConsoleError (msg : string).

#[global] Instance event_eq_dec : EqDecision event.
Proof. solve_decision. Defined.

(** The scope heap, the static [Scope.current] and the trace of callbacks
    run so far. *)
Record State := mkState {
  heap : list Scope;
  current : option nat;
  trace : list event;
}.

Definition with_heap (h : list Scope) (st : State) : State :=
  mkState h (current st) (trace st).
Definition with_current (c : option nat) (st : State) : State :=
  mkState (heap st) c (trace st).
Definition emit (es : list event) (st : State) : State :=
  mkState (heap st) (current st) (trace st ++ es).

Definition with_mounts (ms : list nat) (sc : Scope) : Scope :=
  mkScope (parent sc) (contexts sc) (cleanups sc) ms (mounted sc).
Definition with_cleanups (cs : list nat) (sc : Scope) : Scope :=
  mkScope (parent sc) (contexts sc) cs (mounts sc) (mounted sc).
Definition with_contexts (m : gmap nat value) (sc : Scope) : Scope :=
  mkScope (parent sc) m (cleanups sc) (mounts sc) (mounted sc).

(** [new Scope(parent)]: the new scope's handle is the next free index. *)
Definition new_Scope (p : option nat) (st : State) : nat * State :=
  (length (heap st), with_heap (heap st ++ [mkScope p ∅ [] [] false]) st).

(** [Scope.prototype.onCleanup]. *)
Definition Scope_onCleanup (s cb : nat) (h : list Scope) : list Scope :=
  match h !! s with
  | Some sc => <[s := with_cleanups (set_add cb (cleanups sc)) sc]> h
  | None => h
  end.

(** [Scope.prototype.onMount]: the recursion climbs the parent chain; a
    parent is allocated before its children, so [S s] steps suffice for
    scope [s] (see [onMount_from_target]). *)
Fixpoint onMount_from (fuel s cb : nat) (h : list Scope) : option (list Scope) :=
  match fuel with
  | 0 => None
  | S fuel' =>
    sc ← h !! s;
    match parent sc with
    | Some p =>
      psc ← h !! p;
      if negb (mounted psc)
      then onMount_from fuel' p cb h
      else Some (<[s := with_mounts (set_add cb (mounts sc)) sc]> h)
    | None => Some (<[s := with_mounts (set_add cb (mounts sc)) sc]> h)
    end
  end.

Definition Scope_onMount (s cb : nat) (h : list Scope) : option (list Scope) :=
  onMount_from (S s) s cb h.

(** The [finally] block of [run]. *)
Definition run_finally (s : nat) (prev : option nat) (st : State) : State :=
  match heap st !! s with
  | Some sc =>
    mkState (<[s := mkScope (parent sc) (contexts sc) (cleanups sc) [] true]> (heap st))
            prev
            (trace st ++ (MountRan <$> mounts sc))
  | None => with_current prev st
  end.

(** [Scope.prototype.run]. *)
Definition Scope_run {A} (s : nat) (fn : State → outcome A * State) (st : State)
  : outcome A * State :=
  let prev := current st in
  let '(r, st') := fn (with_current (Some s) st) in
  (r, run_finally s prev st').

(** [Scope.prototype.dispose]. *)
Definition Scope_dispose (s : nat) (st : State) : State :=
  match heap st !! s with
  | Some sc =>
    mkState (<[s := mkScope None ∅ [] (mounts sc) (mounted sc)]> (heap st))
            (current st)
            (trace st ++ (CleanupRan <$> cleanups sc))
  | None => st
  end.

(** [getScope]. *)
Definition getScope (st : State) : outcome nat :=
  match current st with
  | Some s => Returned s
  | None => Threw "cannot get scope: out of tracking context"
  end.

(** exported [onCleanup]. *)
Definition onCleanup (cb : nat) (st : State) : State :=
  match current st with
  | None => emit [ConsoleError "out of tracking context: will not be able to cleanup"] st
  | Some s => with_heap (Scope_onCleanup s cb (heap st)) st
  end.

(** exported [onMount]; [None] only when the parent chain is malformed. *)
Definition onMount (cb : nat) (st : State) : option State :=
  match current st with
  | None => Some (emit [ConsoleError "cannot attach onMount: out of tracking context"] st)
  | Some s => h ← Scope_onMount s cb (heap st); Some (with_heap h st)
  end.

(** [createRoot], with [dispose] handed to [fn] as the root's handle. *)
Definition createRoot {A} (fn : nat → State → outcome A * State) (st : State)
  : outcome A * State :=
  let '(s, st1) := new_Scope None st in
  Scope_run s (fn s) st1.

(** [createContext(defaultValue).provide]; [ctx] is the context's identity. *)
Definition provide {A} (ctx : nat) (v : value) (fn : State → outcome A * State)
  (st : State) : outcome A * State :=
  match getScope st with
  | Threw msg => (Threw msg, st)
  | Returned s =>
    let h := match heap st !! s with
             | Some sc => <[s := with_contexts (<[ctx := v]> (contexts sc)) sc]> (heap st)
             | None => heap st
             end in
    Scope_run s fn (with_heap h st)
  end.

(** The [while (scope)] loop of [use]. *)
Fixpoint use_from (fuel : nat) (scope : option nat) (ctx : nat) (defaultValue : value)
  (h : list Scope) : option value :=
  match scope with
  | None => Some defaultValue
  | Some s =>
    match fuel with
    | 0 => None
    | S fuel' =>
      sc ← h !! s;
      let v := Map_get (contexts sc) ctx in
      if strict_ne v VUndefined then Some v
      else use_from fuel' (parent sc) ctx defaultValue h
    end
  end.

(** [createContext(defaultValue).use]. *)
Definition use (ctx : nat) (defaultValue : value) (st : State) : option value :=
  use_from (length (heap st)) (current st) ctx defaultValue (heap st).

(** Parent links point to scopes allocated earlier. *)
Definition wf (h : list Scope) : Prop :=
  ∀ s sc p, h !! s = Some sc → parent sc = Some p → p < s.

(** [reaches h s a]: [a] is [s] or one of its ancestors. *)
Inductive reaches (h : list Scope) : nat → nat → Prop :=
  | reaches_refl s : reaches h s s
  | reaches_step s sc p a :
      h !! s = Some sc → parent sc = Some p → reaches h p a → reaches h s a.


Definition mounts_of (s : nat) (st : State) : list nat :=
  match heap st !! s with Some sc => mounts sc | None => [] end.
Definition mounted_of (s : nat) (st : State) : bool :=
  match heap st !! s with Some sc => mounted sc | None => false end.
Definition contexts_of (s : nat) (st : State) : gmap nat value :=
  match heap st !! s with Some sc => contexts sc | None => ∅ end.

(** [provide]'s write: [scope.contexts.set(ctx, value)] on the current scope. *)
Definition provided (ctx : nat) (v : value) (s : nat) (st : State) : State :=
  match heap st !! s with
  | Some sc => with_heap (<[s := with_contexts (<[ctx := v]> (contexts sc)) sc]> (heap st)) st
  | None => st
  end.

(** The reading under which [provide] is a plain call of [fn]: once the
    value is written, [provide] adds nothing to what [fn] does, so no mount
    callback runs and [mounted] keeps its value. *)
Definition provide_is_plain_call {A} (ctx : nat) (v : value)
  (fn : State → outcome A * State) (s : nat) (st : State) : Prop :=
  trace (provide ctx v fn st).2 = trace (fn (provided ctx v s st)).2 ∧
  mounted_of s (provide ctx v fn st).2 = mounted_of s (fn (provided ctx v s st)).2.

(** A root scope that is still running, with one pending mount callback. *)
Definition pending_root : State :=
  mkState [mkScope None ∅ [] [7] false] (Some 0) [].



(** [() => {}] and [() => onMount(cb)], as functions given to [run]. *)
Definition idle (x : State) : outcome unit * State := (Returned tt, x).

Definition registering (cb : nat) (x : State) : outcome unit * State :=
  match onMount cb x with
  | Some x' => (Returned tt, x')
  | None => (Threw "too much recursion", x)
  end.

(** Inside [createRoot(fn)], where [fn] starts: the root scope is made and
    current, and its [run] has not returned. *)
Definition inside_root : State :=
  with_current (Some 0) (new_Scope None (mkState [] None [])).2.



(** The root is still running; its child 1 has returned and is mounted;
    scope 2 was made under 1 and scope 3 under 2, and neither has run. *)
Definition mounted_between : State :=
  mkState [mkScope None ∅ [] [] false;
           mkScope (Some 0) ∅ [] [] true;
           mkScope (Some 1) ∅ [] [] false;
           mkScope (Some 2) ∅ [] [] false] (Some 0) [].


(** The child maps the key to [undefined], the root maps it to [5]. *)
Definition shadowed_by_undefined : State :=
  mkState [mkScope None {[3 := VNum 5]} [] [] true;
           mkScope (Some 0) {[3 := VUndefined]} [] [] false] (Some 1) [].

End ScopeTs.

(** ** state.ts *)

Module StateTs.

(** A subscriber callback: a caller's function, or the arrow function that
    [createComputed] [c] subscribes to [deps[i]] on its [g]-th activation. *)
Inductive sub :=
  | UserCb (cb : nat)
  | DepListener (c i g : nat).

#[global] Instance sub_eq_dec : EqDecision sub.
Proof. solve_decision. Defined.

(** The function returned by [subscribe(s)] of source [n]. *)
Inductive unsub := Unsub (n : nat) (s : sub).

(** The argument of a [Setter]: a value, or a function of the previous one. *)
Inductive setter_arg :=
  | SetValue (v : value)
  | SetUpdater (f : value → value).

Definition resolve (a : setter_arg) (currentValue : value) : value :=
  match a with
  | SetValue v => v
  | SetUpdater f => f currentValue
  end.

Inductive event :=
  | Called (s : sub)
  | GetCalled (n : nat)
  | TransformCalled (c : nat) (args : list value)
  | ProducerCalled (n k : nat)
  | DisposerCalled (n k : nat)
  | Connected (n h : nat)
  | Disconnected (n h : nat).

#[global] Instance event_eq_dec : EqDecision event.
Proof. solve_decision. Defined.

(** The variables closed over by [createState]. *)
Record StateSrc := mkStateSrc {
  st_value : value;
  st_subs : list sub;
}.

(** [createComputed] with a [transform]; [c_gen] counts activations. *)
Record ComputedSrc := mkComputedSrc {
  deps : list nat;
  transform : list value → value;
  c_dispose : list unsub;
  c_subs : list sub;
  cache : list value;
  c_gen : nat;
}.

(** [createConnection]; a handler's arguments are folded into its reducer,
    [cn_dispose] lists the handlers whose connection is live. *)
Record ConnectionSrc := mkConnectionSrc {
  cn_value : value;
  cn_dispose : list nat;
  cn_subs : list sub;
  signals : list (value → value);
}.

(** [createExternal]; [producer k] lists the setter calls the producer makes
    before it returns, on its [k]-th call, and the disposer it returns is
    named [k]. *)
Record ExternalSrc := mkExternalSrc {
  ex_value : value;
  ex_dispose : option nat;
  ex_subs : list sub;
  producer : nat → list setter_arg;
  ex_started : nat;
}.

Inductive node :=
  | NState (s : StateSrc)
  | NComputed (c : ComputedSrc)
  | NConnection (c : ConnectionSrc)
  | NExternal (e : ExternalSrc).

Record World := mkWorld {
  nodes : list node;
  log : list event;
}.

Definition emit (es : list event) (w : World) : World :=
  mkWorld (nodes w) (log w ++ es).

Definition put (n : nat) (nd : node) (w : World) : World :=
  mkWorld (<[n := nd]> (nodes w)) (log w).

Definition alloc (nd : node) (w : World) : nat * World :=
  (length (nodes w), mkWorld (nodes w ++ [nd]) (log w)).

Definition createState (init : value) (w : World) : nat * World :=
  alloc (NState (mkStateSrc init [])) w.

Definition createComputed (ds : list nat) (tr : list value → value) (w : World)
  : nat * World :=
  alloc (NComputed (mkComputedSrc ds tr [] [] (replicate (length ds) VUndefined) 0)) w.

Definition createConnection (init : value) (hs : list (value → value)) (w : World)
  : nat * World :=
  alloc (NConnection (mkConnectionSrc init [] [] hs)) w.

Definition createExternal (init : value) (p : nat → list setter_arg) (w : World)
  : nat * World :=
  alloc (NExternal (mkExternalSrc init None [] p 0)) w.

Definition subs_of (n : nat) (w : World) : list sub :=
  match nodes w !! n with
  | Some (NState s) => st_subs s
  | Some (NComputed c) => c_subs c
  | Some (NConnection c) => cn_subs c
  | Some (NExternal e) => ex_subs e
  | None => []
  end.

Definition cache_of (n : nat) (w : World) : list value :=
  match nodes w !! n with
  | Some (NComputed c) => cache c
  | _ => []
  end.

Definition set_cache (n : nat) (ca : list value) (w : World) : World :=
  match nodes w !! n with
  | Some (NComputed c) =>
    put n (NComputed (mkComputedSrc (deps c) (transform c) (c_dispose c) (c_subs c) ca (c_gen c))) w
  | _ => w
  end.

(** [deps.map((dep, i) => { if (!cache[i]) cache[i] = dep.get(); return cache[i] })] *)
Definition computed_args (get : nat → World → option (value * World)) (n : nat)
  : list nat → nat → World → option (list value * World) :=
  fix go ds i w :=
    match ds with
    | [] => Some ([], w)
    | dep :: rest =>
      w1 ← (if negb (truthy (arr_get (cache_of n w) i))
            then '(v, w') ← get dep w; Some (set_cache n (arr_set (cache_of n w') i v) w')
            else Some w);
      '(args, w2) ← go rest (S i) w1;
      Some (arr_get (cache_of n w1) i :: args, w2)
    end.

(** [Accessor.prototype.get] dispatching on the source's own [get]. *)
Fixpoint get_from (fuel n : nat) (w : World) : option (value * World) :=
  match fuel with
  | 0 => None
  | S fuel' =>
    nd ← nodes w !! n;
    let w := emit [GetCalled n] w in
    match nd with
    | NState s => Some (st_value s, w)
    | NConnection c => Some (cn_value c, w)
    | NExternal e => Some (ex_value e, w)
    | NComputed c =>
      '(args, w') ← computed_args (get_from fuel') n (deps c) 0 w;
      Some (transform c args, emit [TransformCalled n args] w')
    end
  end.

(** Dependencies are created before the computed source that reads them, so
    [S n] steps suffice for source [n]. *)
Definition get (n : nat) (w : World) : option (value * World) :=
  get_from (S n) n w.

(** The listener [createComputed] attaches to [deps[i]]; [notify] is the
    fan-out over the computed source's own subscribers. *)
Definition dep_listener (notify : list sub → World → option World) (c i : nat)
  (w : World) : option World :=
  nd ← nodes w !! c;
  match nd with
  | NComputed cs =>
    dep ← deps cs !! i;
    '(v, w1) ← get dep w;
    if strict_ne (arr_get (cache_of c w1) i) v then
      '(v', w2) ← get dep w1;
      let w3 := set_cache c (arr_set (cache_of c w2) i v') w2 in
      notify (subs_of c w3) w3
    else Some w1
  | _ => None
  end.

(** [subscribers.forEach((cb) => cb())], over the subscribers held when the
    fan-out starts; every call of a subscriber is logged.  [fuel] bounds
    the depth of the chain of computed sources a change travels up. *)
Fixpoint notify (fuel : nat) : list sub → World → option World :=
  fix go ss w :=
    match ss with
    | [] => Some w
    | UserCb cb :: rest => go rest (emit [Called (UserCb cb)] w)
    | DepListener c i g :: rest =>
      match fuel with
      | 0 => None
      | S fuel' =>
        w' ← dep_listener (notify fuel') c i (emit [Called (DepListener c i g)] w);
        go rest w'
      end
    end.

(** The setter returned by [createState]. *)
Definition set (n : nat) (a : setter_arg) (w : World) : option World :=
  nd ← nodes w !! n;
  match nd with
  | NState s =>
    let v := resolve a (st_value s) in
    if strict_ne (st_value s) v
    then notify (length (nodes w)) (st_subs s) (put n (NState (mkStateSrc v (st_subs s))) w)
    else Some w
  | _ => None
  end.

(** The setter [createExternal] hands to its producer. *)
Definition external_set (n : nat) (a : setter_arg) (w : World) : option World :=
  nd ← nodes w !! n;
  match nd with
  | NExternal e =>
    let newValue := resolve a (ex_value e) in
    if strict_ne newValue (ex_value e)
    then notify (length (nodes w)) (ex_subs e)
           (put n (NExternal (mkExternalSrc newValue (ex_dispose e) (ex_subs e)
                                            (producer e) (ex_started e))) w)
    else Some w
  | _ => None
  end.

(** The handler [createConnection] connects for [signals[h]], run when the
    object emits; a disconnected handler does not run. *)
Definition connection_emit (n h : nat) (w : World) : option World :=
  nd ← nodes w !! n;
  match nd with
  | NConnection c =>
    if decide (h ∈ cn_dispose c) then
      callback ← signals c !! h;
      let newValue := callback (cn_value c) in
      if strict_ne (cn_value c) newValue
      then notify (length (nodes w)) (cn_subs c)
             (put n (NConnection (mkConnectionSrc newValue (cn_dispose c) (cn_subs c)
                                                  (signals c))) w)
      else Some w
    else Some w
  | _ => None
  end.

(** Run a list of setter calls in order. *)
Fixpoint external_pushes (n : nat) (pushes : list setter_arg) (w : World)
  : option World :=
  match pushes with
  | [] => Some w
  | a :: rest => w' ← external_set n a w; external_pushes n rest w'
  end.

(** [deps.map((dep, i) => dep.subscribe(listener_i))] *)
Definition subscribe_deps (subscribe : nat → sub → World → option (unsub * World))
  (c g : nat) : list nat → nat → World → option (list unsub * World) :=
  fix go ds i w :=
    match ds with
    | [] => Some ([], w)
    | dep :: rest =>
      '(u, w1) ← subscribe dep (DepListener c i g) w;
      '(us, w2) ← go rest (S i) w1;
      Some (u :: us, w2)
    end.

Definition add_sub (n : nat) (s : sub) (w : World) : World :=
  match nodes w !! n with
  | Some (NState st) => put n (NState (mkStateSrc (st_value st) (set_add s (st_subs st)))) w
  | Some (NComputed c) =>
    put n (NComputed (mkComputedSrc (deps c) (transform c) (c_dispose c)
                                    (set_add s (c_subs c)) (cache c) (c_gen c))) w
  | Some (NConnection c) =>
    put n (NConnection (mkConnectionSrc (cn_value c) (cn_dispose c)
                                        (set_add s (cn_subs c)) (signals c))) w
  | Some (NExternal e) =>
    put n (NExternal (mkExternalSrc (ex_value e) (ex_dispose e) (set_add s (ex_subs e))
                                    (producer e) (ex_started e))) w
  | None => w
  end.

Definition delete_sub (n : nat) (s : sub) (w : World) : World :=
  match nodes w !! n with
  | Some (NState st) => put n (NState (mkStateSrc (st_value st) (set_delete s (st_subs st)))) w
  | Some (NComputed c) =>
    put n (NComputed (mkComputedSrc (deps c) (transform c) (c_dispose c)
                                    (set_delete s (c_subs c)) (cache c) (c_gen c))) w
  | Some (NConnection c) =>
    put n (NConnection (mkConnectionSrc (cn_value c) (cn_dispose c)
                                        (set_delete s (cn_subs c)) (signals c))) w
  | Some (NExternal e) =>
    put n (NExternal (mkExternalSrc (ex_value e) (ex_dispose e) (set_delete s (ex_subs e))
                                    (producer e) (ex_started e))) w
  | None => w
  end.

(** The part of each [subscribe] that runs when [subscribers.size === 0]. *)
Definition activate (subscribe : nat → sub → World → option (unsub * World))
  (n : nat) (w : World) : option World :=
  nd ← nodes w !! n;
  match nd with
  | NState _ => Some w
  | NComputed c =>
    '(ds, w1) ← subscribe_deps subscribe n (c_gen c) (deps c) 0 w;
    match nodes w1 !! n with
    | Some (NComputed c1) =>
      Some (put n (NComputed (mkComputedSrc (deps c1) (transform c1) ds (c_subs c1)
                                            (cache c1) (S (c_gen c1)))) w1)
    | _ => None
    end
  | NConnection c =>
    let hs := seq 0 (length (signals c)) in
    Some (emit (Connected n <$> hs)
            (put n (NConnection (mkConnectionSrc (cn_value c) hs (cn_subs c) (signals c))) w))
  | NExternal e =>
    let k := ex_started e in
    w1 ← external_pushes n (producer e k) (emit [ProducerCalled n k] w);
    match nodes w1 !! n with
    | Some (NExternal e1) =>
      Some (put n (NExternal (mkExternalSrc (ex_value e1) (Some k) (ex_subs e1)
                                            (producer e1) (S (ex_started e1)))) w1)
    | _ => None
    end
  end.

(** The [subscribe] function of each source. *)
Fixpoint subscribe_from (fuel n : nat) (s : sub) (w : World) : option (unsub * World) :=
  match fuel with
  | 0 => None
  | S fuel' =>
    w1 ← (if decide (length (subs_of n w) = 0)
          then activate (subscribe_from fuel') n w
          else (_ ← nodes w !! n; Some w));
    Some (Unsub n s, add_sub n s w1)
  end.

Definition subscribe (n : nat) (s : sub) (w : World) : option (unsub * World) :=
  subscribe_from (S n) n s w.

(** [dispose.map((cb) => cb())] *)
Definition run_disposers (unsubscribe : nat → sub → World → option World)
  : list unsub → World → option World :=
  fix go us w :=
    match us with
    | [] => Some w
    | Unsub d l :: rest => w' ← unsubscribe d l w; go rest w'
    end.

(** The part of each unsubscribe function that runs when
    [subscribers.size === 0] after the delete. *)
Definition deactivate (unsubscribe : nat → sub → World → option World)
  (n : nat) (w : World) : option World :=
  nd ← nodes w !! n;
  match nd with
  | NState _ => Some w
  | NComputed c =>
    w1 ← run_disposers unsubscribe (c_dispose c) w;
    match nodes w1 !! n with
    | Some (NComputed c1) =>
      Some (put n (NComputed (mkComputedSrc (deps c1) (transform c1) [] (c_subs c1)
                                            [] (c_gen c1))) w1)
    | _ => None
    end
  | NConnection c =>
    Some (emit (Disconnected n <$> cn_dispose c)
            (put n (NConnection (mkConnectionSrc (cn_value c) [] (cn_subs c) (signals c))) w))
  | NExternal e =>
    k ← ex_dispose e;
    Some (emit [DisposerCalled n k] w)
  end.

(** The function each [subscribe] returns. *)
Fixpoint unsubscribe_from (fuel n : nat) (s : sub) (w : World) : option World :=
  match fuel with
  | 0 => None
  | S fuel' =>
    nd ← nodes w !! n;
    let w1 := delete_sub n s w in
    match nd with
    | NState _ => Some w1
    | _ =>
      if decide (length (subs_of n w1) = 0)
      then deactivate (unsubscribe_from fuel') n w1
      else Some w1
    end
  end.

Definition call_unsub (u : unsub) (w : World) : option World :=
  match u with Unsub n s => unsubscribe_from (S n) n s w end.

(** Sources only depend on sources created before them. *)
Definition wf (w : World) : Prop :=
  ∀ n c, nodes w !! n = Some (NComputed c) → Forall (λ d, d < n) (deps c).

Definition is_call (e : event) : bool :=
  match e with Called _ => true | _ => false end.

(** What a source is and what it reads; no operation changes it. *)
Inductive kind :=
  | KState
  | KComputed (ds : list nat)
  | KConnection
  | KExternal.

Definition kind_of (nd : node) : kind :=
  match nd with
  | NState _ => KState
  | NComputed c => KComputed (deps c)
  | NConnection _ => KConnection
  | NExternal _ => KExternal
  end.

Definition kinds (w : World) : list kind := kind_of <$> nodes w.

(** A client of one source: it subscribes callbacks and calls the
    unsubscribe functions it got back, [OpUnsubscribe k] calling the one
    returned by the [k]-th subscribe. *)
Inductive op :=
  | OpSubscribe (cb : nat)
  | OpUnsubscribe (k : nat).

Definition step (n : nat) (o : op) (ss : World * list unsub) : option (World * list unsub) :=
  match o with
  | OpSubscribe cb =>
    '(u, w') ← subscribe n (UserCb cb) ss.1; Some (w', ss.2 ++ [u])
  | OpUnsubscribe k =>
    u ← ss.2 !! k; w' ← call_unsub u ss.1; Some (w', ss.2)
  end.

Fixpoint run_ops (n : nat) (ops : list op) (ss : World * list unsub)
  : option (World * list unsub) :=
  match ops with
  | [] => Some ss
  | o :: rest => ss' ← step n o ss; run_ops n rest ss'
  end.

(** Every [OpUnsubscribe k] names a function already returned, and no
    function is called twice. *)
Fixpoint each_unsubscribe_once (issued : nat) (used : list nat) (ops : list op) : bool :=
  match ops with
  | [] => true
  | OpSubscribe _ :: rest => each_unsubscribe_once (S issued) used rest
  | OpUnsubscribe k :: rest =>
    bool_decide (k < issued) && bool_decide (k ∉ used) &&
    each_unsubscribe_once issued (k :: used) rest
  end.

(** The producer call whose disposer is the current one: the last
    [ProducerCalled] of source [n] in a log. *)
Definition last_producer (n : nat) (lg : list event) : option nat :=
  last (omap (λ e, match e with
                   | ProducerCalled m k => if decide (m = n) then Some k else None
                   | _ => None
                   end) lg).

(** [(x) => x * 2] *)
Definition double (args : list value) : value :=
  match args with
  | [VNum z] => VNum (2 * z)
  | _ => VUndefined
  end.

Definition empty_world : World := mkWorld [] [].

(** [const [a, setA] = createState(1); const c = createComputed([a], double)] *)
Definition computed_over_state : World :=
  (createComputed [0] double (createState (VNum 1) empty_world).2).2.

(** [createExternal(0, producer)] with a producer that sets nothing before
    it returns. *)
Definition idle_external : World :=
  (createExternal (VNum 0) (λ _, []) empty_world).2.

(** [grows P w w']: [w'] extends the log of [w] by events satisfying [P]. *)
Definition grows (P : event → Prop) (w w' : World) : Prop :=
  ∃ evs, log w' = log w ++ evs ∧ Forall P evs.

Definition quiet (e : event) : Prop := is_call e = false.

(** What holds of the source between the client's calls. *)
Definition session_inv (n : nat) (ss : World * list unsub) : Prop :=
  ∃ e, nodes ss.1 !! n = Some (NExternal e) ∧
    (ex_started e = 0 → ss.2 = [] ∧ ex_subs e = []) ∧
    (0 < ex_started e →
       ∃ k, ex_started e = S k ∧ ex_dispose e = Some k ∧
            last_producer n (log ss.1) = Some k) ∧
    Forall (λ u, ∃ cb, u = Unsub n (UserCb cb)) ss.2.

(** What one call does to the producer and to the disposer. *)
Definition transition_ok (n : nat) (o : op) (w1 w2 : World) : Prop :=
  (length (subs_of n w1) = 0 → length (subs_of n w2) = 1 →
     ∃ k, log w2 = log w1 ++ [ProducerCalled n k]) ∧
  (length (subs_of n w1) = 1 → length (subs_of n w2) = 0 →
     ∃ k, last_producer n (log w1) = Some k ∧ log w2 = log w1 ++ [DisposerCalled n k]) ∧
  (∀ cb, o = OpSubscribe cb → length (subs_of n w1) = 0 →
     length (subs_of n w2) = 1 ∧ ∃ k, log w2 = log w1 ++ [ProducerCalled n k]).

(** The callbacks a sequence of calls subscribes, and those behind a list
    of unsubscribe functions. *)
Definition subscribed (ops : list op) : list nat :=
  omap (λ o, match o with OpSubscribe cb => Some cb | _ => None end) ops.

Definition handle_callbacks (us : list unsub) : list nat :=
  omap (λ u, match u with Unsub _ (UserCb cb) => Some cb | _ => None end) us.

(** When no callback function is subscribed twice: the callback of every
    unsubscribe function not called yet is in the subscriber set. *)
Definition live_handles (n : nat) (used : list nat) (ss : World * list unsub) : Prop :=
  ∃ e, nodes ss.1 !! n = Some (NExternal e) ∧
    NoDup (ex_subs e) ∧ NoDup (handle_callbacks ss.2) ∧
    ∀ k cb, ss.2 !! k = Some (Unsub n (UserCb cb)) → k ∉ used → UserCb cb ∈ ex_subs e.

(** A call changes the subscriber count between 0 and 1. *)
Definition is_transition (n : nat) (w1 w2 : World) : Prop :=
  (length (subs_of n w1) = 0 ∧ length (subs_of n w2) = 1) ∨
  (length (subs_of n w1) = 1 ∧ length (subs_of n w2) = 0).

(** A computed source over a stateful source and an external source whose
    producer calls [set(3)] before it returns. *)
Definition computed_over_external : World :=
  (createComputed [0; 1] (λ args, default VUndefined (args !! 1))
     (createExternal (VNum 0) (λ _, [SetValue (VNum 3)])
        (createState (VNum 1) empty_world).2).2).2.

End StateTs.

(** ** Fragment.ts *)

Module FragmentTs.
Section Fragment.
Context {T : Type} `{EqDecision T}.

(** [child instanceof Fragment] *)
Variable instanceof_Fragment : T → bool.

(** [this._children.findIndex((ch) => ch === child)], [None] for [-1]. *)
Definition findIndex (child : T) (children : list T) : option nat :=
  fst <$> list_find (λ ch, ch = child) children.

(** [addChild(child, index = -1)]: it throws for a child that is a
    fragment, before it changes anything; the result is [_children]
    afterwards. *)
Definition addChild (child : T) (index : Z) (children : list T) : outcome (list T) :=
  if instanceof_Fragment child then Threw "nesting Fragments are not yet supported"
  else if decide (0 < index)%Z
  then Returned (take (Z.to_nat index) children ++ child :: drop (Z.to_nat index) children)
  else Returned (children ++ [child]).

Definition hasChild (child : T) (children : list T) : bool :=
  match findIndex child children with Some _ => true | None => false end.

(** [removeChild]: [splice(index, 1)]; with [index = -1] the splice counts
    from the end and takes the last child out. *)
Definition removeChild (child : T) (children : list T) : list T :=
  match findIndex child children with
  | Some i => delete i children
  | None => removelast children
  end.

End Fragment.
End FragmentTs.


(** ** For.ts *)

Module ForTs.

(** The [cleanup] prop: a function, left out, or [null]. *)
Inductive cleanup_prop := CleanupFunction | CleanupUndefined | CleanupNull.

Section For.
Context {Item Key El : Type} `{EqDecision Key} `{EqDecision El}.

(** [type MapItem]; [index] is the handle of the [State<number>] pair made
    by [createState(i)] and [scope] a handle into the scope heap. *)
Record MapItem := mkMapItem {
  item : Item;
  child : El;
  index : nat;
  scope : nat;
}.

Inductive event :=
  | ChildRemoved (c : El)
  | ChildAdded (c : El)
  | CleanupCalled (c : El) (it : Item) (i : nat)
  | DefaultCleanupCalled (c : El)
  | ScopeDisposed (s : nat)
  | ScopeCreated (s : nat) (p : nat)
  | Rendered (it : Item) (sig : nat) (inside : option nat)
  | IndexSet (sig i : nat)
  | Warned (k : Key).

(** What the closure of [For] holds: the tracking [map] in insertion order,
    the fragment's [_children], the current value of every index signal,
    the scope heap, and the trace of the calls the reconciler made. *)
Record ForState := mkForState {
  map : list (Key * MapItem);
  fragment : list El;
  indices : list nat;
  scopes : ScopeTs.State;
  log : list event;
}.

(** The props and the scope [For] was called in.  The render function is
    code of the caller: it runs on the scope state, where it may call
    [onMount] and [onCleanup] or make scopes of its own, and it returns an
    output or throws.  The [id] function and the callbacks behind the
    [cleanup] prop and the scopes' cleanups are taken to return. *)
Variable id : Item → Key.
Variable instanceof_Fragment : El → bool.
Variable mkChild : Item → nat → ScopeTs.State → outcome El * ScopeTs.State.
Variable cleanup : cleanup_prop.
Variable currentScope : nat.

Definition emit (es : list event) (st : ForState) : ForState :=
  mkForState (map st) (fragment st) (indices st) (scopes st) (log st ++ es).

Definition map_has (key : Key) (m : list (Key * MapItem)) : bool :=
  bool_decide (key ∈ m.*1).

Definition map_get (key : Key) (m : list (Key * MapItem)) : option MapItem :=
  (λ r, r.2.2) <$> list_find (λ kv, kv.1 = key) m.

Definition map_delete (key : Key) (m : list (Key * MapItem)) : list (Key * MapItem) :=
  filter (λ kv, kv.1 ≠ key) m.

(** [map.set] of a key the map does not hold appends the entry. *)
Definition map_set (key : Key) (v : MapItem) (m : list (Key * MapItem))
  : list (Key * MapItem) :=
  if map_has key m
  then (λ kv, if decide (kv.1 = key) then (key, v) else kv) <$> m
  else m ++ [(key, v)].

(** [index.get()] *)
Definition index_get (sig : nat) (st : ForState) : nat :=
  default 0 (indices st !! sig).

(** [fragment.removeChild(child)] *)
Definition fragment_removeChild (c : El) (st : ForState) : ForState :=
  mkForState (map st) (FragmentTs.removeChild c (fragment st)) (indices st) (scopes st)
             (log st ++ [ChildRemoved c]).

(** [fragment.addChild(child)]; when it throws nothing has changed. *)
Definition fragment_addChild (c : El) (st : ForState) : outcome unit * ForState :=
  match FragmentTs.addChild instanceof_Fragment c (-1) (fragment st) with
  | Returned f =>
    (Returned tt,
     mkForState (map st) f (indices st) (scopes st) (log st ++ [ChildAdded c]))
  | Threw msg => (Threw msg, st)
  end.

(** [function remove({ item, child, index: [index], scope })] *)
Definition remove (v : MapItem) (st : ForState) : ForState :=
  let st1 :=
    match cleanup with
    | CleanupFunction => emit [CleanupCalled (child v) (item v) (index_get (index v) st)] st
    | CleanupUndefined => emit [DefaultCleanupCalled (child v)] st
    | CleanupNull => st
    end in
  mkForState (map st1) (fragment st1) (indices st1)
             (ScopeTs.Scope_dispose (scope v) (scopes st1))
             (log st1 ++ [ScopeDisposed (scope v)]).

(** One round of the loop [for (const [key, value] of map.entries())]. *)
Definition sweep_entry (idSet : list Key) (st : ForState) (kv : Key * MapItem) : ForState :=
  let st1 := fragment_removeChild (child kv.2) st in
  if decide (kv.1 ∈ idSet) then st1
  else
    let st2 := remove kv.2 st1 in
    mkForState (map_delete kv.1 (map st2)) (fragment st2) (indices st2) (scopes st2) (log st2).

(** [new Scope(currentScope)] and [scope.run(() => mkChild(item, index))]:
    the outcome of the render function (an output comes with
    [Scope.current] as the function found it), the handle of the new scope
    and the scope state once [run] is over. *)
Definition render_new (it : Item) (sig : nat) (sst : ScopeTs.State)
  : outcome (El * option nat) * nat * ScopeTs.State :=
  let '(s, sst1) := ScopeTs.new_Scope (Some currentScope) sst in
  let '(r, sst2) :=
    ScopeTs.Scope_run s
      (λ x, let '(r, x') := mkChild it sig x in
            (match r with
             | Returned c => Returned (c, ScopeTs.current x)
             | Threw msg => Threw msg
             end, x')) sst1 in
  (r, s, sst2).

(** One call of the arrow function given to [items.map]: an error thrown
    by the render function or by [fragment.addChild] leaves the call at
    that point. *)
Definition place_item (it : Item) (i : nat) (st : ForState) : outcome unit * ForState :=
  let key := id it in
  match map_get key (map st) with
  | Some v =>
    let st1 := mkForState (map st) (fragment st) (<[index v := i]> (indices st)) (scopes st)
                          (log st ++ [IndexSet (index v) i]) in
    if FragmentTs.hasChild (child v) (fragment st1)
    then (Returned tt, emit [Warned key] st1)
    else fragment_addChild (child v) st1
  | None =>
    let sig := length (indices st) in
    let '(r, s, sst') := render_new it sig (scopes st) in
    match r with
    | Returned (c, inside) =>
      fragment_addChild c
        (mkForState (map_set key (mkMapItem it c sig s) (map st)) (fragment st)
                    (indices st ++ [i]) sst'
                    (log st ++ [ScopeCreated s currentScope; Rendered it sig inside]))
    | Threw msg =>
      (Threw msg,
       mkForState (map st) (fragment st) (indices st ++ [i]) sst'
                  (log st ++ [ScopeCreated s currentScope]))
    end
  end.

(** [items.map(...)]: the first error ends the loop. *)
Fixpoint place_items (items : list Item) (i : nat) (st : ForState)
  : outcome unit * ForState :=
  match items with
  | [] => (Returned tt, st)
  | it :: rest =>
    match place_item it i st with
    | (Returned _, st1) => place_items rest (S i) st1
    | (Threw msg, st1) => (Threw msg, st1)
    end
  end.

(** The first loop of [callback]: it runs over the entries the map holds
    when the loop starts; deleting the entry at hand does not disturb the
    iteration. *)
Definition sweep (items : list Item) (st : ForState) : ForState :=
  let ids := id <$> items in
  let idSet := Set_of ids in
  foldl (sweep_entry idSet) st (map st).

(** [function callback(itareable)] *)
Definition callback (items : list Item) (st : ForState) : outcome unit * ForState :=
  place_items items 0 (sweep items st).

(** What [remove] calls before it disposes the scope. *)
Definition teardown_of (v : MapItem) (st : ForState) : list event :=
  match cleanup with
  | CleanupFunction => [CleanupCalled (child v) (item v) (index_get (index v) st)]
  | CleanupUndefined => [DefaultCleanupCalled (child v)]
  | CleanupNull => []
  end.

(** Readings of a trace: the scopes disposed, the teardown calls made on
    an output, the render calls made for a key, the outputs mounted, the
    keys warned about. *)
Definition disposals (evs : list event) : list nat :=
  omap (λ e, match e with ScopeDisposed s => Some s | _ => None end) evs.

Definition is_teardown (c : El) (e : event) : bool :=
  match e with
  | CleanupCalled c' _ _ | DefaultCleanupCalled c' => bool_decide (c' = c)
  | _ => false
  end.

Definition teardowns (c : El) (evs : list event) : list event :=
  filter (λ e, is_teardown c e = true) evs.

Definition renders (k : Key) (evs : list event) : list (Item * nat * option nat) :=
  omap (λ e, match e with
             | Rendered it sig inside =>
               if decide (id it = k) then Some (it, sig, inside) else None
             | _ => None
             end) evs.

Definition additions (evs : list event) : list El :=
  omap (λ e, match e with ChildAdded c => Some c | _ => None end) evs.

Definition warnings (evs : list event) : list Key :=
  omap (λ e, match e with Warned k => Some k | _ => None end) evs.

Definition children (m : list (Key * MapItem)) : list El := (λ kv, child kv.2) <$> m.

(** The state [For] is in between two passes: the map has one entry per
    key, every entry has its own output, index signal and scope, and the
    fragment holds exactly the outputs of the entries. *)
Definition tracked (st : ForState) : Prop :=
  NoDup (map st).*1 ∧
  NoDup (children (map st)) ∧
  fragment st ≡ₚ children (map st) ∧
  NoDup ((λ kv, index kv.2) <$> map st) ∧
  Forall (λ kv, index kv.2 < length (indices st)) (map st) ∧
  NoDup ((λ kv, scope kv.2) <$> map st) ∧
  Forall (λ kv, scope kv.2 < length (ScopeTs.heap (scopes st))) (map st).

(** The items of a pass that get a new entry: those whose key is neither
    in [seen] nor carried by an earlier item. *)
Fixpoint new_items (seen : list Key) (items : list Item) : list Item :=
  match items with
  | [] => []
  | it :: rest =>
    if decide (id it ∈ seen) then new_items seen rest
    else it :: new_items (seen ++ [id it]) rest
  end.

(** The entries made for them, one render call after the other from the
    scope state [sst], the first with index signal [sig]; and the scope
    state these calls lead to. *)
Fixpoint new_entries (sig : nat) (sst : ScopeTs.State) (items : list Item)
  : list (Key * MapItem) :=
  match items with
  | [] => []
  | it :: rest =>
    match render_new it sig sst with
    | (Returned (c, _), s, sst') =>
      (id it, mkMapItem it c sig s) :: new_entries (S sig) sst' rest
    | (Threw _, _, _) => []
    end
  end.

Fixpoint scopes_after (sig : nat) (sst : ScopeTs.State) (items : list Item)
  : ScopeTs.State :=
  match items with
  | [] => sst
  | it :: rest => scopes_after (S sig) (render_new it sig sst).2 rest
  end.

(** No code removes a scope from the heap; a render function is taken to
    leave at least the scopes it found. *)
Definition keeps_scopes : Prop :=
  ∀ it sig sst,
    length (ScopeTs.heap sst) ≤ length (ScopeTs.heap (mkChild it sig sst).2).

(** What one round of the first loop adds to the trace. *)
Definition sweep_events (idSet : list Key) (st : ForState) (kv : Key * MapItem)
  : list event :=
  ChildRemoved (child kv.2) ::
  (if decide (kv.1 ∈ idSet) then []
   else teardown_of kv.2 st ++ [ScopeDisposed (scope kv.2)]).

(** [lists_outputs m V F]: [F] is the list of the outputs the map [m]
    holds for the keys [V], in the same order. *)
Definition lists_outputs (m : list (Key * MapItem)) (V : list Key) (F : list El) : Prop :=
  Forall2 (λ k c, ∃ e, (k, e) ∈ m ∧ child e = c) V F.

(** Every entry has its own index signal, and the signal exists. *)
Definition index_ok (st : ForState) : Prop :=
  NoDup ((λ kv, index kv.2) <$> map st) ∧
  Forall (λ kv, index kv.2 < length (indices st)) (map st).

(** A scope once [dispose] has run on it. *)
Definition disposed (sc : ScopeTs.Scope) : ScopeTs.Scope :=
  ScopeTs.mkScope None ∅ [] (ScopeTs.mounts sc) (ScopeTs.mounted sc).

(** A new scope under [currentScope], as the render function finds it. *)
Definition child_scope : ScopeTs.Scope :=
  ScopeTs.mkScope (Some currentScope) ∅ [] [] false.

(** The scope state the render function is called on: the new scope is
    the last of the heap and current. *)
Definition entry_state (sst : ScopeTs.State) : ScopeTs.State :=
  ScopeTs.mkState (ScopeTs.heap sst ++ [child_scope]) (Some (length (ScopeTs.heap sst)))
                  (ScopeTs.trace sst).

(** What one pass adds to the trace. *)
Definition pass_events (items : list Item) (st : ForState) : list event :=
  drop (length (log st)) (log (callback items st).2).

(** C1 as stated, for the removed keys: whatever the [cleanup] prop, a
    pass makes one teardown call on the output of each tracked key that is
    not in the input. *)
Definition removed_keys_torn_down (items : list Item) (st : ForState) : Prop :=
  ∀ k e, (k, e) ∈ map st → k ∉ id <$> items →
    length (teardowns (child e) (pass_events items st)) = 1.

(** C8 as stated, for the scopes: a key that two or more items of the
    input map to has one scope created, and one render call made, in the
    pass. *)
Definition one_scope_per_duplicated_key (items : list Item) (st : ForState) : Prop :=
  ∀ k, 1 < length (filter (λ k', k' = k) (id <$> items)) →
    length (renders k (pass_events items st)) = 1.


End For.

(** A use of [For]: the items are pairs of a key and a payload, [id] takes
    the key, every call of the render function makes a new output (named
    here after the index signal the call is given), output 0 stands for a
    fragment, and [For] is called in scope 0. *)
Definition demo_instanceof (c : nat) : bool := Nat.eqb c 0.

Definition demo_render (it : nat * nat) (sig : nat) (x : ScopeTs.State)
  : outcome nat * ScopeTs.State :=
  (Returned (100 + sig), x).

(** A render function that calls [onMount(9)] and [onCleanup(8)] before it
    returns its output. *)
Definition demo_render_hooks (it : nat * nat) (sig : nat) (x : ScopeTs.State)
  : outcome nat * ScopeTs.State :=
  (Returned (100 + sig), ScopeTs.onCleanup 8 (default x (ScopeTs.onMount 9 x))).

(** A render function that returns a fragment - a nested [For] - for the
    items of key 2. *)
Definition demo_render_nested (it : nat * nat) (sig : nat) (x : ScopeTs.State)
  : outcome nat * ScopeTs.State :=
  (Returned (if Nat.eqb it.1 2 then 0 else 100 + sig), x).

Definition demo_start : @ForState (nat * nat) nat nat :=
  mkForState [] [] []
    (ScopeTs.mkState [ScopeTs.mkScope None ∅ [] [] false] (Some 0) []) [].

(** [For] after its first pass over keys 1, 2, 3, for each [cleanup]. *)
Definition demo_rendered (cleanup : cleanup_prop) : @ForState (nat * nat) nat nat :=
  (callback fst demo_instanceof demo_render cleanup 0 [(1, 0); (2, 0); (3, 0)] demo_start).2.

End ForTs.


(** ** With.ts *)

Module WithTs.
Section With.
Context {T El : Type} `{EqDecision El}.

Inductive event :=
  | ChildRemoved (c : El)
  | ChildAdded (c : El)
  | CleanupCalled (c : El)
  | DefaultCleanupCalled (c : El)
  | ScopeDisposed (s : nat)
  | ScopeCreated (s : nat) (p : nat)
  | Rendered (v : T) (inside : option nat).

(** The closure of [With]: the fragment's [_children], the variable
    [scope] ([None] while unassigned), the scope heap and the trace. *)
Record WithState := mkWithState {
  fragment : list El;
  scope : option nat;
  scopes : ScopeTs.State;
  log : list event;
}.

(** [mkChild] is code of the caller that runs on the scope state; it
    returns an element, or one of [""], [false], [null], [undefined], all
    read as [None], or it throws. *)
Variable instanceof_Fragment : El → bool.
Variable mkChild : T → ScopeTs.State → outcome (option El) * ScopeTs.State.
Variable cleanup : ForTs.cleanup_prop.
Variable currentScope : nat.

(** The body of [for (const child of fragment.children)]. *)
Definition unmount_child (st : WithState) (c : El) : WithState :=
  let lg1 := log st ++ [ChildRemoved c] in
  let lg2 :=
    match cleanup with
    | ForTs.CleanupFunction => lg1 ++ [CleanupCalled c]
    | ForTs.CleanupUndefined => lg1 ++ [DefaultCleanupCalled c]
    | ForTs.CleanupNull => lg1
    end in
  match scope st with
  | Some s =>
    mkWithState (FragmentTs.removeChild c (fragment st)) (scope st)
                (ScopeTs.Scope_dispose s (scopes st)) (lg2 ++ [ScopeDisposed s])
  | None =>
    mkWithState (FragmentTs.removeChild c (fragment st)) (scope st) (scopes st) lg2
  end.

(** [scope = new Scope(currentScope)] and [scope.run(() => mkChild(v))]:
    the outcome of the render function (a result comes with
    [Scope.current] as the function found it), the handle of the new scope
    and the scope state once [run] is over. *)
Definition render_new (v : T) (sst : ScopeTs.State)
  : outcome (option El * option nat) * nat * ScopeTs.State :=
  let '(s, sst1) := ScopeTs.new_Scope (Some currentScope) sst in
  let '(r, sst2) :=
    ScopeTs.Scope_run s
      (λ x, let '(r, x') := mkChild v x in
            (match r with
             | Returned ch => Returned (ch, ScopeTs.current x)
             | Threw msg => Threw msg
             end, x')) sst1 in
  (r, s, sst2).

(** [function callback(v)]: an error thrown by the render function or by
    [fragment.addChild] leaves the call at that point, with [scope]
    already assigned. *)
Definition callback (v : T) (st : WithState) : outcome unit * WithState :=
  let st1 := foldl unmount_child st (fragment st) in
  let '(r, s, sst') := render_new v (scopes st1) in
  match r with
  | Returned (ch, inside) =>
    let lg := log st1 ++ [ScopeCreated s currentScope; Rendered v inside] in
    match ch with
    | Some c =>
      match FragmentTs.addChild instanceof_Fragment c (-1) (fragment st1) with
      | Returned f => (Returned tt, mkWithState f (Some s) sst' (lg ++ [ChildAdded c]))
      | Threw msg => (Threw msg, mkWithState (fragment st1) (Some s) sst' lg)
      end
    | None => (Returned tt, mkWithState (fragment st1) (Some s) sst' lg)
    end
  | Threw msg =>
    (Threw msg,
     mkWithState (fragment st1) (Some s) sst' (log st1 ++ [ScopeCreated s currentScope]))
  end.

End With.

(** A use of [With] in scope 0: [(v) => v && <widget 7>] over a boolean,
    with a render function that first calls [onCleanup(9)]; output 0 stands
    for a fragment. *)
Definition demo_instanceof (c : nat) : bool := Nat.eqb c 0.

Definition demo_child (v : bool) (x : ScopeTs.State) : outcome (option nat) * ScopeTs.State :=
  (Returned (if v then Some 7 else None), ScopeTs.onCleanup 9 x).

Definition demo_start : @WithState bool nat :=
  mkWithState [] None (ScopeTs.mkState [ScopeTs.mkScope None ∅ [] [] false] (Some 0) []) [].

(** A render function over numbers: nothing for 0, widget 7 for 1 and a
    fragment - a nested [For] - for any other value. *)
Definition demo_child_nested (v : nat) (x : ScopeTs.State)
  : outcome (option nat) * ScopeTs.State :=
  (Returned (match v with 0 => None | 1 => Some 7 | _ => Some 0 end), x).

Definition demo_start_nested : @WithState nat nat :=
  mkWithState [] None (ScopeTs.mkState [ScopeTs.mkScope None ∅ [] [] false] (Some 0) []) [].

End WithTs.


(** ** util.ts *)

Module UtilTs.
Import Stdlib.Strings.Ascii Stdlib.Strings.String.

(** Strings here are strings of ASCII characters; on those [toLowerCase]
    and [toUpperCase] only move the 26 letters. *)
Definition ascii_only (s : string) : Prop :=
  Forall (λ c, nat_of_ascii c < 128) (list_ascii_of_string s).

(** [[a-z]] and [[A-Z]] *)
Definition is_lower (c : ascii) : bool :=
  (97 <=? nat_of_ascii c) && (nat_of_ascii c <=? 122).

Definition is_upper (c : ascii) : bool :=
  (65 <=? nat_of_ascii c) && (nat_of_ascii c <=? 90).

Definition toLowerCase_char (c : ascii) : ascii :=
  if is_upper c then ascii_of_nat (nat_of_ascii c + 32) else c.

Definition toUpperCase_char (c : ascii) : ascii :=
  if is_lower c then ascii_of_nat (nat_of_ascii c - 32) else c.

Fixpoint map_chars (f : ascii → ascii) (s : string) : string :=
  match s with
  | EmptyString => EmptyString
  | String c rest => String (f c) (map_chars f rest)
  end.

Definition toLowerCase (s : string) : string := map_chars toLowerCase_char s.

(** [str.replaceAll(a, b)] for one-character [a] and [b]. *)
Definition replaceAll (a b : ascii) (s : string) : string :=
  map_chars (λ c, if Ascii.eqb c a then b else c) s.

(** [str.replace(/([a-z])([A-Z])/g, "$1-$2")]: the scan goes left to
    right and resumes after the two characters of a match. *)
Fixpoint replace_lower_upper (s : string) : string :=
  match s with
  | EmptyString => EmptyString
  | String c1 rest =>
    match rest with
    | EmptyString => s
    | String c2 rest' =>
      if is_lower c1 && is_upper c2
      then String c1 (String "-" (String c2 (replace_lower_upper rest')))
      else String c1 (replace_lower_upper rest)
    end
  end.

Definition kebabify (str : string) : string :=
  toLowerCase (replaceAll "_" "-" (replace_lower_upper str)).

Definition snakeify (str : string) : string :=
  toLowerCase (replaceAll "-" "_" (replace_lower_upper str)).

(** [.] in a regular expression matches any character but a line
    terminator. *)
Definition is_line_terminator (c : ascii) : bool :=
  (nat_of_ascii c =? 10) || (nat_of_ascii c =? 13).

Definition is_dash_or_underscore (c : ascii) : bool :=
  Ascii.eqb c "-" || Ascii.eqb c "_".

(** [str.replace(/[-_](.)/g, (_, char) => char.toUpperCase())] *)
Fixpoint camelify (str : string) : string :=
  match str with
  | EmptyString => EmptyString
  | String c rest =>
    if is_dash_or_underscore c then
      match rest with
      | EmptyString => str
      | String d rest' =>
        if is_line_terminator d then String c (camelify rest)
        else String (toUpperCase_char d) (camelify rest')
      end
    else String c (camelify rest)
  end.

End UtilTs.

Module UtilTsNames.
Import Stdlib.Strings.Ascii Stdlib.Strings.String.
Import UtilTs.

(** The method names the library derives from a property name:
    [definePropertyGetter] defines the first, [set] probes the next two,
    the [get] of [createBinding] probes the last. *)
Definition definePropertyGetter_name (prop : string) : string :=
  "get_" +:+ replaceAll "-" "_" (kebabify prop).

Definition set_getter (prop : string) : string := "get_" +:+ snakeify prop.

Definition set_setter (prop : string) : string := "set_" +:+ snakeify prop.

Definition createBinding_getter (key : string) : string :=
  let prop := kebabify key in
  "get_" +:+ replaceAll "-" "_" prop.

Fixpoint all_chars (p : ascii → bool) (s : string) : bool :=
  match s with
  | EmptyString => true
  | String c rest => p c && all_chars p rest
  end.

(** camelCase: no dash, no underscore, and a capital letter only right
    after a small letter. *)
Fixpoint camel_from (after_lower : bool) (s : string) : bool :=
  match s with
  | EmptyString => true
  | String c rest =>
    negb (is_dash_or_underscore c) && (negb (is_upper c) || after_lower) &&
    camel_from (is_lower c) rest
  end.

Definition camelCase (s : string) : bool := camel_from false s.

(** A character [kebabify] can leave behind: no capital letter, no
    underscore. *)
Definition kebab_char (c : ascii) : bool := negb (is_upper c) && negb (Ascii.eqb c "_").

End UtilTsNames.

(** ** Fragment.ts: the emitted positions *)

Module FragmentSignals.
Section Fragment.
Context {T : Type} `{EqDecision T}.

(** [child instanceof Fragment] *)
Variable instanceof_Fragment : T → bool.

(** The index [addChild] hands to [emit("child-added", child, index)],
    when it gets there. *)
Definition addChild_emitted (child : T) (index : Z) (children : list T) : outcome Z :=
  if instanceof_Fragment child then Threw "nesting Fragments are not yet supported"
  else if decide (0 < index)%Z then Returned index
  else Returned (Z.of_nat (length (children ++ [child])) - 1)%Z.

(** The index [removeChild] hands to [emit("child-removed", child, index)]. *)
Definition removeChild_emitted (child : T) (children : list T) : Z :=
  match FragmentTs.findIndex child children with
  | Some i => Z.of_nat i
  | None => (-1)%Z
  end.

(** Where [addChild(child, index)] puts the child. *)
Definition addChild_position (index : Z) (children : list T) : nat :=
  if decide (0 < index)%Z then Z.to_nat index `min` length children
  else length children.

End Fragment.
End FragmentSignals.

(** ** scope.ts: callers *)

Module ScopeUses.
Import ScopeTs.

(** [provider h ctx s v]: going up from [s], the first scope that maps
    [ctx] to something other than [undefined] maps it to [v]. *)
Inductive provider (h : list Scope) (ctx : nat) : nat → value → Prop :=
  | provider_here s sc v :
      h !! s = Some sc → Map_get (contexts sc) ctx = v → v ≠ VUndefined →
      provider h ctx s v
  | provider_above s sc p v :
      h !! s = Some sc → Map_get (contexts sc) ctx = VUndefined →
      parent sc = Some p → provider h ctx p v → provider h ctx s v.

(** [() => ctx.use()] *)
Definition use_fn (ctx : nat) (defaultValue : value) (st : State)
  : outcome (option value) * State :=
  (Returned (use ctx defaultValue st), st).

(** [() => new Scope(getScope()).run(() => ctx.use())] *)
Definition use_in_child (ctx : nat) (defaultValue : value) (st : State)
  : outcome (option value) * State :=
  match getScope st with
  | Threw msg => (Threw msg, st)
  | Returned s =>
    let '(c, st1) := new_Scope (Some s) st in
    Scope_run c (use_fn ctx defaultValue) st1
  end.

(** [cbs.forEach((cb) => onCleanup(cb))] *)
Definition onCleanup_all (cbs : list nat) (st : State) : State :=
  foldl (λ st cb, onCleanup cb st) st cbs.

(** The events a trace gained since [st]. *)
Definition since (st st' : State) : list event := drop (length (trace st)) (trace st').

(** A root with context 3 set to 5 and a child scope under it, current. *)
Definition child_of_provider : State :=
  mkState [mkScope None {[3 := VNum 5]} [] [] true;
           mkScope (Some 0) ∅ [] [] false] (Some 1) [].

End ScopeUses.

(** ** state.ts: callers *)

Module StateClients.
Import StateTs.

Definition is_user (s : sub) : bool :=
  match s with UserCb _ => true | DepListener _ _ _ => false end.

(** The current value of a source that holds one. *)
Definition value_of (d : nat) (w : World) : value :=
  match nodes w !! d with
  | Some (NState s) => st_value s
  | Some (NConnection c) => cn_value c
  | Some (NExternal e) => ex_value e
  | _ => VUndefined
  end.

Definition values_of (ds : list nat) (w : World) : list value :=
  (λ d, value_of d w) <$> ds.

(** The events a log gained since [w]. *)
Definition since (w w' : World) : list event := drop (length (log w)) (log w').

(** [cbs.forEach((cb) => source.subscribe(cb))] *)
Fixpoint subscribe_all (n : nat) (cbs : list nat) (w : World) : option World :=
  match cbs with
  | [] => Some w
  | cb :: rest => '(_, w') ← subscribe n (UserCb cb) w; subscribe_all n rest w'
  end.

(** Two worlds that differ at most in the caches of computed sources. *)
Definition same_node_but_cache (nd nd' : node) : Prop :=
  match nd, nd' with
  | NComputed c, NComputed c' =>
    deps c' = deps c ∧ transform c' = transform c ∧ c_dispose c' = c_dispose c ∧
    c_subs c' = c_subs c ∧ c_gen c' = c_gen c
  | _, _ => nd' = nd
  end.

Definition same_but_caches (w w' : World) : Prop :=
  Forall2 same_node_but_cache (nodes w) (nodes w').

(** The unsubscribe functions a computed source holds were returned by
    sources created before it. *)
Definition disposers_below (w : World) : Prop :=
  ∀ n c, nodes w !! n = Some (NComputed c) →
    Forall (λ u, match u with Unsub d _ => d < n end) (c_dispose c).

(** [const c = createComputed([a], double)] over [const [a] = createState(1)],
    with one subscriber. *)
Definition subscribed_computed : World :=
  match subscribe 1 (UserCb 7) computed_over_state with
  | Some (_, w) => w
  | None => computed_over_state
  end.

(** A client of a computed source [c]: it calls the setters of stateful
    sources and reads [c]. *)
Inductive reader_op :=
  | RSet (d : nat) (a : setter_arg)
  | RGet.

Definition reader_step (c : nat) (o : reader_op) (w : World) : option World :=
  match o with
  | RSet d a => set d a w
  | RGet => '(_, w') ← get c w; Some w'
  end.

Fixpoint reader_run (c : nat) (ops : list reader_op) (w : World) : option World :=
  match ops with
  | [] => Some w
  | o :: rest => w' ← reader_step c o w; reader_run c rest w'
  end.

(** [c] is a computed source over stateful sources that only callbacks
    of the caller are subscribed to; nobody has subscribed to [c] and its
    cache is empty. *)
Definition unread_over_states (c : nat) (cs : ComputedSrc) (w : World) : Prop :=
  nodes w !! c = Some (NComputed cs) ∧ c_subs cs = [] ∧
  (∀ i, arr_get (cache cs) i = VUndefined) ∧
  Forall (λ d, d < c ∧ ∃ s, nodes w !! d = Some (NState s) ∧
                          Forall (λ x, is_user x = true) (st_subs s)) (deps cs).

(** [c] listens to every one of its dependencies, all stateful, and
    every slot of its cache is empty or holds the current value of its
    dependency. *)
Definition tracking (c : nat) (ds : list nat) (tr : list value → value) (w : World) : Prop :=
  ∃ cs, nodes w !! c = Some (NComputed cs) ∧ deps cs = ds ∧ transform cs = tr ∧
    Forall (λ x, is_user x = true) (c_subs cs) ∧
    ∀ i d, ds !! i = Some d →
      d < c ∧ ∃ s, nodes w !! d = Some (NState s) ∧
        (∃ g, DepListener c i g ∈ st_subs s) ∧
        (∀ x, x ∈ st_subs s →
           is_user x = true ∨ ∃ j g, x = DepListener c j g ∧ ds !! j = Some d) ∧
        (arr_get (cache cs) i = VUndefined ∨ arr_get (cache cs) i = st_value s).

(** The subscriber is the listener of [c] for slot [j]. *)
Definition listens_at (c j : nat) (x : sub) : bool :=
  match x with
  | DepListener c' j' _ => bool_decide (c' = c) && bool_decide (j' = j)
  | UserCb _ => false
  end.

(** [deps.map((dep, i) => dep.subscribe(listener_i))] on stateful sources. *)
Fixpoint add_listeners (c g : nat) (ds : list nat) (i : nat) (w : World) : World :=
  match ds with
  | [] => w
  | d :: rest => add_listeners c g rest (S i) (add_sub d (DepListener c i g) w)
  end.

(** A client of a connection source: it subscribes callbacks, calls the
    unsubscribe functions it was given - [COUnsubscribe k] the one returned
    by the [k]-th subscribe, any number of times - and the objects emit
    their signals. *)
Inductive conn_op :=
  | COSubscribe (cb : nat)
  | COUnsubscribe (k : nat)
  | COEmit (h : nat).

Definition conn_step (n : nat) (o : conn_op) (ss : World * list unsub)
  : option (World * list unsub) :=
  match o with
  | COSubscribe cb => '(u, w') ← subscribe n (UserCb cb) ss.1; Some (w', ss.2 ++ [u])
  | COUnsubscribe k => u ← ss.2 !! k; w' ← call_unsub u ss.1; Some (w', ss.2)
  | COEmit h => w' ← connection_emit n h ss.1; Some (w', ss.2)
  end.

Fixpoint conn_run (n : nat) (ops : list conn_op) (ss : World * list unsub)
  : option (World * list unsub) :=
  match ops with
  | [] => Some ss
  | o :: rest => ss' ← conn_step n o ss; conn_run n rest ss'
  end.

(** Every [COUnsubscribe k] names a function already returned. *)
Fixpoint handles_exist (issued : nat) (ops : list conn_op) : bool :=
  match ops with
  | [] => true
  | COSubscribe _ :: rest => handles_exist (S issued) rest
  | COUnsubscribe k :: rest => bool_decide (k < issued) && handles_exist issued rest
  | COEmit _ :: rest => handles_exist issued rest
  end.

Definition count_event (e : event) (lg : list event) : nat :=
  length (filter (λ e', e' = e) lg).

(** A connection source nobody is subscribed to, with no handler
    connected. *)
Definition cold_connection (n : nat) (c : ConnectionSrc) (w : World) : Prop :=
  nodes w !! n = Some (NConnection c) ∧ cn_subs c = [] ∧ cn_dispose c = [].

(** The handlers that are connected when [subs] are the subscribers. *)
Definition connected_handlers (c : ConnectionSrc) (subs : list sub) : list nat :=
  if decide (subs = []) then [] else seq 0 (length (signals c)).

(** [(n) => n + 1] *)
Definition increment (v : value) : value :=
  match v with VNum z => VNum (z + 1) | _ => VUndefined end.

(** A computed source with its cache replaced. *)
Definition with_cache (ca : list value) (cs : ComputedSrc) : ComputedSrc :=
  mkComputedSrc (deps cs) (transform cs) (c_dispose cs) (c_subs cs) ca (c_gen cs).

(** What holds between the calls of a client that started at log [lg0]. *)
Definition conn_inv (n : nat) (hs : list (value → value)) (lg0 : list event)
  (ss : World * list unsub) : Prop :=
  ∃ c evs, nodes ss.1 !! n = Some (NConnection c) ∧ signals c = hs ∧
    Forall (λ x, is_user x = true) (cn_subs c) ∧
    cn_dispose c = connected_handlers c (cn_subs c) ∧
    Forall (λ u, ∃ cb, u = Unsub n (UserCb cb)) ss.2 ∧
    log ss.1 = lg0 ++ evs ∧
    ∀ h, h < length hs →
      count_event (Connected n h) evs =
      count_event (Disconnected n h) evs + (if decide (cn_subs c = []) then 0 else 1).

End StateClients.

(** ** For.ts: the state between passes *)

Module ForStates.
Import ForTs.
Section For.
Context {Item Key El : Type} `{EqDecision Key} `{EqDecision El}.
Variable id : Item → Key.
Variable instanceof_Fragment : El → bool.

Implicit Types (st : @ForState Item Key El) (e : @MapItem Item El).

(** What a pass leaves behind: one entry per key of the input, each with
    its own output and index signal, no output a fragment; the fragment
    lists the outputs in the order of the keys' first occurrence, and every
    index signal holds the last position of its key. *)
Definition settled (items : list Item) (st : ForState) : Prop :=
  NoDup (map st).*1 ∧ NoDup (children (map st)) ∧ index_ok st ∧
  Forall (λ c, instanceof_Fragment c = false) (fragment st) ∧
  (∀ kv, kv ∈ map st → kv.1 ∈ id <$> items) ∧
  (∀ x, x ∈ items → id x ∈ (map st).*1) ∧
  fragment st = omap (λ k, child <$> map_get k (map st)) (Set_of (id <$> items)) ∧
  (∀ k e p, (k, e) ∈ map st → (id <$> items) !! p = Some k →
     (∀ q, p < q → (id <$> items) !! q ≠ Some k) →
     indices st !! index e = Some p).

End For.
End ForStates.

(** ** With.ts: callers *)

Module WithRuns.
Import WithTs.
Section With.
Context {T El : Type} `{EqDecision El}.
Variable instanceof_Fragment : El → bool.
Variable mkChild : T → ScopeTs.State → outcome (option El) * ScopeTs.State.
Variable cleanup : ForTs.cleanup_prop.
Variable currentScope : nat.

(** The calls of [callback] that a sequence of values of the accessor
    brings about, up to the first one that throws. *)
Fixpoint With_run (vs : list T) (st : @WithState T El) : outcome unit * @WithState T El :=
  match vs with
  | [] => (Returned tt, st)
  | v :: rest =>
    match callback instanceof_Fragment mkChild cleanup currentScope v st with
    | (Returned _, st1) => With_run rest st1
    | (Threw msg, st1) => (Threw msg, st1)
    end
  end.

Definition disposals (evs : list (@event T El)) : list nat :=
  omap (λ e, match e with ScopeDisposed s => Some s | _ => None end) evs.

(** The states [With] is in after each of these calls. *)
Fixpoint With_states (vs : list T) (st : @WithState T El) : list (@WithState T El) :=
  match vs with
  | [] => []
  | v :: rest =>
    let st1 := (callback instanceof_Fragment mkChild cleanup currentScope v st).2 in
    st1 :: With_states rest st1
  end.

(** The scope [With] holds, when an output is mounted. *)
Definition held_with_output (st : @WithState T El) : option nat :=
  match fragment st with [] => None | _ :: _ => scope st end.

End With.
End WithRuns.


(** * Properties *)

(** ** Scopes and contexts *)

Module ScopeFacts.
Import ScopeTs.

Lemma set_add_elem `{EqDecision A} (x : A) (l : list A) : x ∈ set_add x l.
Proof. unfold set_add. case_decide; [done|]. set_solver. Qed.

Lemma set_add_NoDup `{EqDecision A} (x : A) (l : list A) : NoDup l → NoDup (set_add x l).
Proof.
  intros Hl. unfold set_add. case_decide; [done|].
  apply NoDup_app. split_and!; [done| |apply NoDup_singleton].
  intros y Hy Hy'. apply list_elem_of_singleton in Hy'. by subst.
Qed.

Lemma wf_parent_in_heap h s sc p :
  wf h → h !! s = Some sc → parent sc = Some p → p < length h.
Proof.
  intros Hwf Hs Hp. pose proof (Hwf _ _ _ Hs Hp). apply lookup_lt_Some in Hs. lia.
Qed.

(** A new scope under an existing parent keeps the heap well formed. *)
Lemma new_Scope_wf p st :
  wf (heap st) → (∀ q, p = Some q → q < length (heap st)) →
  wf (heap (new_Scope p st).2).
Proof.
  intros Hwf Hp s sc q Hs Hq. simpl in Hs.
  destruct (decide (s < length (heap st))) as [Hlt|Hge].
  - rewrite lookup_app_l in Hs by done. eauto.
  - rewrite lookup_app_r in Hs by lia.
    destruct (s - length (heap st)) eqn:E; simpl in Hs; [|done].
    inversion Hs; subst; simpl in Hq. specialize (Hp _ Hq). lia.
Qed.




Lemma reaches_le h s a : wf h → reaches h s a → a ≤ s.
Proof.
  intros Hwf. induction 1 as [|s sc p a Hs Hp _ IH]; [lia|].
  pose proof (Hwf _ _ _ Hs Hp). lia.
Qed.

(** What the completion of [run] does. *)
Lemma run_finally_spec s prev st sc :
  heap st !! s = Some sc →
  let st' := run_finally s prev st in
  trace st' = trace st ++ (MountRan <$> mounts sc) ∧
  mounts_of s st' = [] ∧ mounted_of s st' = true ∧ current st' = prev ∧
  contexts_of s st' = contexts sc ∧
  (∀ u, u ≠ s → heap st' !! u = heap st !! u).
Proof.
  intros Hs. unfold run_finally, mounts_of, mounted_of, contexts_of. rewrite Hs. simpl.
  rewrite list_lookup_insert_eq by (by eapply lookup_lt_Some). simpl.
  split_and!; try done. intros u Hu. by rewrite list_lookup_insert_ne.
Qed.

Lemma use_from_fuel h ctx d :
  wf h → ∀ f1 f2 s, s < f1 → s < f2 → s < length h →
  use_from f1 (Some s) ctx d h = use_from f2 (Some s) ctx d h ∧
  is_Some (use_from f1 (Some s) ctx d h).
Proof.
  intros Hwf. induction f1 as [|f1 IH]; intros f2 s H1 H2 Hl; [lia|].
  destruct f2 as [|f2]; [lia|].
  destruct (lookup_lt_is_Some_2 h s Hl) as [sc Hsc].
  simpl. rewrite Hsc. simpl.
  destruct (strict_ne (Map_get (contexts sc) ctx) VUndefined); [split; eauto|].
  destruct (parent sc) as [p|] eqn:Hp.
  - pose proof (Hwf _ _ _ Hsc Hp). apply IH; lia.
  - destruct f1, f2; simpl; split; eauto.
Qed.

Lemma use_from_None f ctx d h : use_from f None ctx d h = Some d.
Proof. by destruct f. Qed.

(** One round of the loop, with any sufficient number of steps left. *)
Lemma use_from_step h ctx d f f' s sc :
  wf h → h !! s = Some sc → s < f → s ≤ f' →
  use_from f (Some s) ctx d h =
    if strict_ne (Map_get (contexts sc) ctx) VUndefined
    then Some (Map_get (contexts sc) ctx)
    else use_from f' (parent sc) ctx d h.
Proof.
  intros Hwf Hs Hf Hf'. destruct f as [|f]; [lia|]. simpl. rewrite Hs. simpl.
  destruct (strict_ne _ _); [done|].
  destruct (parent sc) as [p|] eqn:Hp; [|by rewrite !use_from_None].
  pose proof (Hwf _ _ _ Hs Hp). apply lookup_lt_Some in Hs.
  apply (use_from_fuel h ctx d Hwf); lia.
Qed.

Lemma use_from_all_undefined h ctx d :
  wf h → ∀ fuel s, s < fuel → s < length h →
  (∀ a asc, reaches h s a → h !! a = Some asc → Map_get (contexts asc) ctx = VUndefined) →
  use_from fuel (Some s) ctx d h = Some d.
Proof.
  intros Hwf. induction fuel as [|fuel IH]; intros s Hs Hl Hall; [lia|].
  destruct (lookup_lt_is_Some_2 h s Hl) as [sc Hsc].
  simpl. rewrite Hsc. simpl.
  rewrite (Hall s sc (reaches_refl _ _) Hsc). simpl.
  destruct (parent sc) as [p|] eqn:Hp.
  - pose proof (Hwf _ _ _ Hsc Hp). apply IH; [lia|lia|].
    intros a asc Hr Ha. eapply Hall; [|done]. by eapply reaches_step.
  - by destruct fuel.
Qed.


(** [provide(value, fn)] writes [value] under the context's key into the
    current scope's own map (no scope is created, other scopes are
    untouched, an earlier value for the key is overwritten) and then calls
    [scope.run(fn)] on that same scope: [fn] is entered with the scope
    current, and when it is done the completion of that [run] takes place,
    inside whatever [run] of the scope is still going on. *)
Lemma provide_runs_current_scope {A} (ctx : nat) (v : value)
  (fn : State → outcome A * State) (st : State) (s : nat) (sc : Scope) :
  current st = Some s → heap st !! s = Some sc →
  let st0 := provided ctx v s st in
  (current st0 = Some s ∧ length (heap st0) = length (heap st) ∧
   contexts_of s st0 = <[ctx := v]> (contexts sc) ∧
   contexts_of s st0 !! ctx = Some v ∧
   (∀ u, u ≠ s → heap st0 !! u = heap st !! u)) ∧
  provide ctx v fn st = Scope_run s fn st0 ∧
  ∀ r st1 sc1, fn (with_current (Some s) st0) = (r, st1) → heap st1 !! s = Some sc1 →
    ∃ st2, provide ctx v fn st = (r, st2) ∧
      trace st2 = trace st1 ++ (MountRan <$> mounts sc1) ∧
      mounts_of s st2 = [] ∧ mounted_of s st2 = true ∧
      current st2 = Some s ∧ contexts_of s st2 = contexts sc1.
Proof.
  intros Hcur Hs st0.
  assert (Hst0 : st0 = with_heap
                         (<[s := with_contexts (<[ctx := v]> (contexts sc)) sc]> (heap st)) st).
  { unfold st0, provided. by rewrite Hs. }
  assert (Hlt : s < length (heap st)) by (by eapply lookup_lt_Some).
  split_and!.
  - by rewrite Hst0.
  - rewrite Hst0. simpl. by rewrite length_insert.
  - rewrite Hst0. unfold contexts_of. simpl. by rewrite list_lookup_insert_eq.
  - rewrite Hst0. unfold contexts_of. simpl. rewrite list_lookup_insert_eq by done.
    simpl. by rewrite lookup_insert_eq.
  - intros u Hu. rewrite Hst0. simpl. by rewrite list_lookup_insert_ne.
  - unfold provide, getScope. rewrite Hcur, Hs. by rewrite Hst0.
  - intros r st1 sc1 Hfn Hs1.
    exists (run_finally s (Some s) st1).
    destruct (run_finally_spec s (Some s) st1 sc1 Hs1) as (Ht & Hm & Hmd & Hc & Hctx & _).
    split_and!; try done.
    unfold provide, getScope. rewrite Hcur, Hs. rewrite <- Hst0.
    unfold Scope_run. rewrite Hfn. f_equal. f_equal.
    rewrite Hst0. simpl. done.
Qed.

(** C5: [createRoot(() => { onMount(cb7); Ctx.provide(1, () => {}); ... })].
    After [onMount] the root scope holds the pending callback 7.  The call
    of [provide] writes the value into the root scope and makes no scope,
    but it is not a plain call of its function: when it returns, callback 7
    has run and the root scope is marked mounted, although the scope is
    still the current one and the [run] of the root has not returned.  The
    completion of the root's [run] then has nothing left to fire, and a
    child made after [provide] finds its parent mounted and fires its own
    callbacks when it returns, before the root does. *)
Theorem provide_fires_mounts_before_run_returns :
  let after_provide := (provide 0 (VNum 1) idle pending_root).2 in
  let child := new_Scope (Some 0) after_provide in
  onMount 7 inside_root = Some pending_root ∧
  (provide 0 (VNum 1) idle pending_root).1 = Returned tt ∧
  length (heap after_provide) = length (heap pending_root) ∧
  contexts_of 0 after_provide = {[0 := VNum 1]} ∧
  current after_provide = Some 0 ∧
  trace after_provide = [MountRan 7] ∧
  mounts_of 0 after_provide = [] ∧
  mounted_of 0 after_provide = true ∧
  ¬ provide_is_plain_call 0 (VNum 1) idle 0 pending_root ∧
  trace (run_finally 0 None after_provide) = trace after_provide ∧
  trace (Scope_run child.1 (registering 8) child.2).2 = [MountRan 7; MountRan 8] ∧
  current (Scope_run child.1 (registering 8) child.2).2 = Some 0.
Proof.
  vm_compute. split_and!; try reflexivity.
  intros [H _]. discriminate H.
Qed.

(** Without the call of [provide] the callback fires when the root returns. *)
Example createRoot_fires_mounts_on_return :
  (createRoot (λ _, registering 7) (mkState [] None [])).2 =
    mkState [mkScope None ∅ [] [] true] None [MountRan 7] ∧
  trace (registering 7 inside_root).2 = [].
Proof. vm_compute. split; reflexivity. Qed.





(** [root.run(() => { child.run(() => onMount(7)) })]: when the child's
    [run] returns nothing has fired; the callback fires when the root's
    does. *)
Example nested_run_fires_at_root :
  let st := mkState [mkScope None ∅ [] [] false; mkScope (Some 0) ∅ [] [] false] None [] in
  let after_child := (Scope_run 1 (registering 7) (with_current (Some 0) st)).2 in
  let after_root := (Scope_run 0 (Scope_run 1 (registering 7)) st).2 in
  trace after_child = [] ∧ mounted_of 1 after_child = true ∧
  mounts_of 0 after_child = [7] ∧
  trace after_root = [MountRan 7] ∧ mounts_of 0 after_root = [].
Proof. vm_compute. repeat split. Qed.

(** [mounted_between] is reached inside the root's [run]: a child is made
    and run, then a scope under that child and one under the latter. *)
Example mounted_between_reached :
  let st1 := (Scope_run 1 idle (new_Scope (Some 0) inside_root).2).2 in
  (new_Scope (Some 2) (new_Scope (Some 1) st1).2).2 = mounted_between.
Proof. reflexivity. Qed.


(** On that state the callback is put into the mounts of scope 2 and fires
    when the [run] of 2 returns, the root still being unmounted. *)
Example mounted_between_fires_at_2 :
  let inner := (Scope_run 2 (Scope_run 3 (registering 9)) mounted_between).2 in
  (mounts_of 2 <$> onMount 9 (with_current (Some 3) mounted_between)) = Some [9] ∧
  trace (Scope_run 3 (registering 9) mounted_between).2 = [] ∧
  trace inner = [MountRan 9] ∧ mounted_of 0 inner = false ∧
  trace (run_finally 0 None inner) = [MountRan 9].
Proof. vm_compute. repeat split. Qed.

(** C10: when the current scope maps the context's key to [undefined],
    [use] behaves as if that scope had no entry for the key: the lookup
    goes on from the parent; and when no scope on the chain maps the key
    to a value other than [undefined], [use] returns [defaultValue]. *)
Theorem use_skips_undefined (st : State) (ctx : nat) (defaultValue : value)
  (s : nat) (sc : Scope) :
  wf (heap st) → current st = Some s → heap st !! s = Some sc →
  contexts sc !! ctx = Some VUndefined →
  is_Some (use ctx defaultValue st) ∧
  use ctx defaultValue st = use ctx defaultValue (with_current (parent sc) st) ∧
  use ctx defaultValue st =
    use ctx defaultValue
      (with_heap (<[s := with_contexts (delete ctx (contexts sc)) sc]> (heap st)) st) ∧
  ((∀ a asc, reaches (heap st) s a → heap st !! a = Some asc →
      Map_get (contexts asc) ctx = VUndefined) →
   use ctx defaultValue st = Some defaultValue).
Proof.
  intros Hwf Hcur Hs Hctx.
  assert (Hlt : s < length (heap st)) by (by eapply lookup_lt_Some).
  assert (Hstep : use ctx defaultValue st =
                  use_from (length (heap st)) (parent sc) ctx defaultValue (heap st)).
  { unfold use. rewrite Hcur.
    rewrite (use_from_step _ _ _ _ (length (heap st)) _ _ Hwf Hs) by lia.
    unfold Map_get. by rewrite Hctx. }
  split_and!.
  - unfold use. rewrite Hcur.
    apply (use_from_fuel (heap st) ctx defaultValue Hwf _ (S s)); lia.
  - done.
  - rewrite Hstep. unfold use. simpl. rewrite Hcur, length_insert.
    set (sc' := with_contexts (delete ctx (contexts sc)) sc).
    assert (Hwf' : wf (<[s := sc']> (heap st))).
    { intros a asc q Ha Hq. destruct (decide (a = s)) as [->|Hne].
      - rewrite list_lookup_insert_eq in Ha by done. simplify_eq. by eapply Hwf.
      - rewrite list_lookup_insert_ne in Ha by done. by eapply Hwf. }
    assert (Hs' : <[s := sc']> (heap st) !! s = Some sc')
      by (by rewrite list_lookup_insert_eq).
    rewrite (use_from_step _ _ _ _ (length (heap st)) _ _ Hwf' Hs') by lia.
    unfold Map_get at 1. simpl. rewrite lookup_delete_eq. simpl.
    assert (Hpar : ∀ f a, a < s →
      use_from f (Some a) ctx defaultValue (heap st) =
      use_from f (Some a) ctx defaultValue (<[s := sc']> (heap st))).
    { induction f as [|f IH]; intros a Ha; [done|]. simpl.
      rewrite list_lookup_insert_ne by lia.
      destruct (heap st !! a) as [asc|] eqn:Hasc; [|done]. simpl.
      destruct (strict_ne _ _); [done|].
      destruct (parent asc) as [q|] eqn:Hq; [|by rewrite !use_from_None].
      pose proof (Hwf _ _ _ Hasc Hq). apply IH. lia. }
    destruct (parent sc) as [p|] eqn:Hp; [|by rewrite !use_from_None].
    pose proof (Hwf _ _ _ Hs Hp) as Hps. by apply Hpar.
  - intros Hall. unfold use. rewrite Hcur.
    apply use_from_all_undefined; [done|lia|done|done].
Qed.

Lemma shadowed_by_undefined_wf : wf (heap shadowed_by_undefined).
Proof.
  intros s sc p Hs Hp. destruct s as [|[|s]]; simpl in Hs; simplify_eq; simpl in Hp;
    simplify_eq; lia.
Defined.

Lemma use_skips_undefined_witness :
  wf (heap shadowed_by_undefined) ∧
  current shadowed_by_undefined = Some 1 ∧
  heap shadowed_by_undefined !! 1 = Some (mkScope (Some 0) {[3 := VUndefined]} [] [] false) ∧
  ({[3 := VUndefined]} : gmap nat value) !! 3 = Some VUndefined ∧
  use 3 (VStr "fallback") shadowed_by_undefined = Some (VNum 5).
Proof.
  split; [exact shadowed_by_undefined_wf|]. do 3 (split; [reflexivity|]).
  destruct (use_skips_undefined shadowed_by_undefined 3 (VStr "fallback") 1 _
              shadowed_by_undefined_wf eq_refl eq_refl eq_refl) as (_ & -> & _).
  reflexivity.
Defined.

End ScopeFacts.

(** ** Signal sources *)

Module StateFacts.
Import StateTs.

(** C2: with no subscriber, a second [get()] of a computed source is served
    from the cache slot the first [get()] filled: after [setA(5)] the
    transform is called again, but with the old argument [1], and the
    dependency's [get] is not called. *)
Theorem computed_get_serves_filled_slot :
  ∃ w1 w2 v w3,
    get 1 computed_over_state = Some (VNum 2, w1) ∧
    set 0 (SetValue (VNum 5)) w1 = Some w2 ∧
    subs_of 1 w2 = [] ∧
    get 0 w2 = Some (VNum 5, emit [GetCalled 0] w2) ∧
    get 1 w2 = Some (v, w3) ∧
    v = VNum 2 ∧
    log w3 = log w2 ++ [GetCalled 1; TransformCalled 1 [VNum 1]].
Proof. do 4 eexists. vm_compute. split_and!; reflexivity. Qed.

(** The end-to-end example of the specification:
    [d = createComputed([n], x => x * 2)] with one subscriber; [setN(1)] and
    [setN(2)] each call the subscriber once, and [d.get()] is 2, then 4. *)
Example computed_with_subscriber_follows_state :
  let w := (createComputed [0] double (createState (VNum 0) empty_world).2).2 in
  ∃ u w1 w2 w3 w4 w5,
    subscribe 1 (UserCb 7) w = Some (u, w1) ∧
    set 0 (SetValue (VNum 1)) w1 = Some w2 ∧
    filter (λ e, is_call e = true) (log w2) = [Called (DepListener 1 0 0); Called (UserCb 7)] ∧
    get 1 w2 = Some (VNum 2, w3) ∧
    set 0 (SetValue (VNum 2)) w3 = Some w4 ∧
    filter (λ e, is_call e = true) (log w4) =
      [Called (DepListener 1 0 0); Called (UserCb 7);
       Called (DepListener 1 0 0); Called (UserCb 7)] ∧
    get 1 w4 = Some (VNum 4, w5).
Proof. do 6 eexists. vm_compute. split_and!; reflexivity. Qed.

(** A falsy slot is not served: the same two calls with [a = 0] read the
    dependency again. *)
Example computed_get_rereads_falsy_slot :
  let w := (createComputed [0] double (createState (VNum 0) empty_world).2).2 in
  ∃ w1 w2 w3,
    get 1 w = Some (VNum 0, w1) ∧
    set 0 (SetValue (VNum 5)) w1 = Some w2 ∧
    get 1 w2 = Some (VNum 10, w3) ∧
    log w3 = log w2 ++ [GetCalled 1; GetCalled 0; TransformCalled 1 [VNum 5]].
Proof. do 3 eexists. vm_compute. split_and!; reflexivity. Qed.

Lemma grows_refl P w : grows P w w.
Proof. exists []. by rewrite app_nil_r. Qed.

Lemma grows_trans P w1 w2 w3 : grows P w1 w2 → grows P w2 w3 → grows P w1 w3.
Proof.
  intros (e1 & H1 & F1) (e2 & H2 & F2). exists (e1 ++ e2).
  rewrite H2, H1, app_assoc. split; [done|]. by apply Forall_app.
Qed.

Lemma grows_emit P es w : Forall P es → grows P w (emit es w).
Proof. intros HF. by exists es. Qed.

Lemma grows_put P n nd w : grows P w (put n nd w).
Proof. exists []. simpl. by rewrite app_nil_r. Qed.

Lemma grows_set_cache P n ca w : grows P w (set_cache n ca w).
Proof. unfold set_cache. repeat case_match; (apply grows_refl || apply grows_put). Qed.

Lemma grows_add_sub P n s w : grows P w (add_sub n s w).
Proof. unfold add_sub. repeat case_match; (apply grows_refl || apply grows_put). Qed.

Lemma grows_delete_sub P n s w : grows P w (delete_sub n s w).
Proof. unfold delete_sub. repeat case_match; (apply grows_refl || apply grows_put). Qed.

Create HintDb grows.
#[local] Hint Resolve grows_refl grows_put grows_set_cache grows_add_sub
  grows_delete_sub : grows.

Lemma computed_args_grows P (getf : nat → World → option (value * World)) n :
  (∀ d w v w', getf d w = Some (v, w') → grows P w w') →
  ∀ ds i w args w', computed_args getf n ds i w = Some (args, w') → grows P w w'.
Proof.
  intros Hget. induction ds as [|d ds IH]; intros i w args w'; simpl.
  - intros [= <- <-]. apply grows_refl.
  - destruct (negb _).
    + destruct (getf d w) as [[v w1]|] eqn:Hg; simpl; [|done].
      destruct (computed_args _ _ _ _ _) as [[a w2]|] eqn:Hr; simpl; [|done].
      intros [= <- <-]. eapply grows_trans; [by eapply Hget|].
      eapply grows_trans; [apply grows_set_cache|by eapply IH].
    + simpl. destruct (computed_args _ _ _ _ _) as [[a w2]|] eqn:Hr; simpl; [|done].
      intros [= <- <-]. by eapply IH.
Qed.

(** Reading a source never calls a subscriber. *)
Lemma get_from_grows fuel :
  ∀ n w v w', get_from fuel n w = Some (v, w') → grows quiet w w'.
Proof.
  induction fuel as [|fuel IH]; intros n w v w'; [done|]. simpl.
  destruct (nodes w !! n) as [[s|c|c|e]|]; simpl; try done;
    try (intros [= <- <-]; apply grows_emit; by repeat constructor).
  destruct (computed_args _ _ _ _ _) as [[a w2]|] eqn:Hr; simpl; [|done].
  intros [= <- <-].
  eapply grows_trans; [apply (grows_emit _ [GetCalled n]); by repeat constructor|].
  eapply grows_trans; [by eapply computed_args_grows|].
  apply grows_emit. by repeat constructor.
Qed.

(** Each [get()] of a computed source calls the transform, whatever the
    number of subscribers: two calls of [get()] call it twice. *)
Lemma computed_get_calls_transform n c w v w' :
  nodes w !! n = Some (NComputed c) → get n w = Some (v, w') →
  ∃ args evs, log w' = log w ++ GetCalled n :: evs ++ [TransformCalled n args] ∧
              v = transform c args.
Proof.
  intros Hn. unfold get. simpl. rewrite Hn. simpl.
  destruct (computed_args _ _ _ _ _) as [[args w1]|] eqn:Hargs; simpl; [|done].
  intros [= <- <-]. exists args.
  destruct (computed_args_grows quiet _ n (get_from_grows n) _ _ _ _ _ Hargs)
    as (evs & Hevs & _).
  exists evs. simpl. rewrite Hevs. simpl. by rewrite <- !app_assoc.
Qed.


Lemma notify_nil fuel w : notify fuel [] w = Some w.
Proof. by destruct fuel. Qed.

Lemma kinds_put n nd nd0 w :
  nodes w !! n = Some nd0 → kind_of nd = kind_of nd0 → kinds (put n nd w) = kinds w.
Proof.
  intros Hn Hk. unfold kinds, put. simpl. rewrite list_fmap_insert, Hk.
  apply list_insert_id. by rewrite list_lookup_fmap, Hn.
Qed.

Lemma kinds_add_sub n s w : kinds (add_sub n s w) = kinds w.
Proof.
  unfold add_sub. destruct (nodes w !! n) as [[?|?|?|?]|] eqn:Hn; [..|done];
    by eapply kinds_put.
Qed.

Lemma nodes_add_sub_ne n m s w : m ≠ n → nodes (add_sub n s w) !! m = nodes w !! m.
Proof.
  intros Hne. unfold add_sub. destruct (nodes w !! n) as [[?|?|?|?]|]; [..|done];
    simpl; by rewrite list_lookup_insert_ne.
Qed.

Lemma wf_kinds w w' : kinds w' = kinds w → wf w → wf w'.
Proof.
  intros Hk Hwf n c Hn.
  assert (Hkn : kinds w !! n = Some (KComputed (deps c))).
  { rewrite <- Hk. unfold kinds. by rewrite list_lookup_fmap, Hn. }
  unfold kinds in Hkn. rewrite list_lookup_fmap in Hkn.
  destruct (nodes w !! n) as [[?|c0|?|?]|] eqn:Hn0; simplify_eq.
  simpl in Hkn. injection Hkn as <-. by eapply Hwf.
Qed.

Lemma kinds_length w w' : kinds w' = kinds w → length (nodes w') = length (nodes w).
Proof. unfold kinds. intros Hk. apply (f_equal length) in Hk. by rewrite !length_fmap in Hk. Qed.

(** While nobody is subscribed, the setter handed to the producer only
    stores the value. *)
Lemma external_set_no_subscriber n e a w :
  nodes w !! n = Some (NExternal e) → ex_subs e = [] →
  ∃ v, external_set n a w =
         Some (put n (NExternal (mkExternalSrc v (ex_dispose e) [] (producer e)
                                               (ex_started e))) w).
Proof.
  intros Hn Hsubs. unfold external_set. rewrite Hn. simpl. rewrite Hsubs.
  destruct (strict_ne _ _).
  - rewrite notify_nil. by eexists.
  - exists (ex_value e). f_equal. destruct w as [ns lg]. unfold put. simpl in *. f_equal.
    symmetry. apply list_insert_id. rewrite Hn. destruct e; simpl in *. by subst.
Qed.

Lemma external_pushes_no_subscriber n pushes :
  ∀ e w, nodes w !! n = Some (NExternal e) → ex_subs e = [] →
  ∃ v, external_pushes n pushes w =
         Some (put n (NExternal (mkExternalSrc v (ex_dispose e) [] (producer e)
                                               (ex_started e))) w).
Proof.
  induction pushes as [|a pushes IH]; intros e w Hn Hsubs; simpl.
  - exists (ex_value e). f_equal. destruct w as [ns lg]. unfold put. simpl in *. f_equal.
    symmetry. apply list_insert_id. rewrite Hn. destruct e; simpl in *. by subst.
  - destruct (external_set_no_subscriber n e a w Hn Hsubs) as [v ->]. simpl.
    edestruct (IH (mkExternalSrc v (ex_dispose e) [] (producer e) (ex_started e))
                 (put n (NExternal (mkExternalSrc v (ex_dispose e) [] (producer e)
                                                  (ex_started e))) w)) as [v' ->].
    + simpl. apply list_lookup_insert_eq. by eapply lookup_lt_Some.
    + done.
    + exists v'. f_equal. unfold put. simpl. by rewrite list_insert_insert_eq.
Qed.

Lemma subscribe_deps_grows P (sub_at : nat → sub → World → option (unsub * World)) c g :
  (∀ d s w u w', sub_at d s w = Some (u, w') → grows P w w') →
  ∀ ds i w us w', subscribe_deps sub_at c g ds i w = Some (us, w') → grows P w w'.
Proof.
  intros Hsub. induction ds as [|d ds IH]; intros i w us w'; simpl.
  - intros [= <- <-]. apply grows_refl.
  - destruct (sub_at d _ w) as [[u w1]|] eqn:Hd; simpl; [|done].
    destruct (subscribe_deps _ _ _ _ _ _) as [[us' w2]|] eqn:Hr; simpl; [|done].
    intros [= <- <-]. eapply grows_trans; [by eapply Hsub|by eapply IH].
Qed.

(** [subscribe] calls no subscriber callback, of any source. *)
Lemma subscribe_from_grows fuel :
  ∀ n s w u w', subscribe_from fuel n s w = Some (u, w') →
  u = Unsub n s ∧ grows quiet w w'.
Proof.
  induction fuel as [|fuel IH]; intros n s w u w'; [done|]. simpl.
  destruct (decide (length (subs_of n w) = 0)) as [Hz|Hnz].
  - destruct (activate _ n w) as [w1|] eqn:Hact; simpl; [|done].
    intros [= <- <-]. split; [done|].
    eapply grows_trans; [|apply grows_add_sub].
    unfold activate in Hact. unfold subs_of in Hz.
    destruct (nodes w !! n) as [[st|c|c|e]|] eqn:Hn; simpl in Hact; [..|done].
    + injection Hact as <-. apply grows_refl.
    + destruct (subscribe_deps _ _ _ _ _ _) as [[ds w2]|] eqn:Hds; simpl in Hact; [|done].
      destruct (nodes w2 !! n) as [[?|c1|?|?]|]; try done. injection Hact as <-.
      eapply grows_trans; [|apply grows_put].
      eapply subscribe_deps_grows; [|done]. intros d s0 wa ua wb Hsub.
      by destruct (IH _ _ _ _ _ Hsub).
    + injection Hact as <-.
      eapply grows_trans; [apply grows_put|]. apply grows_emit.
      apply Forall_fmap, Forall_true. done.
    + apply nil_length_inv in Hz.
      destruct (external_pushes_no_subscriber n (producer e (ex_started e)) e
                  (emit [ProducerCalled n (ex_started e)] w) Hn Hz) as [v Hp].
      rewrite Hp in Hact. simpl in Hact.
      rewrite list_lookup_insert_eq in Hact by (by eapply lookup_lt_Some).
      injection Hact as <-.
      eapply grows_trans; [apply (grows_emit _ [ProducerCalled n (ex_started e)]);
                           by repeat constructor|].
      eapply grows_trans; apply grows_put.
  - destruct (nodes w !! n); simpl; [|done].
    intros [= <- <-]. split; [done|apply grows_add_sub].
Qed.


Lemma subscribe_deps_total (sub_at : nat → sub → World → option (unsub * World)) c g :
  (∀ d s w, wf w → d < c → d < length (nodes w) →
     ∃ u w', sub_at d s w = Some (u, w') ∧ kinds w' = kinds w ∧
             ∀ m, d < m → nodes w' !! m = nodes w !! m) →
  ∀ ds i w, wf w → Forall (λ d, d < c) ds → c < length (nodes w) →
  ∃ us w', subscribe_deps sub_at c g ds i w = Some (us, w') ∧ kinds w' = kinds w ∧
           ∀ m, c ≤ m → nodes w' !! m = nodes w !! m.
Proof.
  intros Hsub. induction ds as [|d ds IH]; intros i w Hwf Hds Hc; simpl.
  - by exists [], w.
  - inversion Hds as [|? ? Hd Hds']; subst.
    destruct (Hsub d (DepListener c i g) w Hwf Hd ltac:(lia)) as (u & w1 & -> & Hk1 & Hf1).
    simpl.
    destruct (IH (S i) w1 (wf_kinds _ _ Hk1 Hwf) Hds'
                ltac:(by rewrite (kinds_length _ _ Hk1))) as (us & w2 & -> & Hk2 & Hf2).
    simpl. exists (u :: us), w2. split_and!; [done|congruence|].
    intros m Hm. rewrite Hf2 by done. apply Hf1. lia.
Qed.

(** On well-formed worlds [subscribe] returns, and touches no source
    created after the one subscribed to. *)
Lemma subscribe_from_total fuel :
  ∀ n s w, wf w → n < fuel → n < length (nodes w) →
  ∃ u w', subscribe_from fuel n s w = Some (u, w') ∧ kinds w' = kinds w ∧
          ∀ m, n < m → nodes w' !! m = nodes w !! m.
Proof.
  induction fuel as [|fuel IH]; intros n s w Hwf Hfuel Hlen; [lia|]. simpl.
  destruct (lookup_lt_is_Some_2 _ _ Hlen) as [nd Hn].
  assert (Hdone : ∀ w1, kinds w1 = kinds w →
            (∀ m, n < m → nodes w1 !! m = nodes w !! m) →
            ∃ u w', Some (Unsub n s, add_sub n s w1) = Some (u, w') ∧ kinds w' = kinds w ∧
                    ∀ m, n < m → nodes w' !! m = nodes w !! m).
  { intros w1 Hk Hf. eexists _, _. split_and!; [done|by rewrite kinds_add_sub|].
    intros m Hm. rewrite nodes_add_sub_ne by lia. by apply Hf. }
  destruct (decide (length (subs_of n w) = 0)) as [Hz|Hnz]; [|rewrite Hn; simpl; by apply Hdone].
  unfold activate. rewrite Hn. simpl. unfold subs_of in Hz. rewrite Hn in Hz.
  destruct nd as [st|c|c|e]; simpl.
  - by apply Hdone.
  - destruct (subscribe_deps_total (subscribe_from fuel) n (c_gen c)
                ltac:(intros; apply IH; [done|lia|done]) (deps c) 0 w Hwf
                ltac:(by eapply Hwf) Hlen) as (us & w1 & -> & Hk1 & Hf1).
    simpl. rewrite (Hf1 n) by lia. rewrite Hn. simpl. apply Hdone.
    + rewrite (kinds_put n _ (NComputed c) w1); [exact Hk1|by rewrite Hf1|done].
    + intros m Hm. simpl. rewrite list_lookup_insert_ne by lia. apply Hf1. lia.
  - apply Hdone.
    + by apply (kinds_put n _ (NConnection c) w).
    + intros m Hm. simpl. by rewrite list_lookup_insert_ne by lia.
  - apply nil_length_inv in Hz.
    destruct (external_pushes_no_subscriber n (producer e (ex_started e)) e
                (emit [ProducerCalled n (ex_started e)] w) Hn Hz) as [v ->].
    simpl. rewrite list_lookup_insert_eq by done. simpl. apply Hdone.
    + unfold kinds. simpl. rewrite list_insert_insert_eq.
      by apply (kinds_put n _ (NExternal e) w).
    + intros m Hm. simpl. by rewrite !list_lookup_insert_ne by lia.
Qed.

(** C9: on any well-formed world, [subscribe(cb)] of any source (stateful,
    computed, connection, external) returns its unsubscribe function and
    the events it adds to the log contain no call of a subscriber callback
    - not of [cb], nor of any other - even when the producer of an external
    source, started by this [subscribe], calls its setter before it
    returns. *)
Theorem subscribe_never_calls_back (w : World) (n : nat) (s : sub) :
  wf w → n < length (nodes w) →
  ∃ w' evs,
    subscribe n s w = Some (Unsub n s, w') ∧
    log w' = log w ++ evs ∧
    Forall (λ e, is_call e = false) evs ∧
    filter (λ e, is_call e = true) (log w') = filter (λ e, is_call e = true) (log w).
Proof.
  intros Hwf Hn.
  destruct (subscribe_from_total (S n) n s w Hwf ltac:(lia) Hn) as (u & w' & Hsub & _).
  destruct (subscribe_from_grows _ _ _ _ _ _ Hsub) as (-> & evs & Hlog & Hq).
  exists w', evs. split_and!; try done.
  rewrite Hlog, filter_app.
  assert (Hnil : filter (λ e, is_call e = true) evs = []).
  { clear -Hq. induction Hq as [|e evs He _ IH]; [done|].
    rewrite filter_cons. unfold quiet in He. rewrite He. by rewrite decide_False. }
  by rewrite Hnil, app_nil_r.
Qed.


Lemma computed_over_external_wf : wf computed_over_external.
Proof.
  intros n c Hn. destruct n as [|[|[|n]]]; simpl in Hn; simplify_eq.
  simpl. repeat constructor.
Defined.

Lemma subscribe_never_calls_back_witness :
  wf computed_over_external ∧ 2 < length (nodes computed_over_external) ∧
  ∃ w', subscribe 2 (UserCb 9) computed_over_external = Some (Unsub 2 (UserCb 9), w') ∧
        log w' = [ProducerCalled 1 0] ∧ subs_of 1 w' = [DepListener 2 1 0].
Proof.
  split; [exact computed_over_external_wf|]. split; [simpl; lia|].
  destruct (subscribe_never_calls_back computed_over_external 2 (UserCb 9)
              computed_over_external_wf ltac:(simpl; lia)) as (w' & evs & Hsub & _).
  exists w'. split; [exact Hsub|].
  vm_compute in Hsub. injection Hsub as <-. split; reflexivity.
Defined.

(** C3: the unsubscribe function of an external source is not idempotent:
    called a second time, it finds the subscriber set empty and calls the
    producer's disposer again. *)
Theorem external_unsubscribe_twice_disposes_twice :
  ∃ u w1 w2 w3,
    subscribe 0 (UserCb 1) idle_external = Some (u, w1) ∧
    call_unsub u w1 = Some w2 ∧
    call_unsub u w2 = Some w3 ∧
    subs_of 0 w2 = [] ∧ subs_of 0 w3 = [] ∧
    log w2 = [ProducerCalled 0 0; DisposerCalled 0 0] ∧
    log w3 = log w2 ++ [DisposerCalled 0 0].
Proof. do 4 eexists. vm_compute. split_and!; reflexivity. Qed.

Lemma set_delete_idem `{EqDecision A} (x : A) (l : list A) :
  set_delete x (set_delete x l) = set_delete x l.
Proof.
  unfold set_delete. induction l as [|y l IH]; [done|].
  rewrite (filter_cons _ y l). case_decide; [|done].
  rewrite filter_cons, decide_True by done. by rewrite IH.
Qed.

(** The sibling sources: a second call of the unsubscribe function of a
    stateful source or of a connection source changes nothing. *)
Lemma state_unsubscribe_idempotent n st s w w1 :
  nodes w !! n = Some (NState st) →
  call_unsub (Unsub n s) w = Some w1 → call_unsub (Unsub n s) w1 = Some w1.
Proof.
  intros Hn. simpl. rewrite Hn. simpl. intros [= <-].
  assert (Hlt : n < length (nodes w)) by (by eapply lookup_lt_Some).
  unfold delete_sub. rewrite Hn. simpl. rewrite list_lookup_insert_eq by done. simpl.
  unfold put. simpl. by rewrite set_delete_idem, list_insert_insert_eq.
Qed.

Lemma nodes_put_eq n nd w : n < length (nodes w) → nodes (put n nd w) !! n = Some nd.
Proof. intros Hlt. simpl. by apply list_lookup_insert_eq. Qed.

Lemma put_put n nd nd' w : put n nd (put n nd' w) = put n nd w.
Proof. unfold put. simpl. by rewrite list_insert_insert_eq. Qed.

Lemma delete_sub_connection n c s w :
  nodes w !! n = Some (NConnection c) →
  delete_sub n s w =
    put n (NConnection (mkConnectionSrc (cn_value c) (cn_dispose c)
                                        (set_delete s (cn_subs c)) (signals c))) w.
Proof. intros Hn. unfold delete_sub. by rewrite Hn. Qed.

Lemma connection_unsubscribe_idempotent n c s w w1 :
  nodes w !! n = Some (NConnection c) →
  call_unsub (Unsub n s) w = Some w1 → call_unsub (Unsub n s) w1 = Some w1.
Proof.
  intros Hn.
  assert (Hlt : n < length (nodes w)) by (by eapply lookup_lt_Some).
  assert (Hstep : ∀ c0 w0, nodes w0 !! n = Some (NConnection c0) →
    call_unsub (Unsub n s) w0 =
      let c1 := mkConnectionSrc (cn_value c0) (cn_dispose c0)
                                (set_delete s (cn_subs c0)) (signals c0) in
      if decide (length (set_delete s (cn_subs c0)) = 0)
      then Some (emit (Disconnected n <$> cn_dispose c0)
                   (put n (NConnection (mkConnectionSrc (cn_value c0) []
                             (set_delete s (cn_subs c0)) (signals c0))) w0))
      else Some (put n (NConnection c1) w0)).
  { intros c0 w0 Hn0.
    assert (Hlt0 : n < length (nodes w0)) by (by eapply lookup_lt_Some).
    simpl. rewrite Hn0. simpl. rewrite (delete_sub_connection _ _ _ _ Hn0).
    unfold subs_of. rewrite nodes_put_eq by done. simpl.
    case_decide; [|done]. unfold deactivate. rewrite nodes_put_eq by done. simpl.
    by rewrite put_put. }
  intros Hcall. rewrite (Hstep c w Hn) in Hcall. cbv zeta in Hcall.
  destruct (decide (length (set_delete s (cn_subs c)) = 0)) as [Hz|Hnz];
    injection Hcall as <-.
  - erewrite Hstep; [|simpl; by apply list_lookup_insert_eq]. cbv zeta. simpl cn_subs.
    rewrite set_delete_idem, decide_True by done.
    unfold emit, put. simpl. by rewrite list_insert_insert_eq, app_nil_r.
  - erewrite Hstep; [|simpl; by apply list_lookup_insert_eq]. cbv zeta. simpl cn_subs.
    rewrite set_delete_idem, decide_False by done. simpl. by rewrite put_put.
Qed.


(** *** The external source under a sequence of subscribe and unsubscribe
    calls *)

Lemma external_subscribe_spec n e s w :
  nodes w !! n = Some (NExternal e) →
  ∃ w', subscribe n s w = Some (Unsub n s, w') ∧
    if decide (ex_subs e = []) then
      ∃ v, w' = mkWorld (<[n := NExternal (mkExternalSrc v (Some (ex_started e)) [s]
                                             (producer e) (S (ex_started e)))]> (nodes w))
                        (log w ++ [ProducerCalled n (ex_started e)])
    else
      w' = put n (NExternal (mkExternalSrc (ex_value e) (ex_dispose e)
                               (set_add s (ex_subs e)) (producer e) (ex_started e))) w.
Proof.
  intros Hn. assert (Hlt : n < length (nodes w)) by (by eapply lookup_lt_Some).
  unfold subscribe. simpl. unfold subs_of. rewrite Hn.
  destruct (decide (ex_subs e = [])) as [Hnil|Hne].
  - rewrite Hnil. simpl. unfold activate. rewrite Hn. simpl.
    destruct (external_pushes_no_subscriber n (producer e (ex_started e)) e
                (emit [ProducerCalled n (ex_started e)] w) Hn Hnil) as [v ->].
    simpl. rewrite list_lookup_insert_eq by done. simpl.
    eexists. split; [done|]. exists v. unfold add_sub. simpl.
    rewrite list_lookup_insert_eq by (by rewrite length_insert). simpl.
    unfold put. simpl. by rewrite !list_insert_insert_eq.
  - rewrite decide_False by (by destruct (ex_subs e)). simpl.
    eexists. split; [done|]. unfold add_sub. by rewrite Hn.
Qed.

Lemma external_unsubscribe_spec n e s w :
  nodes w !! n = Some (NExternal e) →
  call_unsub (Unsub n s) w =
    let w1 := put n (NExternal (mkExternalSrc (ex_value e) (ex_dispose e)
                                  (set_delete s (ex_subs e)) (producer e) (ex_started e))) w in
    if decide (set_delete s (ex_subs e) = [])
    then k ← ex_dispose e; Some (emit [DisposerCalled n k] w1)
    else Some w1.
Proof.
  intros Hn. assert (Hlt : n < length (nodes w)) by (by eapply lookup_lt_Some).
  simpl. rewrite Hn. simpl. unfold delete_sub. rewrite Hn. unfold subs_of.
  rewrite nodes_put_eq by done. simpl.
  destruct (decide (set_delete s (ex_subs e) = [])) as [Hnil|Hne].
  - rewrite Hnil. simpl. unfold deactivate. rewrite nodes_put_eq by done. done.
  - rewrite decide_False; [done|]. by destruct (set_delete s (ex_subs e)).
Qed.

Lemma last_producer_snoc_producer n k lg :
  last_producer n (lg ++ [ProducerCalled n k]) = Some k.
Proof.
  unfold last_producer. rewrite omap_app. simpl. rewrite decide_True by done.
  by rewrite last_snoc.
Qed.

Lemma last_producer_snoc_disposer n k lg :
  last_producer n (lg ++ [DisposerCalled n k]) = last_producer n lg.
Proof. unfold last_producer. rewrite omap_app. simpl. by rewrite app_nil_r. Qed.

Section ExternalSession.
Variable n : nat.

Lemma set_add_length_pos `{EqDecision A} (x : A) (l : list A) :
  l ≠ [] → 1 < length (set_add x l) ∨ length (set_add x l) = length l.
Proof.
  intros Hl. unfold set_add. case_decide; [by right|left].
  rewrite length_app. simpl. destruct l; [done|simpl; lia].
Qed.

Lemma session_step o w1 us1 :
  session_inv n (w1, us1) →
  (∀ k, o = OpUnsubscribe k → k < length us1) →
  ∃ w2 us2, step n o (w1, us1) = Some (w2, us2) ∧ session_inv n (w2, us2) ∧
    length us2 = (match o with OpSubscribe _ => S (length us1) | _ => length us1 end) ∧
    transition_ok n o w1 w2.
Proof.
  intros (e & Hn & H0 & Hpos & Hus) Hk. simpl in *.
  assert (Hlt : n < length (nodes w1)) by (by eapply lookup_lt_Some).
  destruct o as [cb|k]; simpl.
  - destruct (external_subscribe_spec n e (UserCb cb) w1 Hn) as (w2 & -> & Hw2). simpl.
    exists w2, (us1 ++ [Unsub n (UserCb cb)]).
    split; [done|]. rewrite length_app. simpl.
    destruct (decide (ex_subs e = [])) as [Hnil|Hne].
    + destruct Hw2 as [v ->]. split_and!; [|lia|].
      * eexists. simpl. split_and!; [by apply list_lookup_insert_eq|done| |].
        -- intros _. exists (ex_started e). split_and!; [done|done|].
           apply last_producer_snoc_producer.
        -- apply Forall_app. split; [done|]. repeat constructor. by eexists.
      * unfold transition_ok, subs_of. simpl. rewrite Hn.
        rewrite list_lookup_insert_eq by done. simpl. rewrite Hnil. simpl.
        split_and!; [by eexists|lia|]. intros ? _ _. split; [done|by eexists].
    + subst w2. split_and!; [|lia|].
      * eexists. simpl. split_and!; [by apply list_lookup_insert_eq| |done|].
        -- simpl. intros Hs. destruct (H0 Hs) as [_ ?]. done.
        -- apply Forall_app. split; [done|]. repeat constructor. by eexists.
      * unfold transition_ok, subs_of. simpl. rewrite Hn.
        rewrite list_lookup_insert_eq by done. simpl.
        assert (length (ex_subs e) ≠ 0) by (by destruct (ex_subs e)).
        split_and!; [lia| |intros; lia].
        intros _ Hzero. destruct (set_add_length_pos (UserCb cb) (ex_subs e) Hne); lia.
  - specialize (Hk k eq_refl).
    destruct (lookup_lt_is_Some_2 us1 k Hk) as [u Hu]. rewrite Hu. simpl.
    assert (∃ cb, u = Unsub n (UserCb cb)) as [cb ->].
    { eapply Forall_lookup_1 in Hus; [|done]. done. }
    rewrite (external_unsubscribe_spec n e (UserCb cb) w1 Hn). cbv zeta.
    assert (Hst : 0 < ex_started e).
    { destruct (ex_started e) eqn:Hs; [|lia]. destruct (H0 eq_refl) as [-> _]. simpl in Hk. lia. }
    destruct (Hpos Hst) as (k0 & Hs & Hd & Hlast).
    destruct (decide (set_delete (UserCb cb) (ex_subs e) = [])) as [Hnil|Hne].
    + rewrite Hd. simpl. eexists _, us1. split; [done|]. split_and!; [|done|].
      * eexists. simpl. split_and!; [by apply list_lookup_insert_eq|simpl; lia| |done].
        simpl. intros _. exists k0. split_and!; [done|done|].
        by rewrite last_producer_snoc_disposer.
      * unfold transition_ok, subs_of. simpl. rewrite Hn.
        rewrite list_lookup_insert_eq by done. simpl. rewrite Hnil. simpl.
        split_and!; [lia| |done]. intros _ _. by exists k0.
    + simpl. eexists _, us1. split; [done|]. split_and!; [|done|].
      * eexists. simpl. split_and!; [by apply list_lookup_insert_eq|simpl; lia| |done].
        simpl. intros _. by exists k0.
      * unfold transition_ok, subs_of. simpl. rewrite Hn.
        rewrite list_lookup_insert_eq by done. simpl.
        assert (length (set_delete (UserCb cb) (ex_subs e)) ≠ 0)
          by (by destruct (set_delete (UserCb cb) (ex_subs e))).
        assert (length (set_delete (UserCb cb) (ex_subs e)) ≤ length (ex_subs e))
          by apply length_filter.
        split_and!; [lia|lia|done].
Qed.

Lemma session_run ops :
  ∀ w us used, session_inv n (w, us) →
  each_unsubscribe_once (length us) used ops = true →
  is_Some (run_ops n ops (w, us)) ∧
  ∀ pre o post, ops = pre ++ o :: post →
    ∃ w1 us1 w2 us2,
      run_ops n pre (w, us) = Some (w1, us1) ∧
      step n o (w1, us1) = Some (w2, us2) ∧
      transition_ok n o w1 w2.
Proof.
  induction ops as [|o ops IH]; intros w us used Hinv Hvalid.
  - split; [by eexists|]. intros pre o post Heq. by destruct pre.
  - assert (Hk : ∀ k, o = OpUnsubscribe k → k < length us).
    { intros k ->. simpl in Hvalid. apply andb_prop in Hvalid as [Hv _].
      apply andb_prop in Hv as [Hv _]. by apply bool_decide_eq_true in Hv. }
    destruct (session_step o w us Hinv Hk) as (w2 & us2 & Hstep & Hinv2 & Hlen & Htr).
    assert (Hvalid2 : ∃ used', each_unsubscribe_once (length us2) used' ops = true).
    { destruct o as [cb|k]; simpl in Hvalid; rewrite Hlen.
      - by exists used.
      - apply andb_prop in Hvalid as [_ Hv]. by exists (k :: used). }
    destruct Hvalid2 as [used' Hvalid2].
    destruct (IH w2 us2 used' Hinv2 Hvalid2) as [Hsome Hall].
    split.
    + cbn [run_ops]. rewrite Hstep. done.
    + intros pre o' post Heq. destruct pre as [|o0 pre].
      * simpl in Heq. injection Heq as <- <-. by exists w, us, w2, us2.
      * simpl in Heq. injection Heq as <- ->.
        destruct (Hall pre o' post eq_refl) as (wa & ua & wb & ub & Hrun & Hst & Ht).
        exists wa, ua, wb, ub. split_and!; [|done|done].
        cbn [run_ops]. rewrite Hstep. done.
Qed.

Lemma set_delete_nil_singleton `{EqDecision A} (x : A) (l : list A) :
  NoDup l → x ∈ l → set_delete x l = [] → l = [x].
Proof.
  intros Hnd Hx Hnil. destruct l as [|y l]; [by apply elem_of_nil in Hx|].
  unfold set_delete in Hnil. rewrite filter_cons in Hnil.
  destruct (decide (y ≠ x)) as [?|Heq]; [done|].
  assert (y = x) as -> by (by destruct (decide (y = x))).
  f_equal. destruct l as [|z l]; [done|].
  apply NoDup_cons in Hnd as [Hz _]. rewrite filter_cons in Hnil.
  destruct (decide (z ≠ x)) as [?|Hzx]; [done|].
  exfalso. apply Hz. assert (z = x) as -> by (by destruct (decide (z = x))). by left.
Qed.

Lemma handle_callbacks_lookup us k cb m :
  us !! k = Some (Unsub m (UserCb cb)) → cb ∈ handle_callbacks us.
Proof.
  intros Hk. unfold handle_callbacks. apply list_elem_of_omap.
  exists (Unsub m (UserCb cb)). split; [by eapply list_elem_of_lookup_2|done].
Qed.

Lemma handle_callbacks_distinct us k k' cb m m' :
  NoDup (handle_callbacks us) →
  us !! k = Some (Unsub m (UserCb cb)) → us !! k' = Some (Unsub m' (UserCb cb)) → k = k'.
Proof.
  revert k k'. induction us as [|u us IH]; intros k k' Hnd Hk Hk'; [done|].
  destruct k as [|k], k' as [|k']; simpl in *; simplify_eq; try done.
  - apply NoDup_cons in Hnd as [Hin _]. exfalso. apply Hin.
    by eapply handle_callbacks_lookup.
  - apply NoDup_cons in Hnd as [Hin _]. exfalso. apply Hin.
    by eapply handle_callbacks_lookup.
  - f_equal. apply IH; [|done|done].
    destruct u as [? [?|? ? ?]]; simpl in Hnd; [by apply NoDup_cons in Hnd as [_ ?]|done].
Qed.

(** With distinct callbacks, a call that is not a transition leaves the
    log as it is. *)
Lemma session_step_exact o w1 us1 used :
  session_inv n (w1, us1) → live_handles n used (w1, us1) →
  (∀ cb, o = OpSubscribe cb → cb ∉ handle_callbacks us1) →
  (∀ k, o = OpUnsubscribe k → k < length us1 ∧ k ∉ used) →
  ∃ w2 us2, step n o (w1, us1) = Some (w2, us2) ∧
    live_handles n (match o with OpUnsubscribe k => k :: used | _ => used end) (w2, us2) ∧
    (log w2 ≠ log w1 → is_transition n w1 w2).
Proof.
  intros (e & Hn & H0 & Hpos & Hus) (e' & Hn' & Hnd & Hndu & Hlive) Hfresh Hk. simpl in *.
  assert (e' = e) as -> by congruence. clear Hn'.
  assert (Hlt : n < length (nodes w1)) by (by eapply lookup_lt_Some).
  destruct o as [cb|k]; simpl.
  - specialize (Hfresh cb eq_refl).
    destruct (external_subscribe_spec n e (UserCb cb) w1 Hn) as (w2 & -> & Hw2). simpl.
    exists w2, (us1 ++ [Unsub n (UserCb cb)]). split; [done|].
    assert (Hndu2 : NoDup (handle_callbacks (us1 ++ [Unsub n (UserCb cb)]))).
    { unfold handle_callbacks. rewrite omap_app. simpl. apply NoDup_app.
      split_and!; [done| |apply NoDup_singleton].
      intros y Hy Hy'. apply list_elem_of_singleton in Hy'. by subst. }
    destruct (decide (ex_subs e = [])) as [Hnil|Hne].
    + destruct Hw2 as [v ->]. split.
      * eexists. simpl. split_and!; [by apply list_lookup_insert_eq|apply NoDup_singleton|done|].
        intros k cb' Hk' Hu. simpl. rewrite list_elem_of_singleton.
        destruct (decide (k < length us1)) as [Hlt'|Hge].
        -- rewrite lookup_app_l in Hk' by done. specialize (Hlive k cb' Hk' Hu).
           rewrite Hnil in Hlive. by apply elem_of_nil in Hlive.
        -- rewrite lookup_app_r in Hk' by lia.
           destruct (k - length us1); simpl in Hk'; [|done]. by injection Hk' as ->.
      * intros _. left. unfold subs_of. simpl. rewrite Hn.
        rewrite list_lookup_insert_eq by done. simpl. by rewrite Hnil.
    + subst w2. split; [|done].
      eexists. simpl. split_and!; [by apply list_lookup_insert_eq
                                  |by apply ScopeFacts.set_add_NoDup|done|].
      intros k cb' Hk' Hu. simpl.
      assert (Hsup : ∀ y, y ∈ ex_subs e → y ∈ set_add (UserCb cb) (ex_subs e)).
      { intros y Hy. unfold set_add. case_decide; [done|]. rewrite elem_of_app. by left. }
      destruct (decide (k < length us1)) as [Hlt'|Hge].
      * rewrite lookup_app_l in Hk' by done. apply Hsup. by eapply Hlive.
      * rewrite lookup_app_r in Hk' by lia.
        destruct (k - length us1); simpl in Hk'; [|done]. injection Hk' as ->.
        apply ScopeFacts.set_add_elem.
  - destruct (Hk k eq_refl) as [Hklt Hku].
    destruct (lookup_lt_is_Some_2 us1 k Hklt) as [u Hu]. rewrite Hu. simpl.
    assert (∃ cb, u = Unsub n (UserCb cb)) as [cb ->].
    { eapply Forall_lookup_1 in Hus; [|done]. done. }
    pose proof (Hlive k cb Hu Hku) as Hin.
    rewrite (external_unsubscribe_spec n e (UserCb cb) w1 Hn). cbv zeta.
    assert (Hst : 0 < ex_started e).
    { destruct (ex_started e) eqn:Hs; [|lia]. destruct (H0 eq_refl) as [-> _]. simpl in Hklt. lia. }
    destruct (Hpos Hst) as (k0 & Hs & Hd & Hlast).
    assert (Hlive2 : ∀ k' cb', us1 !! k' = Some (Unsub n (UserCb cb')) → k' ∉ k :: used →
                       UserCb cb' ∈ set_delete (UserCb cb) (ex_subs e)).
    { intros k' cb' Hk' Hu'. rewrite not_elem_of_cons in Hu'. destruct Hu' as [Hne Hu'].
      unfold set_delete. apply list_elem_of_filter. split; [|by eapply Hlive].
      intros [= ->]. apply Hne. by eapply handle_callbacks_distinct. }
    destruct (decide (set_delete (UserCb cb) (ex_subs e) = [])) as [Hnil|Hne].
    + rewrite Hd. simpl. eexists _, us1. split; [done|]. split.
      * eexists. simpl. split_and!; [by apply list_lookup_insert_eq| |done|done].
        simpl. rewrite Hnil. constructor.
      * intros _. right. unfold subs_of. simpl. rewrite Hn.
        rewrite list_lookup_insert_eq by done. simpl. rewrite Hnil.
        by rewrite (set_delete_nil_singleton _ _ Hnd Hin Hnil).
    + simpl. eexists _, us1. split; [done|]. split; [|done].
      eexists. simpl. split_and!; [by apply list_lookup_insert_eq| |done|done].
      simpl. by apply NoDup_filter.
Qed.

Lemma session_run_exact ops :
  ∀ w us used, session_inv n (w, us) → live_handles n used (w, us) →
  each_unsubscribe_once (length us) used ops = true →
  NoDup (handle_callbacks us ++ subscribed ops) →
  ∀ pre o post, ops = pre ++ o :: post →
    ∃ w1 us1 w2 us2,
      run_ops n pre (w, us) = Some (w1, us1) ∧
      step n o (w1, us1) = Some (w2, us2) ∧
      (log w2 ≠ log w1 → is_transition n w1 w2).
Proof.
  induction ops as [|o ops IH]; intros w us used Hinv Hlive Hvalid Hnd pre o' post Heq.
  - by destruct pre.
  - assert (Hk : ∀ k, o = OpUnsubscribe k → k < length us ∧ k ∉ used).
    { intros k ->. simpl in Hvalid. apply andb_prop in Hvalid as [Hv _].
      apply andb_prop in Hv as [Hv1 Hv2].
      apply bool_decide_eq_true in Hv1. by apply bool_decide_eq_true in Hv2. }
    assert (Hfresh : ∀ cb, o = OpSubscribe cb → cb ∉ handle_callbacks us).
    { intros cb -> Hin. simpl in Hnd. apply NoDup_app in Hnd as (_ & Hdis & _).
      apply (Hdis cb Hin). by left. }
    destruct (session_step_exact o w us used Hinv Hlive Hfresh Hk)
      as (w2 & us2 & Hstep & Hlive2 & Htr).
    destruct (session_step o w us Hinv ltac:(intros k Hko; by destruct (Hk k Hko)))
      as (w2' & us2' & Hstep' & Hinv2 & Hlen & _).
    rewrite Hstep in Hstep'. injection Hstep' as <- <-.
    destruct pre as [|o0 pre].
    + simpl in Heq. injection Heq as <- <-. by exists w, us, w2, us2.
    + simpl in Heq. injection Heq as <- ->.
      edestruct (IH w2 us2 _ Hinv2 Hlive2) as (wa & ua & wb & ub & Hrun & Hst & Ht);
        [| |reflexivity|].
      * destruct o as [cb|k]; simpl in Hvalid; rewrite Hlen; [done|].
        by apply andb_prop in Hvalid as [_ ?].
      * destruct o as [cb|k]; simpl in Hnd, Hstep.
        -- destruct (subscribe n (UserCb cb) w) as [[u wx]|] eqn:Hsub; simpl in Hstep; [|done].
           injection Hstep as <- <-.
           destruct Hinv as (e & Hn & _).
           destruct (external_subscribe_spec n e (UserCb cb) w Hn) as (wy & Hsub' & _).
           rewrite Hsub in Hsub'. injection Hsub' as -> _.
           unfold handle_callbacks. rewrite omap_app. simpl.
           fold (handle_callbacks us). rewrite <- app_assoc. exact Hnd.
        -- destruct (us !! k) as [u|]; simpl in Hstep; [|done].
           destruct (call_unsub u w); simpl in Hstep; [|done].
           injection Hstep as _ <-. exact Hnd.
      * exists wa, ua, wb, ub. split_and!; [|done|done].
        cbn [run_ops]. rewrite Hstep. done.
Qed.

End ExternalSession.

(** On the transitions: take a fresh external source and any sequence of
    subscribe and unsubscribe calls in which every unsubscribe function is
    called at most once.  The whole sequence runs, and at each call: if the
    subscriber count goes from 0 to 1 the call adds exactly one event, a
    call of the producer; if it goes from 1 to 0 the call adds exactly one
    event, a call of the disposer returned by the latest producer call; and
    a subscribe made at count 0 - the first one, or one after a full drain
    - brings the count to 1 and calls the producer.  What a call does that
    is not such a transition is not bounded here. *)
Lemma external_producer_disposer_once_per_transition
  (init : value) (p : nat → list setter_arg) (w0 : World) (ops : list op) :
  each_unsubscribe_once 0 [] ops = true →
  let n := (createExternal init p w0).1 in
  let w := (createExternal init p w0).2 in
  is_Some (run_ops n ops (w, [])) ∧
  ∀ pre o post, ops = pre ++ o :: post →
    ∃ w1 us1 w2 us2,
      run_ops n pre (w, []) = Some (w1, us1) ∧
      step n o (w1, us1) = Some (w2, us2) ∧
      (length (subs_of n w1) = 0 → length (subs_of n w2) = 1 →
         ∃ k, log w2 = log w1 ++ [ProducerCalled n k]) ∧
      (length (subs_of n w1) = 1 → length (subs_of n w2) = 0 →
         ∃ k, last_producer n (log w1) = Some k ∧
              log w2 = log w1 ++ [DisposerCalled n k]) ∧
      (∀ cb, o = OpSubscribe cb → length (subs_of n w1) = 0 →
         length (subs_of n w2) = 1 ∧ ∃ k, log w2 = log w1 ++ [ProducerCalled n k]).
Proof.
  intros Hvalid n w.
  apply (session_run n ops w [] []); [|done].
  exists (mkExternalSrc init None [] p 0). subst n w. simpl.
  split_and!; [|done|lia|done].
  rewrite lookup_app_r by done. by rewrite Nat.sub_diag.
Qed.

(** With pairwise distinct callbacks the producer and the disposer are
    called at no other time: a call that is not a 0-to-1 or 1-to-0
    transition adds nothing to the log. *)
Lemma external_calls_only_on_transitions
  (init : value) (p : nat → list setter_arg) (w0 : World) (ops : list op) :
  each_unsubscribe_once 0 [] ops = true → NoDup (subscribed ops) →
  let n := (createExternal init p w0).1 in
  let w := (createExternal init p w0).2 in
  ∀ pre o post, ops = pre ++ o :: post →
    ∃ w1 us1 w2 us2,
      run_ops n pre (w, []) = Some (w1, us1) ∧
      step n o (w1, us1) = Some (w2, us2) ∧
      (log w2 ≠ log w1 → is_transition n w1 w2).
Proof.
  intros Hvalid Hnd n w.
  assert (Hn : nodes w !! n = Some (NExternal (mkExternalSrc init None [] p 0))).
  { subst n w. simpl. rewrite lookup_app_r by done. by rewrite Nat.sub_diag. }
  apply (session_run_exact n ops w [] []); [| |done|done].
  - eexists. split_and!; [exact Hn|done|simpl; lia|done].
  - eexists. split_and!; [exact Hn|constructor|constructor|done].
Qed.

(** C6: one callback function is subscribed twice, and each of the two
    unsubscribe functions is called once.  The set holds the callback
    once, so the first unsubscribe call is the 1-to-0 transition and calls
    the disposer; the second deletes nothing, finds the set empty and
    calls the same disposer again, with the count at 0 before and after:
    for one call of the producer and one 1-to-0 transition the disposer
    runs twice. *)
Theorem shared_callback_disposes_twice :
  let ops := [OpSubscribe 1; OpSubscribe 1; OpUnsubscribe 0; OpUnsubscribe 1] in
  each_unsubscribe_once 0 [] ops = true ∧
  ∃ w2 us w3 w4,
    run_ops 0 [OpSubscribe 1; OpSubscribe 1] (idle_external, []) = Some (w2, us) ∧
    step 0 (OpUnsubscribe 0) (w2, us) = Some (w3, us) ∧
    step 0 (OpUnsubscribe 1) (w3, us) = Some (w4, us) ∧
    run_ops 0 ops (idle_external, []) = Some (w4, us) ∧
    length (subs_of 0 w2) = 1 ∧ log w2 = [ProducerCalled 0 0] ∧
    length (subs_of 0 w3) = 0 ∧ log w3 = [ProducerCalled 0 0; DisposerCalled 0 0] ∧
    length (subs_of 0 w4) = 0 ∧ log w4 = log w3 ++ [DisposerCalled 0 0] ∧
    ¬ is_transition 0 w3 w4.
Proof.
  split; [reflexivity|]. do 4 eexists. vm_compute.
  split_and!; try reflexivity.
  intros [[_ H]|[H _]]; discriminate H.
Qed.

Lemma external_producer_disposer_once_per_transition_witness :
  let ops := [OpSubscribe 1; OpSubscribe 2; OpUnsubscribe 0; OpUnsubscribe 1; OpSubscribe 3] in
  each_unsubscribe_once 0 [] ops = true ∧
  ∃ w us, run_ops 0 ops (idle_external, []) = Some (w, us) ∧
          log w = [ProducerCalled 0 0; DisposerCalled 0 0; ProducerCalled 0 1].
Proof.
  intros ops. split; [reflexivity|].
  destruct (external_producer_disposer_once_per_transition (VNum 0) (λ _, []) empty_world
              ops eq_refl) as [[[w us] Hrun] _].
  exists w, us. split; [exact Hrun|].
  vm_compute in Hrun. injection Hrun as <- _. reflexivity.
Defined.

End StateFacts.

(** ** The collection reconciler *)

Module ForFacts.
Import ForTs.

Lemma elem_of_foldl_set_add `{EqDecision A} (l acc : list A) (x : A) :
  x ∈ foldl (λ acc x, set_add x acc) acc l ↔ x ∈ acc ∨ x ∈ l.
Proof.
  revert acc. induction l as [|y l IH]; intros acc; simpl.
  - split; [by left|]. intros [?|Hx]; [done|]. by apply elem_of_nil in Hx.
  - rewrite IH, elem_of_cons. unfold set_add. case_decide as Hy.
    + split; [intros [?|?]; auto|]. intros [?|[->|?]]; auto.
    + rewrite elem_of_app, list_elem_of_singleton.
      split; [intros [[?|?]|?]; auto|]. intros [?|[->|?]]; auto.
Qed.

Lemma elem_of_Set_of `{EqDecision A} (l : list A) (x : A) : x ∈ Set_of l ↔ x ∈ l.
Proof.
  unfold Set_of. rewrite elem_of_foldl_set_add.
  split; [|by right]. intros [Hx|?]; [|done]. by apply elem_of_nil in Hx.
Qed.

Lemma Set_of_snoc `{EqDecision A} (l : list A) (x : A) :
  Set_of (l ++ [x]) = set_add x (Set_of l).
Proof. unfold Set_of. by rewrite foldl_app. Qed.

Lemma NoDup_Set_of `{EqDecision A} (l : list A) : NoDup (Set_of l).
Proof.
  induction l as [|x l IH] using rev_ind; [constructor|].
  rewrite Set_of_snoc. by apply ScopeFacts.set_add_NoDup.
Qed.

Section For.
Context {Item Key El : Type} `{EqDecision Key} `{EqDecision El}.
Variable id : Item → Key.
Variable instanceof_Fragment : El → bool.
Variable mkChild : Item → nat → ScopeTs.State → outcome El * ScopeTs.State.
Variable cleanup : cleanup_prop.
Variable currentScope : nat.

Local Abbreviation place_item := (ForTs.place_item id instanceof_Fragment mkChild currentScope).
Local Abbreviation place_items := (ForTs.place_items id instanceof_Fragment mkChild currentScope).
Local Abbreviation callback := (ForTs.callback id instanceof_Fragment mkChild cleanup currentScope).
Local Abbreviation pass_events :=
  (ForTs.pass_events id instanceof_Fragment mkChild cleanup currentScope).
Local Abbreviation render_new := (ForTs.render_new mkChild currentScope).
Local Abbreviation new_entries := (ForTs.new_entries id mkChild currentScope).
Local Abbreviation scopes_after := (ForTs.scopes_after mkChild currentScope).
Local Abbreviation nesting := "nesting Fragments are not yet supported"%string.

Implicit Types (st : @ForState Item Key El) (m entries : list (Key * @MapItem Item El))
  (v e : @MapItem Item El) (k : Key) (c : El) (x : Item).

(** *** The tracking map *)

Lemma NoDup_fst_functional m k v v' :
  NoDup m.*1 → (k, v) ∈ m → (k, v') ∈ m → v = v'.
Proof.
  induction m as [|[k0 v0] m IH]; simpl; intros Hnd Hv Hv'.
  - by apply elem_of_nil in Hv.
  - apply NoDup_cons in Hnd as [Hk0 Hnd].
    apply elem_of_cons in Hv as [Hv|Hv]; apply elem_of_cons in Hv' as [Hv'|Hv'];
      simplify_eq; try done; try (by apply IH).
    + exfalso. apply Hk0. apply list_elem_of_fmap. by exists (k0, v').
    + exfalso. apply Hk0. apply list_elem_of_fmap. by exists (k0, v).
Qed.

Lemma map_get_Some m k v : map_get k m = Some v → (k, v) ∈ m.
Proof.
  unfold map_get. destruct (list_find _ m) as [[i [k' v']]|] eqn:Hf; simpl; [|done].
  intros [= <-]. apply list_find_Some in Hf as (Hi & Hk & _). simpl in Hk. subst.
  by eapply list_elem_of_lookup_2.
Qed.

Lemma map_get_None m k : map_get k m = None ↔ k ∉ m.*1.
Proof.
  unfold map_get. destruct (list_find _ m) as [[i [k' v']]|] eqn:Hf; simpl.
  - split; [done|]. intros Hk. exfalso. apply Hk.
    apply list_find_Some in Hf as (Hi & Hk' & _). simpl in Hk'. subst.
    apply list_elem_of_fmap. exists (k, v'). split; [done|by eapply list_elem_of_lookup_2].
  - split; [|done]. intros _ Hk. apply list_elem_of_fmap in Hk as ([k' v'] & -> & Hin).
    eapply list_find_None in Hf. rewrite Forall_forall in Hf. by apply (Hf _ Hin).
Qed.

Lemma map_get_is_Some m k : k ∈ m.*1 → is_Some (map_get k m).
Proof.
  intros Hk. destruct (map_get k m) eqn:Hg; [by eexists|].
  by apply map_get_None in Hg.
Qed.

Lemma map_get_NoDup m k v : NoDup m.*1 → (k, v) ∈ m → map_get k m = Some v.
Proof.
  intros Hnd Hin. destruct (map_get k m) as [v'|] eqn:Hg.
  - apply map_get_Some in Hg. f_equal. by eapply NoDup_fst_functional.
  - apply map_get_None in Hg. exfalso. apply Hg.
    apply list_elem_of_fmap. by exists (k, v).
Qed.

Lemma map_get_app_l m m' k v : map_get k m = Some v → map_get k (m ++ m') = Some v.
Proof.
  unfold map_get. destruct (list_find _ m) as [[i kv]|] eqn:Hf; simpl; [|done].
  intros [= <-]. by rewrite (list_find_app_l _ _ _ _ _ Hf).
Qed.

Lemma map_has_false m k : map_get k m = None → map_has k m = false.
Proof. intros Hg. apply map_get_None in Hg. unfold map_has. by apply bool_decide_eq_false. Qed.

(** *** One item of the second loop *)

Lemma hasChild_elem c (f : list El) : FragmentTs.hasChild c f = true ↔ c ∈ f.
Proof.
  unfold FragmentTs.hasChild, FragmentTs.findIndex.
  destruct (list_find _ f) as [[i c']|] eqn:Hf; simpl.
  - split; [|done]. intros _. apply list_find_Some in Hf as (Hi & -> & _).
    by eapply list_elem_of_lookup_2.
  - split; [done|]. intros Hc. eapply list_find_None in Hf.
    rewrite Forall_forall in Hf. by destruct (Hf _ Hc).
Qed.

(** *** One item of the second loop *)

Lemma addChild_end c (f : list El) :
  FragmentTs.addChild instanceof_Fragment c (-1) f =
    if instanceof_Fragment c then Threw nesting else Returned (f ++ [c]).
Proof. unfold FragmentTs.addChild. by destruct (instanceof_Fragment c). Qed.

(** The render call of a new entry: the render function is called on
    [entry_state], and the completion of [run] follows. *)
Lemma render_new_eq x sig (sst : ScopeTs.State) :
  render_new x sig sst =
    (match (mkChild x sig (entry_state currentScope sst)).1 with
     | Returned c => Returned (c, Some (length (ScopeTs.heap sst)))
     | Threw msg => Threw msg
     end,
     length (ScopeTs.heap sst),
     ScopeTs.run_finally (length (ScopeTs.heap sst)) (ScopeTs.current sst)
       (mkChild x sig (entry_state currentScope sst)).2).
Proof.
  unfold ForTs.render_new, ScopeTs.new_Scope, ScopeTs.Scope_run, entry_state, child_scope.
  simpl. by destruct (mkChild x sig _) as [[c|msg] x'].
Qed.

Lemma run_finally_current s prev (sst : ScopeTs.State) :
  ScopeTs.current (ScopeTs.run_finally s prev sst) = prev.
Proof. unfold ScopeTs.run_finally. by destruct (ScopeTs.heap sst !! s). Qed.

Lemma run_finally_length s prev (sst : ScopeTs.State) :
  length (ScopeTs.heap (ScopeTs.run_finally s prev sst)) = length (ScopeTs.heap sst).
Proof.
  unfold ScopeTs.run_finally. destruct (ScopeTs.heap sst !! s); [|done].
  simpl. by rewrite length_insert.
Qed.

Lemma render_new_current x sig (sst : ScopeTs.State) :
  ScopeTs.current (render_new x sig sst).2 = ScopeTs.current sst.
Proof. rewrite render_new_eq. simpl. apply run_finally_current. Qed.

Lemma render_new_length x sig (sst : ScopeTs.State) :
  keeps_scopes mkChild →
  length (ScopeTs.heap sst) < length (ScopeTs.heap (render_new x sig sst).2).
Proof.
  intros Hk. rewrite render_new_eq. simpl. rewrite run_finally_length.
  specialize (Hk x sig (entry_state currentScope sst)). unfold entry_state in Hk at 1.
  simpl in Hk. rewrite length_app in Hk. simpl in Hk. lia.
Qed.

(** A key the map holds: the index signal is set; then the output is
    appended, unless the fragment has it - a warning - or it is a
    fragment - an error. *)
Lemma place_item_tracked x i st v :
  map_get (id x) (map st) = Some v →
  place_item x i st =
    if decide (child v ∈ fragment st)
    then (Returned tt,
          mkForState (map st) (fragment st) (<[index v := i]> (indices st)) (scopes st)
                     (log st ++ [IndexSet (index v) i; Warned (id x)]))
    else if instanceof_Fragment (child v)
    then (Threw nesting,
          mkForState (map st) (fragment st) (<[index v := i]> (indices st)) (scopes st)
                     (log st ++ [IndexSet (index v) i]))
    else (Returned tt,
          mkForState (map st) (fragment st ++ [child v]) (<[index v := i]> (indices st))
                     (scopes st) (log st ++ [IndexSet (index v) i; ChildAdded (child v)])).
Proof.
  intros Hg. unfold ForTs.place_item. rewrite Hg. simpl.
  destruct (FragmentTs.hasChild (child v) (fragment st)) eqn:Hh.
  - apply hasChild_elem in Hh. rewrite decide_True by done.
    unfold emit. simpl. by rewrite <- app_assoc.
  - assert (child v ∉ fragment st) by (rewrite <- hasChild_elem; congruence).
    rewrite decide_False by done.
    unfold fragment_addChild. simpl. rewrite addChild_end.
    destruct (instanceof_Fragment (child v)); [done|]. simpl. by rewrite <- app_assoc.
Qed.

(** A key the map does not hold: an index signal, a scope under
    [currentScope], one call of [mkChild] inside that scope; if it returns,
    a new entry at the end of the map, and the output at the end of the
    fragment unless it is a fragment - an error. *)
Lemma place_item_new x i st :
  map_get (id x) (map st) = None →
  let sig := length (indices st) in
  let s := length (ScopeTs.heap (scopes st)) in
  let sst' := (render_new x sig (scopes st)).2 in
  place_item x i st =
    match (mkChild x sig (entry_state currentScope (scopes st))).1 with
    | Returned c =>
      if instanceof_Fragment c
      then (Threw nesting,
            mkForState (map st ++ [(id x, mkMapItem x c sig s)]) (fragment st)
                       (indices st ++ [i]) sst'
                       (log st ++ [ScopeCreated s currentScope; Rendered x sig (Some s)]))
      else (Returned tt,
            mkForState (map st ++ [(id x, mkMapItem x c sig s)]) (fragment st ++ [c])
                       (indices st ++ [i]) sst'
                       (log st ++ [ScopeCreated s currentScope; Rendered x sig (Some s);
                                   ChildAdded c]))
    | Threw msg =>
      (Threw msg,
       mkForState (map st) (fragment st) (indices st ++ [i]) sst'
                  (log st ++ [ScopeCreated s currentScope]))
    end.
Proof.
  intros Hg sig s sst'. unfold ForTs.place_item. rewrite Hg. fold sig.
  unfold sst'. rewrite render_new_eq. fold s. simpl.
  destruct (mkChild x sig (entry_state currentScope (scopes st))) as [[c|msg] x'];
    simpl; [|done].
  unfold fragment_addChild. simpl. rewrite addChild_end.
  unfold map_set. rewrite (map_has_false _ _ Hg).
  destruct (instanceof_Fragment c); [done|]. simpl. by rewrite <- app_assoc.
Qed.

(** What a call that returns has done. *)
Lemma place_item_Returned x i st st1 :
  place_item x i st = (Returned tt, st1) →
  (∃ v, map_get (id x) (map st) = Some v ∧
     (child v ∈ fragment st ∨ instanceof_Fragment (child v) = false) ∧
     st1 = mkForState (map st)
             (if decide (child v ∈ fragment st) then fragment st else fragment st ++ [child v])
             (<[index v := i]> (indices st)) (scopes st)
             (log st ++ [IndexSet (index v) i;
                         if decide (child v ∈ fragment st) then Warned (id x)
                         else ChildAdded (child v)])) ∨
  (map_get (id x) (map st) = None ∧
   ∃ c, (mkChild x (length (indices st)) (entry_state currentScope (scopes st))).1 =
          Returned c ∧
     instanceof_Fragment c = false ∧
     st1 = mkForState
             (map st ++ [(id x, mkMapItem x c (length (indices st))
                                  (length (ScopeTs.heap (scopes st))))])
             (fragment st ++ [c]) (indices st ++ [i])
             (render_new x (length (indices st)) (scopes st)).2
             (log st ++ [ScopeCreated (length (ScopeTs.heap (scopes st))) currentScope;
                         Rendered x (length (indices st))
                                  (Some (length (ScopeTs.heap (scopes st))));
                         ChildAdded c])).
Proof.
  destruct (map_get (id x) (map st)) as [v|] eqn:Hg.
  - rewrite (place_item_tracked _ _ _ _ Hg). intros Heq. left. exists v. split; [done|].
    destruct (decide (child v ∈ fragment st)) as [Hin|Hnin].
    + injection Heq as <-. split; [by left|done].
    + destruct (instanceof_Fragment (child v)); [done|]. injection Heq as <-.
      split; [by right|done].
  - rewrite (place_item_new _ _ _ Hg). cbv zeta. intros Heq. right. split; [done|].
    destruct (mkChild x _ _).1 as [c|msg]; [|done]. exists c.
    destruct (instanceof_Fragment c); [done|]. injection Heq as <-. done.
Qed.

Lemma place_items_cons x items i st r st' :
  place_items (x :: items) i st = (r, st') →
  (∃ st1, place_item x i st = (Returned tt, st1) ∧ place_items items (S i) st1 = (r, st')) ∨
  (∃ msg, place_item x i st = (Threw msg, st') ∧ r = Threw msg).
Proof.
  cbn [ForTs.place_items]. destruct (place_item x i st) as [[[]|msg] st1].
  - intros Heq. left. by exists st1.
  - intros [= <- <-]. right. by exists msg.
Qed.

Lemma place_items_Returned_cons x items i st st' :
  place_items (x :: items) i st = (Returned tt, st') →
  ∃ st1, place_item x i st = (Returned tt, st1) ∧
         place_items items (S i) st1 = (Returned tt, st').
Proof.
  intros [?|(msg & _ & ?)]%place_items_cons; [done|done].
Qed.

(** *** The second loop *)

Lemma place_items_app (a b : list Item) i st :
  place_items (a ++ b) i st =
    match place_items a i st with
    | (Returned _, st1) => place_items b (i + length a) st1
    | (Threw msg, st1) => (Threw msg, st1)
    end.
Proof.
  revert i st. induction a as [|x a IH]; intros i st; cbn [app ForTs.place_items length].
  - by rewrite Nat.add_0_r.
  - destruct (place_item x i st) as [[[]|msg] st1]; [|done].
    rewrite IH. by replace (S i + length a) with (i + S (length a)) by lia.
Qed.

Lemma new_entries_cons_Returned x sig (sst : ScopeTs.State) l c :
  (mkChild x sig (entry_state currentScope sst)).1 = Returned c →
  new_entries sig sst (x :: l) =
    (id x, mkMapItem x c sig (length (ScopeTs.heap sst))) ::
    new_entries (S sig) (render_new x sig sst).2 l.
Proof.
  intros Hc. cbn [ForTs.new_entries]. rewrite (render_new_eq x sig sst), Hc. done.
Qed.

(** When the loop returns, the map has grown by the entries of the new
    keys in input order, the index signals by one per new entry, and the
    scope state is the one the render calls of the new entries lead to. *)
Lemma place_items_map items :
  ∀ i st st', place_items items i st = (Returned tt, st') →
  let new := new_items id (map st).*1 items in
  map st' = map st ++ new_entries (length (indices st)) (scopes st) new ∧
  (new_entries (length (indices st)) (scopes st) new).*1 = id <$> new ∧
  length (indices st') = length (indices st) + length new ∧
  scopes st' = scopes_after (length (indices st)) (scopes st) new.
Proof.
  induction items as [|x items IH]; intros i st st' Hrun; cbn [new_items].
  - injection Hrun as <-. simpl. by rewrite app_nil_r, Nat.add_0_r.
  - apply place_items_Returned_cons in Hrun as (st1 & Hstep & Hrun).
    specialize (IH _ _ _ Hrun). cbv zeta in IH.
    apply place_item_Returned in Hstep as [(v & Hg & _ & ->)|(Hg & c & Hc & _ & ->)].
    + assert (Hin : id x ∈ (map st).*1).
      { apply map_get_Some in Hg. apply list_elem_of_fmap. by exists (id x, v). }
      rewrite decide_True by done. simpl in IH. by rewrite length_insert in IH.
    + assert (Hnin : id x ∉ (map st).*1) by (by apply map_get_None).
      rewrite decide_False by done. simpl in IH.
      rewrite fmap_app, !length_app in IH. simpl in IH. rewrite !Nat.add_1_r in IH.
      destruct IH as (IH1 & IH2 & IH3 & IH4).
      rewrite (new_entries_cons_Returned _ _ _ _ _ Hc). cbn [ForTs.scopes_after].
      split_and!.
      * by rewrite IH1, <- app_assoc.
      * rewrite !fmap_cons, IH2. done.
      * simpl. lia.
      * done.
Qed.

Lemma new_items_keys items :
  ∀ seen k, k ∈ id <$> new_items id seen items ↔ k ∈ id <$> items ∧ k ∉ seen.
Proof.
  induction items as [|x items IH]; intros seen k; simpl.
  - split; [intros Hk; by apply elem_of_nil in Hk|intros [Hk _]; by apply elem_of_nil in Hk].
  - case_decide as Hx.
    + rewrite IH, elem_of_cons. split; [intros [? ?]; auto|].
      intros [[->|?] ?]; [done|auto].
    + rewrite fmap_cons, !elem_of_cons, IH, elem_of_app, list_elem_of_singleton.
      split.
      * intros [->|[? Hn]]; [auto|]. split; [auto|]. intros ?. apply Hn. auto.
      * intros [[->|?] Hn]; [auto|]. destruct (decide (k = id x)) as [->|?]; [auto|].
        right. split; [done|]. intros [?|?]; done.
Qed.

Lemma new_items_NoDup items :
  ∀ seen, NoDup seen → NoDup (seen ++ (id <$> new_items id seen items)).
Proof.
  induction items as [|x items IH]; intros seen Hnd; simpl.
  - by rewrite app_nil_r.
  - case_decide as Hx; [by apply IH|].
    rewrite fmap_cons, cons_middle, app_assoc. apply IH.
    apply NoDup_app. split_and!; [done| |apply NoDup_singleton].
    intros y Hy Hy'. apply list_elem_of_singleton in Hy'. by subst.
Qed.

(** The first item that carries a key not seen before is among the new
    items, and all of them are such. *)
Lemma new_items_first items :
  ∀ seen i x, items !! i = Some x → id x ∉ seen →
  (∀ j y, j < i → items !! j = Some y → id y ≠ id x) →
  x ∈ new_items id seen items.
Proof.
  induction items as [|x0 items IH]; intros seen i x Hi Hseen Hfirst; [done|].
  simpl. destruct i as [|i]; simpl in Hi.
  - injection Hi as ->. rewrite decide_False by done. by left.
  - assert (Hne : id x0 ≠ id x) by (apply (Hfirst 0 x0); [lia|done]).
    assert (Hrest : ∀ j y, j < i → items !! j = Some y → id y ≠ id x).
    { intros j y Hj Hy. apply (Hfirst (S j) y); [lia|done]. }
    case_decide.
    + by eapply IH.
    + right. eapply IH; [done| |done].
      rewrite elem_of_app, list_elem_of_singleton. intros [?|?]; [done|]. by apply Hne.
Qed.

(** Every entry made is the entry of one of the items: it carries the
    item, an index signal past [sig], and the scope and the output of a
    render call that returned. *)
Lemma new_entries_elem l :
  ∀ sig (sst : ScopeTs.State) k e, (k, e) ∈ new_entries sig sst l →
  k = id (item e) ∧ item e ∈ l ∧ sig ≤ index e ∧
  ∃ sst0 : ScopeTs.State,
    scope e = length (ScopeTs.heap sst0) ∧
    (mkChild (item e) (index e) (entry_state currentScope sst0)).1 = Returned (child e) ∧
    (keeps_scopes mkChild → length (ScopeTs.heap sst) ≤ length (ScopeTs.heap sst0)).
Proof.
  induction l as [|x l IH]; intros sig sst k e Hin; cbn [ForTs.new_entries] in Hin.
  - by apply elem_of_nil in Hin.
  - rewrite (render_new_eq x sig sst) in Hin.
    destruct (mkChild x sig (entry_state currentScope sst)).1 as [c|msg] eqn:Hc;
      [|by apply elem_of_nil in Hin].
    apply elem_of_cons in Hin as [[= -> ->]|Hin].
    + simpl. split_and!; [done|by left|done|]. exists sst. by split_and!.
    + destruct (IH _ _ _ _ Hin) as (Hk & Hit & Hsig & sst0 & Hs & Hr & Hlen).
      split_and!; [done|by right|lia|]. exists sst0. split_and!; [done|done|].
      intros Hkeep. specialize (Hlen Hkeep).
      pose proof (render_new_length x sig sst Hkeep) as Hlt.
      rewrite (render_new_eq x sig sst) in Hlt. simpl in Hlt. simpl in Hlen. lia.
Qed.

Lemma filter_key_none m k : k ∉ m.*1 → filter (λ kv, kv.1 = k) m = [].
Proof.
  induction m as [|[k0 v0] m IH]; simpl; intros Hk; [done|].
  rewrite not_elem_of_cons in Hk. destruct Hk as [Hne Hk].
  rewrite filter_cons. simpl. rewrite decide_False by done. by apply IH.
Qed.

Lemma filter_key_unique m k v :
  NoDup m.*1 → (k, v) ∈ m → filter (λ kv, kv.1 = k) m = [(k, v)].
Proof.
  induction m as [|[k0 v0] m IH]; simpl; intros Hnd Hin.
  - by apply elem_of_nil in Hin.
  - apply NoDup_cons in Hnd as [Hk0 Hnd]. rewrite filter_cons. simpl.
    apply elem_of_cons in Hin as [Hin|Hin].
    + injection Hin as <- <-. rewrite decide_True by done. f_equal.
      by apply filter_key_none.
    + rewrite decide_False; [by apply IH|].
      intros ->. apply Hk0. apply list_elem_of_fmap. by exists (k, v).
Qed.

(** What the second loop adds to the trace when it returns: no disposal,
    no teardown, and for each key the render calls are those of its new
    entry, if any. *)
Lemma place_items_log items :
  ∀ i st st', place_items items i st = (Returned tt, st') →
  let new := new_entries (length (indices st)) (scopes st)
               (new_items id (map st).*1 items) in
  ∃ evs, log st' = log st ++ evs ∧
    disposals evs = [] ∧ (∀ c, teardowns c evs = []) ∧
    (∀ k, renders id k evs =
            (λ kv, (item kv.2, index kv.2, Some (scope kv.2))) <$>
              filter (λ kv, kv.1 = k) new).
Proof.
  induction items as [|x items IH]; intros i st st' Hrun; cbn [new_items].
  - injection Hrun as <-. exists []. by rewrite app_nil_r.
  - apply place_items_Returned_cons in Hrun as (st1 & Hstep & Hrun).
    destruct (IH _ _ _ Hrun) as (evs & Hlog & Hd & Ht & Hr).
    apply place_item_Returned in Hstep as [(v & Hg & _ & ->)|(Hg & c & Hc & _ & ->)].
    + assert (Hin : id x ∈ (map st).*1).
      { apply map_get_Some in Hg. apply list_elem_of_fmap. by exists (id x, v). }
      rewrite decide_True by done. simpl in Hlog, Hr.
      rewrite length_insert in Hr. rewrite <- app_assoc in Hlog.
      eexists. split; [exact Hlog|]. split_and!.
      * simpl. by case_decide.
      * intros c. unfold teardowns. rewrite filter_app. fold (teardowns c evs).
        rewrite Ht, app_nil_r. by case_decide.
      * intros k. unfold renders. rewrite omap_app. fold (renders id k evs).
        rewrite Hr. by case_decide.
    + assert (Hnin : id x ∉ (map st).*1) by (by apply map_get_None).
      rewrite decide_False by done. simpl in Hlog, Hr.
      rewrite fmap_app, !length_app in Hr. simpl in Hr. rewrite !Nat.add_1_r in Hr.
      rewrite <- app_assoc in Hlog.
      eexists. split; [exact Hlog|]. split_and!.
      * done.
      * intros c0. unfold teardowns. rewrite filter_app. fold (teardowns c0 evs).
        by rewrite Ht, app_nil_r.
      * intros k. unfold renders. rewrite omap_app. fold (renders id k evs).
        rewrite Hr, (new_entries_cons_Returned _ _ _ _ _ Hc). cbn [omap].
        rewrite filter_cons. simpl. by case_decide.
Qed.

(** Whatever its outcome, the second loop adds neither a disposal nor a
    teardown to the trace, and leaves [Scope.current] as it is. *)
Lemma place_item_quiet x i st r st1 :
  place_item x i st = (r, st1) →
  (∃ evs, log st1 = log st ++ evs ∧ disposals evs = [] ∧ (∀ c, teardowns c evs = [])) ∧
  ScopeTs.current (scopes st1) = ScopeTs.current (scopes st) ∧
  (∃ N, map st1 = map st ++ N).
Proof.
  destruct (map_get (id x) (map st)) as [v|] eqn:Hg.
  - rewrite (place_item_tracked _ _ _ _ Hg).
    destruct (decide (child v ∈ fragment st));
      [|destruct (instanceof_Fragment (child v))]; intros [= <- <-]; simpl;
      (split_and!; [eexists; split; [done|]; by split|done|exists []; by rewrite app_nil_r]).
  - rewrite (place_item_new _ _ _ Hg). cbv zeta.
    destruct (mkChild x _ _).1 as [c|msg]; [destruct (instanceof_Fragment c)|];
      intros [= <- <-]; simpl;
      (split_and!; [eexists; split; [done|]; by split|apply render_new_current|]);
      try (by eexists); exists []; by rewrite app_nil_r.
Qed.

Lemma place_items_quiet items :
  ∀ i st r st', place_items items i st = (r, st') →
  (∃ evs, log st' = log st ++ evs ∧ disposals evs = [] ∧ (∀ c, teardowns c evs = [])) ∧
  ScopeTs.current (scopes st') = ScopeTs.current (scopes st) ∧
  (∃ N, map st' = map st ++ N).
Proof.
  induction items as [|x items IH]; intros i st r st' Hrun.
  - injection Hrun as <- <-. split_and!; [exists []|done|exists []]; by rewrite ?app_nil_r.
  - apply place_items_cons in Hrun as [(st1 & Hstep & Hrun)|(msg & Hstep & _)];
      [|by eapply place_item_quiet].
    destruct (place_item_quiet _ _ _ _ _ Hstep) as ((e1 & Hl1 & Hd1 & Ht1) & Hc1 & N1 & Hm1).
    destruct (IH _ _ _ _ Hrun) as ((e2 & Hl2 & Hd2 & Ht2) & Hc2 & N2 & Hm2).
    split_and!.
    + exists (e1 ++ e2). rewrite Hl2, Hl1, <- app_assoc. split; [done|].
      unfold disposals, teardowns in *. rewrite omap_app, Hd1, Hd2. split; [done|].
      intros c. by rewrite filter_app, Ht1, Ht2.
    + by rewrite Hc2.
    + exists (N1 ++ N2). by rewrite Hm2, Hm1, <- app_assoc.
Qed.

Lemma NoDup_fmap_same {A B} (f : A → B) (l : list A) (a b : A) :
  NoDup (f <$> l) → a ∈ l → b ∈ l → f a = f b → a = b.
Proof.
  induction l as [|x l IH]; simpl; intros Hnd Ha Hb Hf.
  - by apply elem_of_nil in Ha.
  - apply NoDup_cons in Hnd as [Hx Hnd].
    apply elem_of_cons in Ha as [->|Ha]; apply elem_of_cons in Hb as [->|Hb]; auto.
    + exfalso. apply Hx. rewrite Hf. by apply list_elem_of_fmap_2.
    + exfalso. apply Hx. rewrite <- Hf. by apply list_elem_of_fmap_2.
Qed.

Lemma place_items_keys_NoDup items i st st' :
  NoDup (map st).*1 → place_items items i st = (Returned tt, st') → NoDup (map st').*1.
Proof.
  intros Hnd Hrun. destruct (place_items_map _ _ _ _ Hrun) as (-> & Hk & _).
  rewrite fmap_app, Hk. by apply new_items_NoDup.
Qed.

Lemma place_item_map_mono x i st r st1 k e :
  place_item x i st = (r, st1) → (k, e) ∈ map st → (k, e) ∈ map st1.
Proof.
  intros Hstep He. destruct (place_item_quiet _ _ _ _ _ Hstep) as (_ & _ & N & ->).
  rewrite elem_of_app. by left.
Qed.

Lemma place_items_map_mono items i st r st' k e :
  place_items items i st = (r, st') → (k, e) ∈ map st → (k, e) ∈ map st'.
Proof.
  intros Hrun He. destruct (place_items_quiet _ _ _ _ _ Hrun) as (_ & _ & N & ->).
  rewrite elem_of_app. by left.
Qed.

Lemma lists_outputs_elem m V F k :
  lists_outputs m V F → k ∈ V → ∃ e, (k, e) ∈ m ∧ child e ∈ F.
Proof.
  intros HF Hk. apply list_elem_of_lookup in Hk as [j Hj].
  destruct (Forall2_lookup_l _ _ _ _ _ HF Hj) as (c & Hc & e & He & <-).
  exists e. split; [done|]. by eapply list_elem_of_lookup_2.
Qed.

Lemma lists_outputs_elem_r m V F c :
  lists_outputs m V F → c ∈ F → ∃ k e, k ∈ V ∧ (k, e) ∈ m ∧ child e = c.
Proof.
  intros HF Hc. apply list_elem_of_lookup in Hc as [j Hj].
  destruct (Forall2_lookup_r _ _ _ _ _ HF Hj) as (k & Hk & e & He & <-).
  exists k, e. split_and!; [by eapply list_elem_of_lookup_2|done|done].
Qed.

(** When every entry has its own output, the fragment lists, in the order
    of first occurrence, the outputs of the keys placed so far. *)
Lemma place_items_fragment items :
  ∀ i st st' V,
  place_items items i st = (Returned tt, st') →
  NoDup (map st).*1 → NoDup (children (map st')) →
  lists_outputs (map st) V (fragment st) →
  lists_outputs (map st') (foldl (λ acc k, set_add k acc) V (id <$> items)) (fragment st').
Proof.
  induction items as [|x items IH]; intros i st st' V Hrun Hnd Hout HF.
  - by injection Hrun as <-.
  - apply place_items_Returned_cons in Hrun as (st1 & Hstep & Hrun). simpl.
    assert (Hnd1 : NoDup (map st1).*1).
    { apply (place_items_keys_NoDup [x] i st); [done|].
      cbn [ForTs.place_items]. by rewrite Hstep. }
    apply (IH _ _ _ _ Hrun Hnd1 Hout).
    assert (Hout0 : NoDup (children (map st))).
    { destruct (place_items_quiet _ _ _ _ _ Hrun) as (_ & _ & N1 & HN1).
      destruct (place_item_quiet _ _ _ _ _ Hstep) as (_ & _ & N0 & HN0).
      rewrite HN1, HN0 in Hout. unfold children in Hout.
      rewrite !fmap_app in Hout. apply NoDup_app in Hout as [Hout _].
      by apply NoDup_app in Hout as [Hout _]. }
    apply place_item_Returned in Hstep as [(v & Hg & _ & ->)|(Hg & c & Hc & _ & ->)]; simpl.
    + pose proof (map_get_Some _ _ _ Hg) as Hv.
      unfold set_add. destruct (decide (child v ∈ fragment st)) as [Hc|Hc].
      * rewrite decide_True; [done|].
        destruct (lists_outputs_elem_r _ _ _ _ HF Hc) as (k' & e' & Hk' & He' & Hce).
        assert (Heq : (k', e') = (id x, v)).
        { eapply (NoDup_fmap_same (λ kv, child kv.2)); [exact Hout0|done|done|done]. }
        by injection Heq as <- _.
      * rewrite decide_False.
        -- apply Forall2_app; [exact HF|]. constructor; [|constructor]. by exists v.
        -- intros Hk. destruct (lists_outputs_elem _ _ _ _ HF Hk) as (e & He & Hce).
           by rewrite (NoDup_fst_functional _ _ _ _ Hnd Hv He) in Hc.
    + unfold set_add. rewrite decide_False.
      * apply Forall2_app.
        -- eapply Forall2_impl; [exact HF|]. intros k c0 (e & He & Hce). exists e.
           split; [|done]. rewrite elem_of_app. by left.
        -- constructor; [|constructor].
           exists (mkMapItem x c (length (indices st)) (length (ScopeTs.heap (scopes st)))).
           split; [|reflexivity]. rewrite elem_of_app, list_elem_of_singleton. by right.
      * intros Hk. destruct (lists_outputs_elem _ _ _ _ HF Hk) as (e & He & _).
        apply map_get_None in Hg. apply Hg. apply list_elem_of_fmap. by exists (id x, e).
Qed.

(** No output in the fragment is a fragment. *)
Lemma place_items_no_fragment items :
  ∀ i st st', place_items items i st = (Returned tt, st') →
  Forall (λ c, instanceof_Fragment c = false) (fragment st) →
  Forall (λ c, instanceof_Fragment c = false) (fragment st').
Proof.
  induction items as [|x items IH]; intros i st st' Hrun HF.
  - by injection Hrun as <-.
  - apply place_items_Returned_cons in Hrun as (st1 & Hstep & Hrun).
    apply (IH _ _ _ Hrun).
    apply place_item_Returned in Hstep as [(v & Hg & Hv & ->)|(Hg & c & Hc & Hnf & ->)]; simpl.
    + destruct (decide (child v ∈ fragment st)) as [Hin|Hnin]; [done|].
      destruct Hv as [?|Hv]; [done|]. apply Forall_app. split; [done|]. by constructor.
    + apply Forall_app. split; [done|]. by constructor.
Qed.

(** Each output placed is in the fragment afterwards. *)
Lemma place_items_fragment_grows items :
  ∀ i st st' c, place_items items i st = (Returned tt, st') →
  c ∈ fragment st → c ∈ fragment st'.
Proof.
  induction items as [|x items IH]; intros i st st' c Hrun Hc.
  - by injection Hrun as <-.
  - apply place_items_Returned_cons in Hrun as (st1 & Hstep & Hrun).
    apply (IH _ _ _ _ Hrun).
    apply place_item_Returned in Hstep as [(v & Hg & _ & ->)|(Hg & c0 & Hc0 & _ & ->)]; simpl.
    + case_decide; [done|]. rewrite elem_of_app. by left.
    + rewrite elem_of_app. by left.
Qed.

Lemma place_items_mounts items :
  ∀ i st st' k e,
  place_items items i st = (Returned tt, st') →
  NoDup (map st).*1 → k ∈ id <$> items → (k, e) ∈ map st' → child e ∈ fragment st'.
Proof.
  induction items as [|x items IH]; intros i st st' k e Hrun Hnd Hk He.
  - by apply elem_of_nil in Hk.
  - pose proof (place_items_keys_NoDup _ _ _ _ Hnd Hrun) as Hfinal.
    apply place_items_Returned_cons in Hrun as (st1 & Hstep & Hrun).
    assert (Hnd1 : NoDup (map st1).*1).
    { apply (place_items_keys_NoDup [x] i st); [done|].
      cbn [ForTs.place_items]. by rewrite Hstep. }
    destruct (decide (k ∈ id <$> items)) as [Hin|Hnin]; [by eapply IH|].
    rewrite fmap_cons in Hk. apply elem_of_cons in Hk as [->|Hk]; [|done].
    apply (place_items_fragment_grows _ _ _ _ _ Hrun).
    assert (Hpre : ∀ e1, (id x, e1) ∈ map st1 → e = e1).
    { intros e1 He1. eapply NoDup_fst_functional; [exact Hfinal|done|].
      by eapply place_items_map_mono. }
    apply place_item_Returned in Hstep as [(v & Hg & _ & ->)|(Hg & c & Hc & _ & ->)];
      simpl in *.
    + rewrite (Hpre v (map_get_Some _ _ _ Hg)).
      case_decide; [done|]. rewrite elem_of_app, list_elem_of_singleton. by right.
    + erewrite (Hpre _); [|rewrite elem_of_app, list_elem_of_singleton; by right].
      simpl. rewrite elem_of_app, list_elem_of_singleton. by right.
Qed.

(** *** Index signals *)

Lemma place_item_index_ok x i st st1 :
  place_item x i st = (Returned tt, st1) → index_ok st → index_ok st1.
Proof.
  intros Hstep [Hnd Hlt].
  apply place_item_Returned in Hstep as [(v & Hg & _ & ->)|(Hg & c & Hc & _ & ->)].
  - split; simpl; [done|]. by rewrite length_insert.
  - split; simpl.
    + rewrite fmap_app. simpl. apply NoDup_app. split_and!; [done| |apply NoDup_singleton].
      intros j Hj Hj'. apply list_elem_of_singleton in Hj'. subst.
      apply list_elem_of_fmap in Hj as (kv & Heq & Hkv).
      rewrite Forall_forall in Hlt. specialize (Hlt _ Hkv). simpl in Hlt. lia.
    + rewrite length_app. simpl. apply Forall_app. split.
      * eapply Forall_impl; [done|]. simpl. intros; lia.
      * repeat constructor. simpl. lia.
Qed.

Lemma place_items_index_ok items :
  ∀ i st st', place_items items i st = (Returned tt, st') → index_ok st → index_ok st'.
Proof.
  induction items as [|x items IH]; intros i st st' Hrun Hok.
  - by injection Hrun as <-.
  - apply place_items_Returned_cons in Hrun as (st1 & Hstep & Hrun).
    eapply IH; [done|]. by eapply place_item_index_ok.
Qed.

(** Placing items of other keys leaves an entry's index signal alone. *)
Lemma place_items_index_frame items :
  ∀ i st st' k e, place_items items i st = (Returned tt, st') →
  index_ok st → (k, e) ∈ map st → k ∉ id <$> items →
  indices st' !! index e = indices st !! index e.
Proof.
  induction items as [|x items IH]; intros i st st' k e Hrun Hok He Hk.
  - by injection Hrun as <-.
  - apply place_items_Returned_cons in Hrun as (st1 & Hstep & Hrun).
    rewrite fmap_cons, not_elem_of_cons in Hk. destruct Hk as [Hne Hk].
    rewrite (IH _ _ _ k e Hrun); [|by eapply place_item_index_ok
                                  |by eapply place_item_map_mono|done].
    destruct Hok as [Hnd Hlt].
    apply place_item_Returned in Hstep as [(v & Hg & _ & ->)|(Hg & c & Hc & _ & ->)]; simpl.
    + apply list_lookup_insert_ne. intros Heq.
      assert (Hsame : (id x, v) = (k, e)).
      { eapply (NoDup_fmap_same (λ kv, index kv.2)); [exact Hnd| |done|done].
        by apply map_get_Some. }
      injection Hsame as Hkx _. by apply Hne.
    + apply lookup_app_l. rewrite Forall_forall in Hlt. apply (Hlt _ He).
Qed.

(** After the loop, the index signal of a key holds the position of the
    key's last occurrence in the input. *)
Lemma place_items_index_last items :
  ∀ i st st' k e p,
  place_items items i st = (Returned tt, st') →
  NoDup (map st).*1 → index_ok st →
  (k, e) ∈ map st' →
  (id <$> items) !! p = Some k →
  (∀ q, p < q → (id <$> items) !! q ≠ Some k) →
  indices st' !! index e = Some (i + p).
Proof.
  induction items as [|x items IH]; intros i st st' k e p Hrun Hnd Hok He Hp Hlast; [done|].
  pose proof (place_items_keys_NoDup _ _ _ _ Hnd Hrun) as Hfinal.
  apply place_items_Returned_cons in Hrun as (st1 & Hstep & Hrun).
  assert (Hnd1 : NoDup (map st1).*1).
  { apply (place_items_keys_NoDup [x] i st); [done|].
    cbn [ForTs.place_items]. by rewrite Hstep. }
  pose proof (place_item_index_ok _ _ _ _ Hstep Hok) as Hok1.
  destruct p as [|p]; simpl in Hp.
  - injection Hp as <-. rewrite Nat.add_0_r.
    assert (Hnin : id x ∉ id <$> items).
    { intros Hin. apply list_elem_of_lookup in Hin as [q Hq].
      by apply (Hlast (S q) ltac:(lia)). }
    assert (Hpre : ∀ e1, (id x, e1) ∈ map st1 → e = e1).
    { intros e1 He1. eapply NoDup_fst_functional; [exact Hfinal|done|].
      by eapply place_items_map_mono. }
    destruct Hok as [Hndi Hlt].
    apply place_item_Returned in Hstep as [(v & Hg & _ & Hst1)|(Hg & c & Hc & _ & Hst1)].
    + pose proof (map_get_Some _ _ _ Hg) as Hv.
      assert (e = v) as ->. { apply Hpre. by rewrite Hst1. }
      rewrite (place_items_index_frame _ _ _ _ (id x) v Hrun Hok1); [| |done].
      * rewrite Hst1. simpl.
        apply list_lookup_insert_eq. rewrite Forall_forall in Hlt. apply (Hlt _ Hv).
      * by rewrite Hst1.
    + set (e0 := mkMapItem x c (length (indices st)) (length (ScopeTs.heap (scopes st)))).
      assert (Hin0 : (id x, e0) ∈ map st1).
      { rewrite Hst1. simpl. rewrite elem_of_app, list_elem_of_singleton. by right. }
      assert (e = e0) as -> by (by apply Hpre).
      rewrite (place_items_index_frame _ _ _ _ (id x) e0 Hrun Hok1 Hin0 Hnin).
      rewrite Hst1. simpl. rewrite lookup_app_r by done. by rewrite Nat.sub_diag.
  - rewrite (IH _ _ _ k e p Hrun Hnd1 Hok1 He Hp); [f_equal; lia|].
    intros q Hq. apply (Hlast (S q)). lia.
Qed.

(** *** The first loop *)

Lemma sweep_entry_spec idSet st kv :
  sweep_entry cleanup idSet st kv =
    mkForState
      (if decide (kv.1 ∈ idSet) then map st else map_delete kv.1 (map st))
      (FragmentTs.removeChild (child kv.2) (fragment st))
      (indices st)
      (if decide (kv.1 ∈ idSet) then scopes st
       else ScopeTs.Scope_dispose (scope kv.2) (scopes st))
      (log st ++ sweep_events cleanup idSet st kv).
Proof.
  unfold sweep_entry, sweep_events, remove, teardown_of, fragment_removeChild, emit, index_get.
  case_decide; [done|]. destruct cleanup; simpl; by rewrite <- ?app_assoc.
Qed.

Lemma teardown_of_indices v st st' :
  indices st' = indices st → teardown_of cleanup v st' = teardown_of cleanup v st.
Proof. intros Hi. unfold teardown_of, index_get. by rewrite Hi. Qed.

Lemma filter_all {A} (P : A → Prop) `{∀ a, Decision (P a)} (l : list A) :
  Forall P l → filter P l = l.
Proof.
  induction 1 as [|a l Ha _ IH]; [done|]. by rewrite filter_cons_True, IH.
Qed.

(** The deletions of the first loop leave the entries whose key is in the
    new input. *)
Lemma sweep_map_filter (idSet : list Key) entries :
  ∀ m, (∀ kv, kv ∈ m → kv.1 ∉ idSet → kv.1 ∈ entries.*1) →
  foldl (λ m kv, if decide (kv.1 ∈ idSet) then m else map_delete kv.1 m) m entries =
  filter (λ kv, kv.1 ∈ idSet) m.
Proof.
  induction entries as [|kv0 entries IH]; intros m Hm; simpl.
  - symmetry. apply filter_all. apply Forall_forall. intros kv Hkv.
    destruct (decide (kv.1 ∈ idSet)) as [?|Hn]; [done|].
    specialize (Hm kv Hkv Hn). by apply elem_of_nil in Hm.
  - destruct (decide (kv0.1 ∈ idSet)) as [Hin|Hnin].
    + apply IH. intros kv Hkv Hn. specialize (Hm kv Hkv Hn). simpl in Hm.
      apply elem_of_cons in Hm as [Heq|?]; [|done]. by rewrite Heq in Hn.
    + rewrite IH.
      * unfold map_delete. apply list_filter_filter_l. intros kv Hkv Heq.
        by rewrite Heq in Hkv.
      * intros kv Hkv Hn. unfold map_delete in Hkv.
        apply list_elem_of_filter in Hkv as [Hne Hkv].
        specialize (Hm kv Hkv Hn). simpl in Hm.
        by apply elem_of_cons in Hm as [?|?].
Qed.

Lemma sweep_events_indices idSet st st' entries :
  indices st' = indices st →
  flat_map (sweep_events cleanup idSet st') entries =
  flat_map (sweep_events cleanup idSet st) entries.
Proof.
  intros Hi. induction entries as [|kv entries IH]; [done|].
  cbn [flat_map]. rewrite IH. f_equal. unfold sweep_events.
  by rewrite (teardown_of_indices _ _ _ Hi).
Qed.

Lemma sweep_fold idSet entries :
  ∀ st,
  let st' := foldl (sweep_entry cleanup idSet) st entries in
  map st' = foldl (λ m kv, if decide (kv.1 ∈ idSet) then m else map_delete kv.1 m)
                  (map st) entries ∧
  fragment st' = foldl (λ F kv, FragmentTs.removeChild (child kv.2) F) (fragment st) entries ∧
  indices st' = indices st ∧
  length (ScopeTs.heap (scopes st')) = length (ScopeTs.heap (scopes st)) ∧
  log st' = log st ++ flat_map (sweep_events cleanup idSet st) entries.
Proof.
  induction entries as [|kv entries IH]; intros st; cbn [foldl flat_map].
  - by rewrite app_nil_r.
  - destruct (IH (sweep_entry cleanup idSet st kv)) as (Hm & Hf & Hi & Hh & Hl).
    cbv zeta. rewrite Hm, Hf, Hi, Hh, Hl.
    rewrite (sweep_events_indices idSet st (sweep_entry cleanup idSet st kv))
      by (by rewrite sweep_entry_spec).
    rewrite sweep_entry_spec. cbn [map fragment indices scopes log].
    split_and!; try done.
    + case_decide; [done|]. unfold ScopeTs.Scope_dispose.
      destruct (ScopeTs.heap (scopes st) !! scope kv.2); [|done]. simpl.
      by rewrite length_insert.
    + by rewrite <- app_assoc.
Qed.

Lemma sweep_fold_scopes (idSet : list Key) entries :
  ∀ st,
  scopes (foldl (sweep_entry cleanup idSet) st entries) =
  foldl (λ ss kv, if decide (kv.1 ∈ idSet) then ss
                  else ScopeTs.Scope_dispose (scope kv.2) ss) (scopes st) entries.
Proof.
  induction entries as [|kv entries IH]; intros st; cbn [foldl]; [done|].
  rewrite IH, sweep_entry_spec. done.
Qed.

Lemma Scope_dispose_lookup s ss s' :
  ScopeTs.heap (ScopeTs.Scope_dispose s ss) !! s' =
  if decide (s' = s) then disposed <$> ScopeTs.heap ss !! s' else ScopeTs.heap ss !! s'.
Proof.
  unfold ScopeTs.Scope_dispose. case_decide as Hs.
  - subst s'. destruct (ScopeTs.heap ss !! s) as [sc|] eqn:Hsc; simpl; [|by rewrite Hsc].
    rewrite list_lookup_insert_eq by (by eapply lookup_lt_Some). done.
  - destruct (ScopeTs.heap ss !! s) as [sc|]; simpl; [|done].
    by rewrite list_lookup_insert_ne.
Qed.

(** The scopes of the removed entries are disposed, the others are left
    as they are. *)
Lemma dispose_removed_lookup (idSet : list Key) entries :
  ∀ ss s,
  ScopeTs.heap (foldl (λ ss kv, if decide (kv.1 ∈ idSet) then ss
                                else ScopeTs.Scope_dispose (scope kv.2) ss) ss entries) !! s =
  if decide (s ∈ (λ kv, scope kv.2) <$> filter (λ kv, kv.1 ∉ idSet) entries)
  then disposed <$> ScopeTs.heap ss !! s
  else ScopeTs.heap ss !! s.
Proof.
  induction entries as [|kv entries IH]; intros ss s; cbn [foldl].
  - rewrite decide_False; [done|]. apply not_elem_of_nil.
  - rewrite IH. destruct (decide (kv.1 ∈ idSet)) as [Hin|Hnin].
    + rewrite filter_cons_False; [done|]. by intros ?.
    + rewrite filter_cons_True by done. rewrite fmap_cons, Scope_dispose_lookup. simpl.
      destruct (decide (s = scope kv.2)) as [->|Hne].
      * rewrite (decide_True (P := _ ∈ _ :: _)) by (by left).
        case_decide; [|done]. by destruct (ScopeTs.heap ss !! scope kv.2).
      * case_decide as Hr.
        -- rewrite decide_True; [done|]. by right.
        -- rewrite decide_False; [done|]. rewrite not_elem_of_cons. done.
Qed.

(** Taking out, one by one, the outputs the fragment holds empties it. *)
Lemma remove_all_children (cs : list El) :
  ∀ F, F ≡ₚ cs → foldl (λ F c, FragmentTs.removeChild c F) F cs = [].
Proof.
  induction cs as [|c cs IH]; intros F HF; simpl.
  - by apply Permutation_nil_r in HF.
  - apply IH. assert (Hc : c ∈ F) by (rewrite HF; by left).
    unfold FragmentTs.removeChild, FragmentTs.findIndex.
    destruct (list_find _ F) as [[i c']|] eqn:Hfind; simpl.
    + apply list_find_Some in Hfind as (Hi & -> & _).
      apply (Permutation_cons_inv (a := c)).
      rewrite <- HF. symmetry. by apply delete_Permutation.
    + eapply list_find_None in Hfind. rewrite Forall_forall in Hfind.
      by destruct (Hfind _ Hc).
Qed.


Lemma filter_key_in_Set_of (ids : list Key) m :
  filter (λ kv, kv.1 ∈ Set_of ids) m = filter (λ kv, kv.1 ∈ ids) m.
Proof. apply list_filter_iff. intros kv. apply elem_of_Set_of. Qed.

(** The state after the first loop. *)
Lemma sweep_spec items st :
  let st1 := sweep id cleanup items st in
  map st1 = filter (λ kv, kv.1 ∈ id <$> items) (map st) ∧
  indices st1 = indices st ∧
  length (ScopeTs.heap (scopes st1)) = length (ScopeTs.heap (scopes st)) ∧
  log st1 = log st ++ flat_map (sweep_events cleanup (Set_of (id <$> items)) st) (map st) ∧
  (fragment st ≡ₚ children (map st) → fragment st1 = []).
Proof.
  unfold sweep.
  destruct (sweep_fold (Set_of (id <$> items)) (map st) st) as (Hm & Hf & Hi & Hh & Hl).
  split_and!; try done.
  - rewrite Hm, sweep_map_filter; [apply filter_key_in_Set_of|].
    intros kv Hkv _. by apply list_elem_of_fmap_2.
  - intros Hperm. rewrite Hf.
    rewrite <- (remove_all_children (children (map st)) (fragment st) Hperm).
    unfold children. generalize (fragment st). generalize (map st).
    intros m. induction m as [|kv m IH]; intros F; simpl; [done|]. apply IH.
Qed.

Lemma sweep_events_disposals idSet st entries :
  disposals (flat_map (sweep_events cleanup idSet st) entries) =
  (λ kv, scope kv.2) <$> filter (λ kv, kv.1 ∉ idSet) entries.
Proof.
  induction entries as [|kv entries IH]; [done|].
  cbn [flat_map]. unfold disposals in *. rewrite omap_app, IH, filter_cons.
  unfold sweep_events. destruct (decide (kv.1 ∈ idSet)) as [Hin|Hnin].
  - by rewrite decide_False by (by intros ?).
  - rewrite decide_True by done. simpl. rewrite omap_app. simpl.
    assert (Hnone : omap (λ e : event, match e with ScopeDisposed s => Some s | _ => None end)
                      (teardown_of cleanup kv.2 st) = []).
    { unfold teardown_of. by destruct cleanup. }
    by rewrite Hnone.
Qed.

Lemma sweep_events_renders idSet st entries k :
  renders id k (flat_map (sweep_events cleanup idSet st) entries) = [].
Proof.
  induction entries as [|kv entries IH]; [done|].
  cbn [flat_map]. unfold renders in *. rewrite omap_app, IH, app_nil_r.
  unfold sweep_events, teardown_of. case_decide; [done|]. by destruct cleanup.
Qed.

Lemma teardowns_teardown_of c v st :
  teardowns c (teardown_of cleanup v st) =
  if decide (child v = c) then teardown_of cleanup v st else [].
Proof.
  unfold teardowns, teardown_of.
  destruct cleanup; simpl; try (by case_decide);
    rewrite filter_cons; simpl;
    destruct (decide (child v = c)) as [->|Hne];
    by rewrite ?bool_decide_eq_true_2, ?bool_decide_eq_false_2 by done.
Qed.

Lemma sweep_events_teardowns_other idSet st entries c :
  c ∉ children entries → teardowns c (flat_map (sweep_events cleanup idSet st) entries) = [].
Proof.
  induction entries as [|kv entries IH]; [done|]. intros Hc.
  unfold children in Hc. rewrite fmap_cons, not_elem_of_cons in Hc. destruct Hc as [Hne Hc].
  cbn [flat_map]. unfold teardowns in *. rewrite filter_app, (IH Hc), app_nil_r.
  unfold sweep_events. rewrite filter_cons. simpl. case_decide; [done|].
  rewrite filter_app. fold (teardowns c (teardown_of cleanup kv.2 st)).
  rewrite teardowns_teardown_of, decide_False by done. done.
Qed.

(** The teardown calls of the first loop on the output of a removed entry
    are those of [remove], made once. *)
Lemma sweep_events_teardowns idSet st entries k e :
  NoDup (children entries) → (k, e) ∈ entries → k ∉ idSet →
  teardowns (child e) (flat_map (sweep_events cleanup idSet st) entries) =
  teardown_of cleanup e st.
Proof.
  induction entries as [|kv entries IH]; intros Hnd He Hk.
  - by apply elem_of_nil in He.
  - unfold children in Hnd. rewrite fmap_cons in Hnd. apply NoDup_cons in Hnd as [Hkv Hnd].
    cbn [flat_map]. unfold teardowns. rewrite filter_app.
    fold (teardowns (child e) (flat_map (sweep_events cleanup idSet st) entries)).
    apply elem_of_cons in He as [<-|He].
    + rewrite (sweep_events_teardowns_other _ _ _ _ Hkv), app_nil_r.
      unfold sweep_events. rewrite filter_cons. simpl. rewrite decide_False by done.
      rewrite filter_app. fold (teardowns (child e) (teardown_of cleanup e st)).
      rewrite teardowns_teardown_of, decide_True by done. simpl. by rewrite app_nil_r.
    + rewrite (IH Hnd He Hk).
      assert (Hne : child kv.2 ≠ child e).
      { intros Heq. apply Hkv. rewrite Heq.
        apply list_elem_of_fmap. by exists (k, e). }
      unfold sweep_events. rewrite filter_cons. simpl. case_decide; [done|].
      rewrite filter_app. fold (teardowns (child e) (teardown_of cleanup kv.2 st)).
      by rewrite teardowns_teardown_of, decide_False.
Qed.

Lemma occurs_once {A B} `{EqDecision B} (f : A → B) (l : list A) (a : A) :
  NoDup (f <$> l) → a ∈ l → filter (λ y, y = f a) (f <$> l) = [f a].
Proof.
  induction l as [|b l IH]; intros Hnd Ha.
  - by apply elem_of_nil in Ha.
  - rewrite fmap_cons in Hnd |- *. apply NoDup_cons in Hnd as [Hb Hnd].
    rewrite filter_cons. apply elem_of_cons in Ha as [->|Ha].
    + rewrite decide_True by done. f_equal.
      destruct (filter (λ y, y = f b) (f <$> l)) as [|y ys] eqn:Hfil; [done|].
      assert (Hy : y ∈ filter (λ y, y = f b) (f <$> l)) by (rewrite Hfil; by left).
      apply list_elem_of_filter in Hy as [-> Hy]. done.
    + rewrite decide_False; [by apply IH|].
      intros Heq. apply Hb. rewrite Heq. by apply list_elem_of_fmap_2.
Qed.


(** *** One pass *)

Lemma disposals_app (a b : list (@event Item Key El)) :
  disposals (a ++ b) = disposals a ++ disposals b.
Proof. apply omap_app. Qed.

Lemma teardowns_app c (a b : list (@event Item Key El)) :
  teardowns c (a ++ b) = teardowns c a ++ teardowns c b.
Proof. apply filter_app. Qed.

Lemma renders_app k (a b : list (@event Item Key El)) :
  renders id k (a ++ b) = renders id k a ++ renders id k b.
Proof. apply omap_app. Qed.

Lemma kept_keys_NoDup (ids : list Key) m :
  NoDup m.*1 → NoDup (filter (λ kv, kv.1 ∈ ids) m).*1.
Proof.
  intros Hnd. eapply sublist_NoDup; [exact Hnd|]. apply fmap_sublist, sublist_filter.
Qed.

Lemma sweep_keys_NoDup items st :
  NoDup (map st).*1 → NoDup (map (sweep id cleanup items st)).*1.
Proof.
  intros Hnd. destruct (sweep_spec items st) as (-> & _). by apply kept_keys_NoDup.
Qed.

Lemma sweep_index_ok items st :
  index_ok st → index_ok (sweep id cleanup items st).
Proof.
  intros [Hnd Hlt]. destruct (sweep_spec items st) as (Hm & Hi & _).
  unfold index_ok. rewrite Hm, Hi. split.
  - eapply sublist_NoDup; [exact Hnd|]. apply fmap_sublist, sublist_filter.
  - apply Forall_forall. intros kv Hkv. apply list_elem_of_filter in Hkv as [_ Hkv].
    rewrite Forall_forall in Hlt. by apply Hlt.
Qed.

(** The map after a pass that returns: the entries whose key is in the
    input, then the entries of the new keys. *)
Lemma callback_map items st st' :
  callback items st = (Returned tt, st') →
  let kept := filter (λ kv, kv.1 ∈ id <$> items) (map st) in
  let new := new_items id kept.*1 items in
  let N := new_entries (length (indices st)) (scopes (sweep id cleanup items st)) new in
  map st' = kept ++ N ∧ N.*1 = id <$> new ∧
  scopes st' = scopes_after (length (indices st)) (scopes (sweep id cleanup items st)) new.
Proof.
  unfold ForTs.callback. intros Hrun.
  destruct (sweep_spec items st) as (Hm & Hi & Hh & _).
  destruct (place_items_map _ _ _ _ Hrun) as (Hp & Hk & _ & Hs).
  rewrite Hm, Hi in Hp, Hk, Hs. done.
Qed.

(** After the first loop the scope of a removed entry is a disposed
    scope. *)
Lemma sweep_disposed items st k e sc :
  (k, e) ∈ map st → k ∉ id <$> items →
  ScopeTs.heap (scopes st) !! scope e = Some sc →
  ScopeTs.heap (scopes (sweep id cleanup items st)) !! scope e = Some (disposed sc).
Proof.
  intros He Hk Hsc. unfold sweep. rewrite sweep_fold_scopes, dispose_removed_lookup.
  rewrite decide_True; [by rewrite Hsc|].
  apply list_elem_of_fmap. exists (k, e). split; [done|].
  apply list_elem_of_filter. split; [|done]. simpl. by rewrite elem_of_Set_of.
Qed.


Lemma callback_events items st st' :
  callback items st = (Returned tt, st') →
  ∃ pevs,
    log st' = log st ++ pass_events items st ∧
    pass_events items st =
      flat_map (sweep_events cleanup (Set_of (id <$> items)) st) (map st) ++ pevs ∧
    disposals pevs = [] ∧ (∀ c, teardowns c pevs = []) ∧
    (∀ k, renders id k pevs =
            (λ kv, (item kv.2, index kv.2, Some (scope kv.2))) <$>
              filter (λ kv, kv.1 = k)
                (new_entries (length (indices st)) (scopes (sweep id cleanup items st))
                   (new_items id (filter (λ kv, kv.1 ∈ id <$> items) (map st)).*1 items))).
Proof.
  intros Hcb. unfold ForTs.pass_events. rewrite Hcb. simpl.
  unfold ForTs.callback in Hcb.
  destruct (sweep_spec items st) as (Hm & Hi & Hh & Hl & _).
  destruct (place_items_log _ _ _ _ Hcb) as (pevs & Hlog & Hd & Ht & Hr).
  rewrite Hm, Hi in Hr. rewrite Hl in Hlog. rewrite <- app_assoc in Hlog.
  exists pevs. rewrite Hlog. rewrite drop_app_length. done.
Qed.

Lemma callback_keys_NoDup items st st' :
  callback items st = (Returned tt, st') → NoDup (map st).*1 → NoDup (map st').*1.
Proof.
  intros Hcb Hnd. unfold ForTs.callback in Hcb.
  eapply place_items_keys_NoDup; [|done]. by apply sweep_keys_NoDup.
Qed.

(** A tracked key that is in the input keeps its entry and is not
    rendered again. *)
Lemma callback_kept_entry items st st' k e :
  callback items st = (Returned tt, st') →
  (k, e) ∈ map st → k ∈ id <$> items →
  (k, e) ∈ map st' ∧ renders id k (pass_events items st) = [].
Proof.
  intros Hcb He Hin.
  destruct (callback_events _ _ _ Hcb) as (pevs & Hlog & Hevs & Hd & Ht & Hr).
  destruct (callback_map _ _ _ Hcb) as (Hmap & Hkeys & _).
  assert (Hke : (k, e) ∈ filter (λ kv, kv.1 ∈ id <$> items) (map st))
    by (by apply list_elem_of_filter).
  split.
  - rewrite Hmap, elem_of_app. by left.
  - rewrite Hevs, renders_app, sweep_events_renders, Hr. simpl.
    rewrite filter_key_none; [done|]. rewrite Hkeys. intros Hnew.
    apply new_items_keys in Hnew as [_ Hnew]. apply Hnew.
    apply list_elem_of_fmap. by exists (k, e).
Qed.

(** The first item of a key that was not tracked: a new entry, a new index
    signal, a new scope under [currentScope] in which the render function
    returned the entry's output, one render call. *)
Lemma callback_new_entry items st st' p x :
  callback items st = (Returned tt, st') →
  NoDup (map st).*1 →
  items !! p = Some x → id x ∉ (map st).*1 →
  (∀ q y, q < p → items !! q = Some y → id y ≠ id x) →
  ∃ e, (id x, e) ∈ map st' ∧ item e = x ∧
       length (indices st) ≤ index e ∧
       (∃ sst0 : ScopeTs.State,
          scope e = length (ScopeTs.heap sst0) ∧
          (mkChild x (index e) (entry_state currentScope sst0)).1 = Returned (child e) ∧
          (keeps_scopes mkChild → length (ScopeTs.heap (scopes st)) ≤ scope e)) ∧
       renders id (id x) (pass_events items st) = [(x, index e, Some (scope e))].
Proof.
  intros Hcb Hk Hp Hnew Hfirst.
  destruct (callback_events _ _ _ Hcb) as (pevs & Hlog & Hevs & Hd & Ht & Hr).
  destruct (callback_map _ _ _ Hcb) as (Hmap & Hkeys & _). cbv zeta in Hmap, Hkeys.
  set (kept := filter (λ kv, kv.1 ∈ id <$> items) (map st)) in *.
  set (new := new_items id kept.*1 items) in *.
  set (N := new_entries (length (indices st)) (scopes (sweep id cleanup items st)) new) in *.
  assert (Hkept : NoDup kept.*1) by (by apply kept_keys_NoDup).
  assert (Hseen : id x ∉ kept.*1).
  { intros Hin. apply Hnew. apply list_elem_of_fmap in Hin as (kv & -> & Hkv).
    apply list_elem_of_filter in Hkv as [_ Hkv]. by apply list_elem_of_fmap_2. }
  pose proof (new_items_first items kept.*1 p x Hp Hseen Hfirst) as Hx. fold new in Hx.
  assert (HndN : NoDup (id <$> new)).
  { pose proof (new_items_NoDup items kept.*1 Hkept) as Hall.
    by apply NoDup_app in Hall as (_ & _ & ?). }
  assert (HkN : id x ∈ N.*1) by (rewrite Hkeys; by apply list_elem_of_fmap_2).
  apply list_elem_of_fmap in HkN as ([k e] & Hke & HinN). simpl in Hke. subst k.
  destruct (new_entries_elem _ _ _ _ _ HinN) as (Hid & Hit & Hsig & sst0 & Hs & Hren & Hlen).
  assert (Hitem : item e = x).
  { eapply (NoDup_fmap_same id); [exact HndN|done|done|done]. }
  exists e. split_and!.
  - rewrite Hmap, elem_of_app. by right.
  - done.
  - done.
  - exists sst0. rewrite Hitem in Hren. split_and!; [done|done|].
    intros Hkeep. specialize (Hlen Hkeep).
    destruct (sweep_spec items st) as (_ & _ & Hh & _). rewrite Hh in Hlen. lia.
  - rewrite Hevs, renders_app, sweep_events_renders, Hr. simpl.
    rewrite (filter_key_unique _ _ e); [simpl; by rewrite Hitem| |done].
    by rewrite Hkeys.
Qed.

(** *** The state between passes *)

Lemma scopes_after_length l : ∀ sig (sst : ScopeTs.State),
  keeps_scopes mkChild →
  length (ScopeTs.heap sst) ≤ length (ScopeTs.heap (scopes_after sig sst l)).
Proof.
  induction l as [|x l IH]; intros sig sst Hkeep; cbn [ForTs.scopes_after]; [done|].
  specialize (IH (S sig) (render_new x sig sst).2 Hkeep).
  pose proof (render_new_length x sig sst Hkeep). lia.
Qed.

Lemma new_entries_scope_ok l : ∀ sig (sst : ScopeTs.State),
  keeps_scopes mkChild →
  NoDup ((λ kv, scope kv.2) <$> new_entries sig sst l) ∧
  Forall (λ kv, length (ScopeTs.heap sst) ≤ scope kv.2 <
                length (ScopeTs.heap (scopes_after sig sst l))) (new_entries sig sst l).
Proof.
  induction l as [|x l IH]; intros sig sst Hkeep;
    cbn [ForTs.new_entries ForTs.scopes_after].
  - split; constructor.
  - pose proof (render_new_length x sig sst Hkeep) as Hlt.
    pose proof (scopes_after_length l (S sig) (render_new x sig sst).2 Hkeep) as Hle.
    destruct (IH (S sig) (render_new x sig sst).2 Hkeep) as [Hnd Hall].
    rewrite (render_new_eq x sig sst) in Hnd, Hall, Hlt, Hle |- *. simpl in *.
    destruct (mkChild x sig (entry_state currentScope sst)).1 as [c|msg];
      [|split; constructor].
    split.
    + rewrite fmap_cons. apply NoDup_cons. split; [|done]. simpl.
      intros (kv & Heq & Hkv)%list_elem_of_fmap.
      rewrite Forall_forall in Hall. specialize (Hall _ Hkv). simpl in Hall. lia.
    + constructor; [simpl; lia|].
      eapply Forall_impl; [exact Hall|]. simpl. intros kv ?. lia.
Qed.

Lemma children_omap m :
  NoDup m.*1 → children m = omap (λ k, child <$> map_get k m) m.*1.
Proof.
  intros Hnd.
  assert (Hall : ∀ l, (∀ kv, kv ∈ l → kv ∈ m) →
            children l = omap (λ k, child <$> map_get k m) l.*1).
  { induction l as [|[k e] l IH]; intros Hl; [done|]. simpl.
    rewrite (map_get_NoDup m k e Hnd) by (apply Hl; by left). simpl.
    f_equal. apply IH. intros kv Hkv. apply Hl. by right. }
  by apply Hall.
Qed.

Lemma lists_outputs_omap m V F :
  NoDup m.*1 → lists_outputs m V F → F = omap (λ k, child <$> map_get k m) V.
Proof.
  intros Hnd. induction 1 as [|k c V F (e & He & <-) _ IH]; [done|]. simpl.
  rewrite (map_get_NoDup m k e Hnd He). simpl. by rewrite IH.
Qed.

(** A fragment that lists the outputs of a set of keys that are the keys
    of the map holds exactly the outputs of the entries. *)
Lemma lists_outputs_Permutation m (V : list Key) F :
  NoDup m.*1 → NoDup V → (∀ k, k ∈ V ↔ k ∈ m.*1) → lists_outputs m V F →
  F ≡ₚ children m.
Proof.
  intros Hnd HV Hkeys HF.
  rewrite (lists_outputs_omap _ _ _ Hnd HF), (children_omap _ Hnd).
  apply omap_Permutation. by apply NoDup_Permutation.
Qed.

(** A pass that returns, with a render function that keeps the scopes it
    finds and with one output per entry, leads from a tracked state to a
    tracked state; [For] starts from the empty one. *)
Lemma callback_tracked items st st' :
  tracked st → keeps_scopes mkChild →
  callback items st = (Returned tt, st') →
  NoDup (children (map st')) →
  tracked st'.
Proof.
  intros (Hk & Hc & Hperm & Hi & Hil & Hs & Hsl) Hkeep Hcb Hout.
  pose proof (callback_keys_NoDup _ _ _ Hcb Hk) as Hk'.
  destruct (callback_map _ _ _ Hcb) as (Hmap & Hkeys & Hsc). cbv zeta in Hmap, Hkeys, Hsc.
  destruct (sweep_spec items st) as (Hm & Hix & Hh & _ & Hfrag).
  pose proof Hcb as Hrun. unfold ForTs.callback in Hrun.
  destruct (place_items_index_ok _ _ _ _ Hrun (sweep_index_ok items st (conj Hi Hil)))
    as [Hi' Hil'].
  set (sst1 := scopes (sweep id cleanup items st)) in *.
  set (new := new_items id (filter (λ kv, kv.1 ∈ id <$> items) (map st)).*1 items) in *.
  destruct (new_entries_scope_ok new (length (indices st)) sst1 Hkeep) as [HndN HallN].
  split_and!; try done.
  - apply (lists_outputs_Permutation _ (Set_of (id <$> items))); [done|apply NoDup_Set_of| |].
    + intros k. rewrite elem_of_Set_of, Hmap, fmap_app, Hkeys, elem_of_app.
      unfold new. rewrite new_items_keys. split.
      * intros Hin.
        destruct (decide (k ∈ (filter (λ kv, kv.1 ∈ id <$> items) (map st)).*1));
          [by left|by right].
      * intros [Hin|[? _]]; [|done].
        apply list_elem_of_fmap in Hin as (kv & -> & Hkv).
        by apply list_elem_of_filter in Hkv as [? _].
    + apply (place_items_fragment items 0 _ _ [] Hrun);
        [by apply sweep_keys_NoDup|done|].
      rewrite (Hfrag Hperm). constructor.
  - rewrite Hmap, fmap_app. apply NoDup_app. split_and!.
    + eapply sublist_NoDup; [exact Hs|]. apply fmap_sublist, sublist_filter.
    + intros s (kv & -> & [_ Hkv]%list_elem_of_filter)%list_elem_of_fmap
             (kv' & Heq & Hkv')%list_elem_of_fmap.
      rewrite Forall_forall in Hsl, HallN. specialize (Hsl _ Hkv). specialize (HallN _ Hkv').
      simpl in *. rewrite Hh in HallN. lia.
    + done.
  - rewrite Hmap, Hsc. apply Forall_app. split.
    + apply Forall_forall. intros kv [_ Hkv]%list_elem_of_filter.
      rewrite Forall_forall in Hsl. specialize (Hsl _ Hkv). simpl in *.
      pose proof (scopes_after_length new (length (indices st)) sst1 Hkeep) as Hle.
      rewrite Hh in Hle. lia.
    + eapply Forall_impl; [exact HallN|]. simpl. intros kv ?. lia.
Qed.

Lemma initial_tracked (sst : ScopeTs.State) :
  tracked (mkForState (Item := Item) (Key := Key) (El := El) [] [] [] sst []).
Proof. unfold tracked, children. simpl. split_and!; try constructor. Qed.

Lemma returned_eq {A} (p : outcome unit * A) : p.1 = Returned tt → p = (Returned tt, p.2).
Proof. destruct p as [[[]|msg] a]; simpl; congruence. Qed.

(** C1, amended: a pass of [callback] over [items] that returns, from a
    state in which the fragment holds exactly the tracked outputs, and
    ending with one output per entry.
    - A tracked key that is not in [items] is dropped from the map, its
      scope is disposed exactly once - by the first loop -, and the teardown
      calls made on its output are those of [remove]: the [cleanup]
      function once, or the default teardown once when [cleanup] is left
      out, or none when [cleanup] is [null].
    - A tracked key that is in [items] keeps its entry, the render function
      is not called for it, its scope is not disposed, its output is in the
      fragment, and if it occurs once in [items] its index signal holds that
      position.
    - The first item of a key that was not tracked gets an entry with a new
      index signal and a scope that was created under [currentScope] and
      was current, the last of the heap, when the render function was
      called with that item and signal and returned the entry's output; the
      render function is called once for the key; the output is in the
      fragment, and if the key occurs once its index signal holds that
      position.
    - The fragment lists the outputs of the keys of [items] in the order of
      first occurrence - each output was appended at the end - and none of
      them is a fragment.
    - The scope state is the one that the first loop left and the render
      calls of the new keys, one after the other, changed. *)
Theorem callback_reconciles (items : list Item) (st : ForState) :
  tracked st →
  (callback items st).1 = Returned tt →
  NoDup (children (map (callback items st).2)) →
  let st' := (callback items st).2 in
  let evs := pass_events items st in
  let ids := id <$> items in
  log st' = log st ++ evs ∧
  (∀ k e, (k, e) ∈ map st → k ∉ ids →
     (k ∉ (map st').*1) ∧
     filter (λ s, s = scope e) (disposals evs) = [scope e] ∧
     (∀ sc, ScopeTs.heap (scopes st) !! scope e = Some sc →
            ScopeTs.heap (scopes (sweep id cleanup items st)) !! scope e =
              Some (disposed sc)) ∧
     teardowns (child e) evs = teardown_of cleanup e st) ∧
  (∀ k e, (k, e) ∈ map st → k ∈ ids →
     (k, e) ∈ map st' ∧ renders id k evs = [] ∧ (scope e ∉ disposals evs) ∧
     child e ∈ fragment st' ∧
     ∀ p, ids !! p = Some k → (∀ q, ids !! q = Some k → q = p) →
          indices st' !! index e = Some p) ∧
  (∀ p x, items !! p = Some x → id x ∉ (map st).*1 →
     (∀ q y, q < p → items !! q = Some y → id y ≠ id x) →
     ∃ e, (id x, e) ∈ map st' ∧ item e = x ∧
          length (indices st) ≤ index e ∧
          (∃ sst0 : ScopeTs.State,
             scope e = length (ScopeTs.heap sst0) ∧
             (mkChild x (index e) (entry_state currentScope sst0)).1 = Returned (child e) ∧
             (keeps_scopes mkChild → length (ScopeTs.heap (scopes st)) ≤ scope e)) ∧
          renders id (id x) evs = [(x, index e, Some (scope e))] ∧
          child e ∈ fragment st' ∧
          ((∀ q, ids !! q = Some (id x) → q = p) → indices st' !! index e = Some p)) ∧
  lists_outputs (map st') (Set_of ids) (fragment st') ∧
  Forall (λ c, instanceof_Fragment c = false) (fragment st') ∧
  scopes st' =
    scopes_after (length (indices st)) (scopes (sweep id cleanup items st))
      (new_items id (filter (λ kv, kv.1 ∈ ids) (map st)).*1 items).
Proof.
  intros (Hk & Hc & Hperm & Hi & Hil & Hs & Hsl) Hret Hout st' evs ids.
  pose proof (returned_eq _ Hret) as Hcb. fold st' in Hcb, Hout.
  pose proof Hcb as Hrun. unfold ForTs.callback in Hrun.
  destruct (callback_events _ _ _ Hcb) as (pevs & Hlog & Hevs & Hd & Ht & Hr).
  fold evs in Hlog, Hevs.
  destruct (callback_map _ _ _ Hcb) as (Hmap & Hkeys & Hsc).
  cbv zeta in Hmap, Hkeys, Hsc. fold ids in Hmap, Hkeys, Hsc.
  assert (Hok1 : index_ok (sweep id cleanup items st)) by (by apply sweep_index_ok).
  assert (Hk1 : NoDup (map (sweep id cleanup items st)).*1) by (by apply sweep_keys_NoDup).
  destruct (sweep_spec items st) as (_ & _ & _ & _ & Hfrag).
  assert (Hdisp : disposals evs =
                  (λ kv, scope kv.2) <$> filter (λ kv, kv.1 ∉ Set_of ids) (map st)).
  { by rewrite Hevs, disposals_app, Hd, app_nil_r, sweep_events_disposals. }
  split_and!.
  - done.
  - intros k e He Hnin. split_and!.
    + rewrite Hmap, fmap_app, Hkeys. intros Hin.
      apply elem_of_app in Hin as [Hin|Hin].
      * apply list_elem_of_fmap in Hin as (kv & -> & Hkv).
        by apply list_elem_of_filter in Hkv as [? _].
      * by apply new_items_keys in Hin as [? _].
    + rewrite Hdisp.
      apply (occurs_once (λ kv, scope kv.2) _ (k, e)).
      * eapply sublist_NoDup; [exact Hs|]. apply fmap_sublist, sublist_filter.
      * apply list_elem_of_filter. split; [|done]. simpl. by rewrite elem_of_Set_of.
    + intros sc Hsc'. by apply (sweep_disposed items st k e sc).
    + rewrite Hevs, teardowns_app, Ht, app_nil_r.
      apply (sweep_events_teardowns _ _ _ k); [done|done|].
      by rewrite elem_of_Set_of.
  - intros k e He Hin.
    destruct (callback_kept_entry _ _ _ k e Hcb He Hin) as [He' Hren].
    split_and!; [done|done| | |].
    + rewrite Hdisp.
      intros ([k' e'] & Heq & [Hk' He'']%list_elem_of_filter)%list_elem_of_fmap.
      simpl in *.
      assert ((k, e) = (k', e')) as [= -> ->].
      { by eapply (NoDup_fmap_same (λ kv : Key * MapItem, scope kv.2)). }
      apply Hk'. by apply elem_of_Set_of.
    + by apply (place_items_mounts items 0 _ _ k e Hrun Hk1 Hin).
    + intros p Hp Honce.
      apply (place_items_index_last items 0 _ _ k e p Hrun Hk1 Hok1 He' Hp).
      intros q Hq Hqk. specialize (Honce q Hqk). lia.
  - intros p x Hp Hnew Hfirst.
    destruct (callback_new_entry _ _ _ p x Hcb Hk Hp Hnew Hfirst)
      as (e & He' & Hit & Hsig & Hsc' & Hren).
    assert (Hxin : id x ∈ ids) by (apply list_elem_of_fmap_2; by eapply list_elem_of_lookup_2).
    exists e. split_and!; try done.
    + by apply (place_items_mounts items 0 _ _ (id x) e Hrun Hk1 Hxin).
    + intros Honce.
      apply (place_items_index_last items 0 _ _ (id x) e p Hrun Hk1 Hok1 He').
      * unfold ids. by rewrite list_lookup_fmap, Hp.
      * intros q Hq Hqk. specialize (Honce q Hqk). lia.
  - apply (place_items_fragment items 0 _ _ [] Hrun); [done|done|].
    rewrite (Hfrag Hperm). constructor.
  - apply (place_items_no_fragment items 0 _ _ Hrun). rewrite (Hfrag Hperm). constructor.
  - done.
Qed.

(** The output of the render function for a new key is a fragment: the
    entry is recorded, [fragment.addChild] throws, and the loop ends there,
    the output not mounted and the items after it not looked at. *)
Lemma nested_fragment_ends_the_pass (pre post : list Item) (x : Item) (st st1 : ForState)
  (c : El) :
  place_items pre 0 (sweep id cleanup (pre ++ x :: post) st) = (Returned tt, st1) →
  map_get (id x) (map st1) = None →
  (mkChild x (length (indices st1)) (entry_state currentScope (scopes st1))).1 = Returned c →
  instanceof_Fragment c = true →
  let st' := (callback (pre ++ x :: post) st).2 in
  (callback (pre ++ x :: post) st).1 = Threw nesting ∧
  map st' = map st1 ++ [(id x, mkMapItem x c (length (indices st1))
                                 (length (ScopeTs.heap (scopes st1))))] ∧
  fragment st' = fragment st1 ∧
  log st' = log st1 ++ [ScopeCreated (length (ScopeTs.heap (scopes st1))) currentScope;
                        Rendered x (length (indices st1))
                                 (Some (length (ScopeTs.heap (scopes st1))))].
Proof.
  intros Hpre Hg Hc Hfr st'. unfold st', ForTs.callback.
  rewrite place_items_app, Hpre. cbn [ForTs.place_items].
  rewrite (place_item_new _ _ _ Hg). cbv zeta. rewrite Hc, Hfr. done.
Qed.

Lemma place_items_keys items i st st' k :
  place_items items i st = (Returned tt, st') → k ∈ id <$> items → k ∈ (map st').*1.
Proof.
  intros Hrun Hk. destruct (place_items_map _ _ _ _ Hrun) as (-> & Hkeys & _).
  rewrite fmap_app, Hkeys, elem_of_app.
  destruct (decide (k ∈ (map st).*1)); [by left|right].
  by apply new_items_keys.
Qed.

(** C8, amended: in a pass that returns and whose input has the key of
    [x] again at a later item [y], placing [y] finds the key's entry and
    its output already in the fragment: it sets the index signal, logs the
    warning and does nothing else - no mount, no scope, no render - and the
    pass goes on.  After the pass the map holds exactly one entry for the
    key: if the key was tracked before the pass it is the entry tracked
    before and no scope was created for the key in this pass; otherwise it
    is the entry made from [x], the first occurrence, with the one scope and
    render call of the key. *)
Theorem duplicate_key_warns_and_is_skipped
  (pre mid post : list Item) (x y : Item) (st : ForState) :
  NoDup (map st).*1 → id y = id x → id x ∉ id <$> pre →
  (callback (pre ++ x :: mid ++ y :: post) st).1 = Returned tt →
  let items := pre ++ x :: mid ++ y :: post in
  let pos := length (pre ++ x :: mid) in
  let st' := (callback items st).2 in
  let evs := pass_events items st in
  (∃ st1 e,
     place_items (pre ++ x :: mid) 0 (sweep id cleanup items st) = (Returned tt, st1) ∧
     (id x, e) ∈ map st1 ∧ child e ∈ fragment st1 ∧
     place_item y pos st1 =
       (Returned tt,
        mkForState (map st1) (fragment st1) (<[index e := pos]> (indices st1))
                   (scopes st1) (log st1 ++ [IndexSet (index e) pos; Warned (id x)])) ∧
     place_items post (S pos)
       (mkForState (map st1) (fragment st1) (<[index e := pos]> (indices st1))
                   (scopes st1) (log st1 ++ [IndexSet (index e) pos; Warned (id x)])) =
       (Returned tt, st')) ∧
  id x ∈ warnings evs ∧
  ∃ e, filter (λ kv, kv.1 = id x) (map st') = [(id x, e)] ∧
       (id x ∈ (map st).*1 → (id x, e) ∈ map st ∧ renders id (id x) evs = []) ∧
       (id x ∉ (map st).*1 →
          item e = x ∧ renders id (id x) evs = [(x, index e, Some (scope e))]).
Proof.
  intros Hk Hyx Hpre Hret items pos st' evs.
  pose proof (returned_eq _ Hret) as Hcb. fold items st' in Hcb.
  assert (Hitems : items = (pre ++ x :: mid) ++ y :: post).
  { unfold items. by rewrite <- app_assoc. }
  assert (Hk1 : NoDup (map (sweep id cleanup items st)).*1) by (by apply sweep_keys_NoDup).
  assert (Hxin1 : id x ∈ id <$> (pre ++ x :: mid)).
  { rewrite fmap_app, fmap_cons, elem_of_app, elem_of_cons. auto. }
  assert (Hxin : id x ∈ id <$> items).
  { unfold items. rewrite fmap_app, fmap_cons, elem_of_app, elem_of_cons. auto. }
  pose proof Hcb as Hrun. unfold ForTs.callback in Hrun.
  rewrite Hitems in Hrun at 1. rewrite place_items_app in Hrun.
  destruct (place_items (pre ++ x :: mid) 0 (sweep id cleanup items st))
    as [[[]|msg] st1] eqn:Hrun1; [|done].
  fold pos in Hrun. rewrite Nat.add_0_l in Hrun.
  apply place_items_Returned_cons in Hrun as (st2 & Hstep & Hrun2).
  pose proof (place_items_keys _ _ _ _ (id x) Hrun1 Hxin1) as Hkey1.
  destruct (map_get_is_Some _ _ Hkey1) as [e1 Hg1].
  pose proof (map_get_Some _ _ _ Hg1) as He1.
  assert (Hc1 : child e1 ∈ fragment st1).
  { by apply (place_items_mounts (pre ++ x :: mid) 0 _ _ (id x) e1 Hrun1 Hk1 Hxin1). }
  assert (Hstep' : place_item y pos st1 =
            (Returned tt,
             mkForState (map st1) (fragment st1) (<[index e1 := pos]> (indices st1))
               (scopes st1) (log st1 ++ [IndexSet (index e1) pos; Warned (id x)]))).
  { rewrite <- Hyx in Hg1. rewrite (place_item_tracked _ _ _ _ Hg1).
    rewrite !decide_True by done. by rewrite Hyx. }
  rewrite Hstep' in Hstep. injection Hstep as <-.
  split_and!.
  - exists st1, e1. by split_and!.
  - destruct (callback_events _ _ _ Hcb) as (pevs & Hlog & _). fold evs in Hlog.
    destruct (place_items_quiet _ _ _ _ _ Hrun2) as ((evs2 & Hl2 & _) & _).
    destruct (place_items_quiet _ _ _ _ _ Hrun1) as ((evs1 & Hl1 & _) & _).
    destruct (sweep_spec items st) as (_ & _ & _ & Hl0 & _).
    simpl in Hl2. rewrite Hl1, Hl0, Hlog in Hl2.
    rewrite <- !app_assoc in Hl2. apply app_inv_head in Hl2. rewrite Hl2.
    unfold warnings. apply list_elem_of_omap. exists (Warned (id x)). split; [|done].
    rewrite !elem_of_app, !elem_of_cons. right. right. left. right. by left.
  - pose proof (callback_keys_NoDup _ _ _ Hcb Hk) as Hk'.
    destruct (decide (id x ∈ (map st).*1)) as [Hold|Hnew].
    + apply list_elem_of_fmap in Hold as Hold'. destruct Hold' as ([k0 e0] & Hk0 & He0).
      simpl in Hk0. subst k0.
      destruct (callback_kept_entry _ _ _ (id x) e0 Hcb He0 Hxin) as [He' Hren].
      exists e0. split_and!; [by apply filter_key_unique|done|done].
    + assert (Hp : items !! length pre = Some x).
      { unfold items. rewrite lookup_app_r by done. by rewrite Nat.sub_diag. }
      destruct (callback_new_entry _ _ _ (length pre) x Hcb Hk Hp Hnew)
        as (e & He' & Hit & _ & _ & Hren).
      { intros q y' Hq Hy' Heq. apply Hpre. rewrite <- Heq.
        unfold items in Hy'. rewrite lookup_app_l in Hy' by done.
        apply list_elem_of_fmap_2. by eapply list_elem_of_lookup_2. }
      exists e. split_and!; [by apply filter_key_unique|done|done].
Qed.

End For.

(** *** A run of [For] *)

Ltac by_computation :=
  lazymatch goal with |- ?P => apply (bool_decide_unpack P) end; vm_compute; exact I.

(** C1, as stated, fails: [For] has rendered keys 1, 2, 3 with
    [cleanup: null]; the input becomes 1, 3: no teardown call is made on
    the output of key 2. *)
Lemma null_cleanup_makes_no_teardown_call :
  ¬ removed_keys_torn_down fst demo_instanceof demo_render CleanupNull 0 [(1, 0); (3, 0)]
      (demo_rendered CleanupNull).
Proof.
  intros Hclaim.
  specialize (Hclaim 2 (mkMapItem (2, 0) 101 1 2)).
  assert (Hlen : length (teardowns 101
                   (pass_events fst demo_instanceof demo_render CleanupNull 0
                      [(1, 0); (3, 0)] (demo_rendered CleanupNull))) = 1).
  { apply Hclaim.
    - apply list_elem_of_lookup. exists 1. vm_compute. reflexivity.
    - by_computation. }
  vm_compute in Hlen. discriminate Hlen.
Qed.

(** C8, as stated, fails: [For] has rendered keys 1, 2, 3; the input
    becomes two items of key 1: no scope is created and no render call is
    made for key 1. *)
Lemma tracked_duplicate_creates_no_scope :
  ¬ one_scope_per_duplicated_key fst demo_instanceof demo_render CleanupUndefined 0
      [(1, 1); (1, 2)] (demo_rendered CleanupUndefined).
Proof.
  intros Hclaim. specialize (Hclaim 1 ltac:(vm_compute; lia)).
  vm_compute in Hclaim. discriminate Hclaim.
Qed.

Lemma demo_render_keeps_scopes : keeps_scopes demo_render.
Proof. intros it sig sst. simpl. lia. Defined.

Lemma demo_rendered_tracked cleanup : tracked (demo_rendered cleanup).
Proof.
  apply (callback_tracked fst demo_instanceof demo_render cleanup 0
           [(1, 0); (2, 0); (3, 0)] demo_start).
  - apply initial_tracked.
  - exact demo_render_keeps_scopes.
  - apply returned_eq. by destruct cleanup.
  - destruct cleanup; by_computation.
Defined.

(** The example of the specification: keys 1, 2, 3, then 3, 1. *)
Lemma callback_reconciles_witness :
  tracked (demo_rendered CleanupFunction) ∧
  (callback fst demo_instanceof demo_render CleanupFunction 0 [(3, 0); (1, 0)]
     (demo_rendered CleanupFunction)).1 = Returned tt ∧
  NoDup (children (map (callback fst demo_instanceof demo_render CleanupFunction 0
                          [(3, 0); (1, 0)] (demo_rendered CleanupFunction)).2)) ∧
  lists_outputs
    (map (callback fst demo_instanceof demo_render CleanupFunction 0 [(3, 0); (1, 0)]
            (demo_rendered CleanupFunction)).2)
    (Set_of (fst <$> [(3, 0); (1, 0)]))
    (fragment (callback fst demo_instanceof demo_render CleanupFunction 0 [(3, 0); (1, 0)]
                 (demo_rendered CleanupFunction)).2).
Proof.
  assert (Hret : (callback fst demo_instanceof demo_render CleanupFunction 0 [(3, 0); (1, 0)]
                    (demo_rendered CleanupFunction)).1 = Returned tt) by reflexivity.
  assert (Hnd : NoDup (children (map (callback fst demo_instanceof demo_render
                                        CleanupFunction 0 [(3, 0); (1, 0)]
                                        (demo_rendered CleanupFunction)).2)))
    by by_computation.
  split; [exact (demo_rendered_tracked CleanupFunction)|]. split; [exact Hret|].
  split; [exact Hnd|].
  pose proof (callback_reconciles fst demo_instanceof demo_render CleanupFunction 0
                [(3, 0); (1, 0)] (demo_rendered CleanupFunction)
                (demo_rendered_tracked CleanupFunction) Hret Hnd) as Hall.
  cbv zeta in Hall. exact (proj1 (proj2 (proj2 (proj2 (proj2 Hall))))).
Defined.

Example reorder_keeps_entries_and_sets_indices :
  let st := demo_rendered CleanupFunction in
  let st' := (callback fst demo_instanceof demo_render CleanupFunction 0
                [(3, 0); (1, 0)] st).2 in
  pass_events fst demo_instanceof demo_render CleanupFunction 0 [(3, 0); (1, 0)] st =
    [ChildRemoved 100; ChildRemoved 101; CleanupCalled 101 (2, 0) 1; ScopeDisposed 2;
     ChildRemoved 102; IndexSet 2 0; ChildAdded 102; IndexSet 0 1; ChildAdded 100] ∧
  fragment st' = [102; 100] ∧ indices st' = [1; 1; 0] ∧
  map st' = [(1, mkMapItem (1, 0) 100 0 1); (3, mkMapItem (3, 0) 102 2 3)].
Proof. vm_compute. repeat split. Qed.

(** A render function that calls [onMount] and [onCleanup]: the first
    pass runs inside the scope [For] was called in, which is not mounted
    yet, so the mount callback goes to that scope; the cleanup callback
    stays with the scope of the entry. *)
Example render_hooks_reach_the_scopes :
  let st' := (callback fst demo_instanceof demo_render_hooks CleanupUndefined 0
                [(1, 0); (2, 0)] demo_start).2 in
  (callback fst demo_instanceof demo_render_hooks CleanupUndefined 0
     [(1, 0); (2, 0)] demo_start).1 = Returned tt ∧
  ScopeTs.heap (scopes st') =
    [ScopeTs.mkScope None ∅ [] [9] false;
     ScopeTs.mkScope (Some 0) ∅ [8] [] true;
     ScopeTs.mkScope (Some 0) ∅ [8] [] true] ∧
  ScopeTs.current (scopes st') = Some 0 ∧ fragment st' = [100; 101].
Proof. vm_compute. repeat split. Qed.

(** The render function returns a fragment for key 2: the pass throws at
    that item; key 2 is in the map but not mounted, and key 3 was never
    looked at. *)
Example nested_fragment_pass_throws :
  let r := callback fst demo_instanceof demo_render_nested CleanupUndefined 0
             [(1, 0); (2, 0); (3, 0)] demo_start in
  r.1 = Threw "nesting Fragments are not yet supported" ∧
  map r.2 = [(1, mkMapItem (1, 0) 100 0 1); (2, mkMapItem (2, 0) 0 1 2)] ∧
  fragment r.2 = [100] ∧
  log r.2 = [ScopeCreated 1 0; Rendered (1, 0) 0 (Some 1); ChildAdded 100;
             ScopeCreated 2 0; Rendered (2, 0) 1 (Some 2)].
Proof. vm_compute. repeat split. Qed.

Lemma duplicate_key_warns_and_is_skipped_witness :
  NoDup (map demo_start).*1 ∧
  fst (1, 2) = fst (1, 1) ∧
  (fst (1, 1) ∉ fst <$> [(5, 0)]) ∧
  (callback fst demo_instanceof demo_render CleanupUndefined 0
     ([(5, 0)] ++ (1, 1) :: [(6, 0)] ++ (1, 2) :: []) demo_start).1 = Returned tt ∧
  fst (1, 1) ∈ warnings (pass_events fst demo_instanceof demo_render CleanupUndefined 0
                 ([(5, 0)] ++ (1, 1) :: [(6, 0)] ++ (1, 2) :: []) demo_start).
Proof.
  assert (H1 : NoDup (map demo_start).*1) by constructor.
  assert (H3 : fst (1, 1) ∉ fst <$> [(5, 0)]) by by_computation.
  assert (H4 : (callback fst demo_instanceof demo_render CleanupUndefined 0
                  ([(5, 0)] ++ (1, 1) :: [(6, 0)] ++ (1, 2) :: []) demo_start).1 =
               Returned tt) by reflexivity.
  split; [exact H1|]. split; [reflexivity|]. split; [exact H3|]. split; [exact H4|].
  pose proof (duplicate_key_warns_and_is_skipped fst demo_instanceof demo_render
                CleanupUndefined 0 [(5, 0)] [(6, 0)] [] (1, 1) (1, 2) demo_start
                H1 eq_refl H3 H4) as Hall.
  cbv zeta in Hall. exact (proj1 (proj2 Hall)).
Defined.

Example duplicate_new_key_run :
  pass_events fst demo_instanceof demo_render CleanupUndefined 0
    [(5, 0); (1, 1); (6, 0); (1, 2)] demo_start =
    [ScopeCreated 1 0; Rendered (5, 0) 0 (Some 1); ChildAdded 100;
     ScopeCreated 2 0; Rendered (1, 1) 1 (Some 2); ChildAdded 101;
     ScopeCreated 3 0; Rendered (6, 0) 2 (Some 3); ChildAdded 102;
     IndexSet 1 3; Warned 1].
Proof. vm_compute. reflexivity. Qed.

(** A fragment rendered before the duplicate: the pass throws there and
    the duplicate is never reached, so no warning is logged. *)
Example nested_fragment_before_duplicate :
  let r := callback fst demo_instanceof demo_render_nested CleanupUndefined 0
             [(2, 0); (1, 1); (1, 2)] demo_start in
  r.1 = Threw "nesting Fragments are not yet supported" ∧
  warnings (pass_events fst demo_instanceof demo_render_nested CleanupUndefined 0
              [(2, 0); (1, 1); (1, 2)] demo_start) = [].
Proof. vm_compute. repeat split. Qed.

End ForFacts.


(** ** The optional-value reconciler *)

Module WithFacts.
Import WithTs.

Section With.
Context {T El : Type} `{EqDecision El}.
Variable instanceof_Fragment : El → bool.
Variable mkChild : T → ScopeTs.State → outcome (option El) * ScopeTs.State.
Variable cleanup : ForTs.cleanup_prop.
Variable currentScope : nat.

Local Abbreviation callback :=
  (WithTs.callback instanceof_Fragment mkChild cleanup currentScope).
Local Abbreviation render_new := (WithTs.render_new mkChild currentScope).
Local Abbreviation entry_state := (ForTs.entry_state currentScope).
Local Abbreviation nesting := "nesting Fragments are not yet supported"%string.

Implicit Types (st : @WithState T El) (v : T) (c : El).

(** The render call: the render function is called on [entry_state], and
    the completion of [run] follows. *)
Lemma With_render_new_eq v (sst : ScopeTs.State) :
  render_new v sst =
    (match (mkChild v (entry_state sst)).1 with
     | Returned ch => Returned (ch, Some (length (ScopeTs.heap sst)))
     | Threw msg => Threw msg
     end,
     length (ScopeTs.heap sst),
     ScopeTs.run_finally (length (ScopeTs.heap sst)) (ScopeTs.current sst)
       (mkChild v (entry_state sst)).2).
Proof.
  unfold WithTs.render_new, ScopeTs.new_Scope, ScopeTs.Scope_run, ForTs.entry_state,
    ForTs.child_scope.
  simpl. by destruct (mkChild v _) as [[ch|msg] x'].
Qed.

(** What [callback] does after the loop. *)
Lemma callback_render v st :
  let st1 := foldl (unmount_child (T := T) cleanup) st (fragment st) in
  let s := length (ScopeTs.heap (scopes st1)) in
  let sst' := (render_new v (scopes st1)).2 in
  let lg := log st1 ++ [ScopeCreated s currentScope; Rendered v (Some s)] in
  callback v st =
    match (mkChild v (entry_state (scopes st1))).1 with
    | Returned (Some c) =>
      if instanceof_Fragment c
      then (Threw nesting, mkWithState (fragment st1) (Some s) sst' lg)
      else (Returned tt, mkWithState (fragment st1 ++ [c]) (Some s) sst' (lg ++ [ChildAdded c]))
    | Returned None => (Returned tt, mkWithState (fragment st1) (Some s) sst' lg)
    | Threw msg =>
      (Threw msg,
       mkWithState (fragment st1) (Some s) sst' (log st1 ++ [ScopeCreated s currentScope]))
    end.
Proof.
  intros st1 s sst' lg. unfold WithTs.callback. fold st1.
  unfold sst'. rewrite With_render_new_eq. fold s. simpl.
  destruct (mkChild v (entry_state (scopes st1))) as [[[c|]|msg] x']; simpl; try done.
  unfold FragmentTs.addChild. by destruct (instanceof_Fragment c).
Qed.

Lemma removeChild_only c : FragmentTs.removeChild c [c] = [].
Proof. unfold FragmentTs.removeChild, FragmentTs.findIndex. simpl. by rewrite decide_True. Qed.

(** The loop of [callback] with one output mounted: the output is
    unmounted and torn down by the [cleanup] convention, and the scope held
    is disposed. *)
Lemma unmount_one_mounted st c s :
  fragment st = [c] → scope st = Some s →
  foldl (unmount_child (T := T) cleanup) st (fragment st) =
    mkWithState [] (Some s) (ScopeTs.Scope_dispose s (scopes st))
      (log st ++ [ChildRemoved c] ++
       match cleanup with
       | ForTs.CleanupFunction => [CleanupCalled c]
       | ForTs.CleanupUndefined => [DefaultCleanupCalled c]
       | ForTs.CleanupNull => []
       end ++ [ScopeDisposed s]).
Proof.
  intros Hf Hs. rewrite Hf. simpl. unfold unmount_child. rewrite Hs, Hf, removeChild_only.
  destruct cleanup; simpl; by rewrite <- ?app_assoc.
Qed.

(** With one output mounted, a change unmounts it, tears it down,
    disposes the scope held, and then makes the new scope and calls the
    render function. *)
Lemma callback_one_mounted v st c s :
  fragment st = [c] → scope st = Some s →
  scopes (callback v st).2 = (render_new v (ScopeTs.Scope_dispose s (scopes st))).2 ∧
  ∃ evs, log (callback v st).2 =
    log st ++ [ChildRemoved c] ++
    match cleanup with
    | ForTs.CleanupFunction => [CleanupCalled c]
    | ForTs.CleanupUndefined => [DefaultCleanupCalled c]
    | ForTs.CleanupNull => []
    end ++ [ScopeDisposed s] ++
    ScopeCreated (length (ScopeTs.heap (scopes st))) currentScope :: evs.
Proof.
  intros Hf Hs. rewrite callback_render. cbv zeta.
  rewrite (unmount_one_mounted st c s Hf Hs). simpl.
  assert (Hlen : length (ScopeTs.heap (ScopeTs.Scope_dispose s (scopes st))) =
                 length (ScopeTs.heap (scopes st))).
  { unfold ScopeTs.Scope_dispose. destruct (ScopeTs.heap (scopes st) !! s); [|done].
    simpl. by rewrite length_insert. }
  rewrite Hlen.
  destruct (mkChild v _).1 as [[c'|]|msg]; [destruct (instanceof_Fragment c')| |]; simpl;
    (split; [done|]); eexists; destruct cleanup; simpl; rewrite <- ?app_assoc; simpl;
    reflexivity.
Qed.

(** With nothing mounted - the previous render returned an empty value -
    the loop body does not run: a change only makes the new scope and
    calls the render function on the scopes as they are, and no scope is
    disposed. *)
Lemma callback_nothing_mounted v st :
  fragment st = [] →
  scopes (callback v st).2 = (render_new v (scopes st)).2 ∧
  ∃ evs, log (callback v st).2 =
           log st ++ ScopeCreated (length (ScopeTs.heap (scopes st))) currentScope :: evs ∧
         ∀ s, ScopeDisposed s ∉ evs.
Proof.
  intros Hf. rewrite callback_render. cbv zeta. rewrite Hf. simpl.
  destruct (mkChild v _).1 as [[c'|]|msg]; [destruct (instanceof_Fragment c')| |]; simpl;
    (split; [done|]); eexists; (split; [rewrite <- ?app_assoc; simpl; reflexivity|]);
    intros s Hin; repeat (apply elem_of_cons in Hin as [Hin|Hin]; [done|]);
    by apply elem_of_nil in Hin.
Qed.

End With.

(** C4: the value is first [false], and the render function, which
    registered cleanup 9, returned nothing; the value becomes [true].  The
    second call of [callback] does not dispose the first scope: no
    [ScopeDisposed] is logged, cleanup 9 has not run and is still
    registered, and [With] no longer holds that scope. *)
Theorem empty_render_scope_not_disposed :
  let st1 := (callback demo_instanceof demo_child ForTs.CleanupUndefined 0 false demo_start).2 in
  let st2 := (callback demo_instanceof demo_child ForTs.CleanupUndefined 0 true st1).2 in
  scope st1 = Some 1 ∧ fragment st1 = [] ∧
  log st2 = log st1 ++ [ScopeCreated 2 0; Rendered true (Some 2); ChildAdded 7] ∧
  scope st2 = Some 2 ∧
  ScopeTs.trace (scopes st2) = [] ∧
  ScopeTs.cleanups <$> (ScopeTs.heap (scopes st2) !! 1) = Some [9].
Proof. vm_compute. repeat split. Qed.

(** The same change after a render that returned an output disposes the
    scope and runs the cleanup. *)
Example mounted_render_scope_disposed :
  let st1 := (callback demo_instanceof demo_child ForTs.CleanupUndefined 0 true demo_start).2 in
  let st2 := (callback demo_instanceof demo_child ForTs.CleanupUndefined 0 true st1).2 in
  log st2 = log st1 ++ [ChildRemoved 7; DefaultCleanupCalled 7; ScopeDisposed 1;
                        ScopeCreated 2 0; Rendered true (Some 2); ChildAdded 7] ∧
  ScopeTs.trace (scopes st2) = [ScopeTs.CleanupRan 9].
Proof. vm_compute. repeat split. Qed.

(** The render function returns a fragment: [fragment.addChild] throws
    when the old output has been taken out already, so the fragment is left
    empty, with the new scope held. *)
Example nested_fragment_output_throws :
  let st1 := (callback demo_instanceof demo_child_nested ForTs.CleanupUndefined 0 1
                demo_start_nested).2 in
  let r := callback demo_instanceof demo_child_nested ForTs.CleanupUndefined 0 2 st1 in
  fragment st1 = [7] ∧
  r.1 = Threw "nesting Fragments are not yet supported" ∧
  fragment r.2 = [] ∧ scope r.2 = Some 2 ∧
  log r.2 = log st1 ++ [ChildRemoved 7; DefaultCleanupCalled 7; ScopeDisposed 1;
                        ScopeCreated 2 0; Rendered 2 (Some 2)].
Proof. vm_compute. repeat split. Qed.

End WithFacts.


(** ** Property names *)

Module UtilFacts.
Import Stdlib.Strings.Ascii Stdlib.Strings.String.
Import UtilTs UtilTsNames.

Ltac each_char c := destruct c as [[] [] [] [] [] [] [] []]; vm_compute; try done.

Lemma map_chars_compose f g s : map_chars f (map_chars g s) = map_chars (λ c, f (g c)) s.
Proof. induction s as [|c s IH]; simpl; [done|]. by rewrite IH. Qed.

Lemma map_chars_ext f g s : (∀ c, f c = g c) → map_chars f s = map_chars g s.
Proof. intros Hfg. induction s as [|c s IH]; simpl; [done|]. by rewrite Hfg, IH. Qed.

Lemma map_chars_id f s : all_chars (λ c, bool_decide (f c = c)) s = true → map_chars f s = s.
Proof.
  induction s as [|c s IH]; simpl; [done|]. intros [Hc Hs]%andb_true_iff.
  apply bool_decide_eq_true in Hc. by rewrite Hc, IH.
Qed.

Lemma all_chars_map_chars p f s : all_chars p (map_chars f s) = all_chars (λ c, p (f c)) s.
Proof. induction s as [|c s IH]; simpl; [done|]. by rewrite IH. Qed.

Lemma all_chars_true p s : (∀ c, p c = true) → all_chars p s = true.
Proof. intros Hp. induction s as [|c s IH]; simpl; [done|]. by rewrite Hp, IH. Qed.

Lemma all_chars_impl (p q : ascii → bool) s :
  (∀ c, p c = true → q c = true) → all_chars p s = true → all_chars q s = true.
Proof.
  intros Hpq. induction s as [|c s IH]; simpl; [done|].
  intros [Hc Hs]%andb_true_iff. by rewrite (Hpq _ Hc), IH.
Qed.

(** Without a capital letter there is nothing for the first [replace] to
    match. *)
Lemma replace_lower_upper_no_upper s :
  all_chars (λ c, negb (is_upper c)) s = true → replace_lower_upper s = s.
Proof.
  induction s as [|c1 s IH]; [done|]. intros [Hc Hs]%andb_true_iff.
  cbn [replace_lower_upper]. destruct s as [|c2 s']; [done|].
  pose proof Hs as Hs0. cbn [all_chars] in Hs. apply andb_true_iff in Hs as [Hc2 _].
  apply negb_true_iff in Hc2. rewrite Hc2, andb_false_r.
  f_equal. by apply IH.
Qed.

Lemma kebabify_chars s : all_chars kebab_char (kebabify s) = true.
Proof.
  unfold kebabify, toLowerCase, replaceAll. rewrite map_chars_compose, all_chars_map_chars.
  apply all_chars_true. intros c. each_char c.
Qed.

Lemma kebabify_fixed s : all_chars kebab_char s = true → kebabify s = s.
Proof.
  intros Hs. unfold kebabify, toLowerCase, replaceAll.
  rewrite replace_lower_upper_no_upper, map_chars_compose.
  - apply map_chars_id. revert Hs. apply all_chars_impl. intros c. each_char c.
  - revert Hs. apply all_chars_impl. intros c. each_char c.
Qed.

(** X1: [kebabify] gives a string with no capital letter and no
    underscore, and such a string is left as it is: [kebabify] is
    idempotent. *)
Theorem kebabify_idempotent (s : string) :
  ascii_only s →
  all_chars (λ c, negb (is_upper c) && negb (Ascii.eqb c "_")) (kebabify s) = true ∧
  kebabify (kebabify s) = kebabify s.
Proof.
  intros _. split; [apply kebabify_chars|]. apply kebabify_fixed, kebabify_chars.
Qed.

Lemma kebabify_idempotent_witness :
  ascii_only "maxWidth_chars" ∧ kebabify "maxWidth_chars" = "max-width-chars" ∧
  kebabify (kebabify "maxWidth_chars") = kebabify "maxWidth_chars".
Proof.
  assert (H : ascii_only "maxWidth_chars") by (repeat constructor).
  split; [exact H|]. split; [reflexivity|]. exact (proj2 (kebabify_idempotent _ H)).
Defined.

Lemma snakeify_kebabify s : replaceAll "-" "_" (kebabify s) = snakeify s.
Proof.
  unfold kebabify, snakeify, toLowerCase, replaceAll. rewrite !map_chars_compose.
  apply map_chars_ext. intros c. each_char c.
Qed.

(** X2: the getter that [definePropertyGetter] defines for a property is
    the one [set] and the [get] of [createBinding] look for. *)
Theorem getter_names_agree (prop : string) :
  ascii_only prop →
  definePropertyGetter_name prop = set_getter prop ∧
  createBinding_getter prop = set_getter prop.
Proof.
  intros _. unfold definePropertyGetter_name, createBinding_getter, set_getter.
  by rewrite snakeify_kebabify.
Qed.

Lemma getter_names_agree_witness :
  ascii_only "maxWidthChars" ∧ set_getter "maxWidthChars" = "get_max_width_chars" ∧
  definePropertyGetter_name "maxWidthChars" = set_getter "maxWidthChars".
Proof.
  assert (H : ascii_only "maxWidthChars") by (repeat constructor).
  split; [exact H|]. split; [reflexivity|]. exact (proj1 (getter_names_agree _ H)).
Defined.

Lemma kebabify_cons_match c1 c2 s :
  is_lower c1 = true → is_upper c2 = true →
  kebabify (String c1 (String c2 s)) =
  String c1 (String "-" (String (toLowerCase_char c2) (kebabify s))).
Proof.
  intros H1 H2. unfold kebabify. cbn [replace_lower_upper]. rewrite H1, H2.
  unfold toLowerCase, replaceAll. cbn [map_chars andb].
  assert (Hc1 : toLowerCase_char (if Ascii.eqb c1 "_" then "-"%char else c1) = c1)
    by (revert H1; each_char c1).
  assert (Hc2 : toLowerCase_char (if Ascii.eqb c2 "_" then "-"%char else c2)
                = toLowerCase_char c2) by (revert H2; each_char c2).
  by rewrite Hc1, Hc2.
Qed.

Lemma kebabify_cons_plain c s :
  (match s with String c2 _ => is_lower c && is_upper c2 | EmptyString => false end) = false →
  kebabify (String c s) =
  String (toLowerCase_char (if Ascii.eqb c "_" then "-"%char else c)) (kebabify s).
Proof.
  intros H. unfold kebabify. cbn [replace_lower_upper]. destruct s as [|c2 s']; [done|].
  rewrite H. unfold toLowerCase, replaceAll. cbn [map_chars]. done.
Qed.

Lemma camel_round_trip_aux s :
  (camel_from false s = true → camelify (kebabify s) = s) ∧
  (∀ c, camel_from false (String c s) = true → camelify (kebabify (String c s)) = String c s).
Proof.
  induction s as [|c2 s IH].
  - split; [done|]. intros c. simpl. rewrite !andb_true_r, orb_false_r.
    intros [Hs Hu]%andb_true_iff. revert Hs Hu. each_char c.
  - destruct IH as [IH1 IH2]. split; [apply IH2|].
    intros c1 Hc. cbn [camel_from] in Hc.
    apply andb_true_iff in Hc as [Hc1 Hrest].
    apply andb_true_iff in Hc1 as [Hsep1 Hup1]. rewrite orb_false_r in Hup1.
    apply andb_true_iff in Hrest as [Hc2 Hs].
    apply andb_true_iff in Hc2 as [Hsep2 Hup2].
    destruct (is_lower c1 && is_upper c2) eqn:Hm.
    + apply andb_true_iff in Hm as [Hl1 Hu2].
      rewrite kebabify_cons_match by done.
      assert (Hl2 : is_lower c2 = false) by (revert Hu2; each_char c2).
      rewrite Hl2 in Hs.
      cbn [camelify]. assert (is_dash_or_underscore c1 = false) as -> by by apply negb_true_iff.
      cbn [is_dash_or_underscore Ascii.eqb]. simpl.
      assert (is_line_terminator (toLowerCase_char c2) = false) as ->
        by (revert Hu2; each_char c2).
      rewrite (IH1 Hs). f_equal. f_equal. revert Hu2. each_char c2.
    + rewrite kebabify_cons_plain by done.
      assert (Hu2 : is_upper c2 = false).
      { destruct (is_upper c2) eqn:Hu2; [|done]. simpl in Hup2.
        rewrite Hup2 in Hm. done. }
      assert (Hcam : camel_from false (String c2 s) = true).
      { cbn [camel_from]. rewrite Hsep2, Hu2, Hs. done. }
      assert (Hc1' : toLowerCase_char (if Ascii.eqb c1 "_" then "-"%char else c1) = c1)
        by (revert Hsep1 Hup1; each_char c1).
      rewrite Hc1'. cbn [camelify].
      assert (is_dash_or_underscore c1 = false) as -> by by apply negb_true_iff.
      by rewrite (IH2 c2 Hcam).
Qed.

(** X3: on a camelCase name [camelify] undoes [kebabify]. *)
Theorem camelify_kebabify (s : string) :
  ascii_only s → camelCase s = true → camelify (kebabify s) = s.
Proof. intros _. apply camel_round_trip_aux. Qed.

Lemma camelify_kebabify_witness :
  ascii_only "maxWidthChars" ∧ kebabify "maxWidthChars" = "max-width-chars" ∧
  camelify (kebabify "maxWidthChars") = "maxWidthChars".
Proof.
  assert (H : ascii_only "maxWidthChars") by (repeat constructor).
  split; [exact H|]. split; [reflexivity|]. exact (camelify_kebabify _ H eq_refl).
Defined.

End UtilFacts.

(** ** Children of a fragment *)

Module FragmentFacts.
Import FragmentTs FragmentSignals.
Section Fragment.
Context {T : Type} `{EqDecision T}.
Variable instanceof_Fragment : T → bool.
Implicit Types (child x : T) (children l : list T).

Lemma findIndex_first child l1 l2 :
  child ∉ l1 → findIndex child (l1 ++ child :: l2) = Some (length l1).
Proof.
  intros Hn. unfold findIndex.
  assert (list_find (λ ch, ch = child) (l1 ++ child :: l2) = Some (length l1, child)) as ->;
    [|done].
  apply list_find_Some. split_and!.
  - by rewrite list_lookup_middle.
  - done.
  - intros j y Hj Hlt. rewrite lookup_app_l in Hj by done.
    intros ->. apply Hn. by eapply list_elem_of_lookup_2.
Qed.

Lemma findIndex_absent child l : child ∉ l → findIndex child l = None.
Proof.
  intros Hn. unfold findIndex.
  assert (list_find (λ ch, ch = child) l = None) as ->; [|done].
  apply list_find_None. apply Forall_forall. intros y Hy ->. done.
Qed.

Lemma delete_middle {A} (l1 l2 : list A) (a : A) : delete (length l1) (l1 ++ a :: l2) = l1 ++ l2.
Proof. induction l1 as [|b l1 IH]; simpl; [done|]. by rewrite IH. Qed.

(** X4: [removeChild] of a child the fragment holds takes out its first
    occurrence and nothing else, and emits that position. *)
Theorem removeChild_first_occurrence child l1 l2 :
  child ∉ l1 →
  removeChild child (l1 ++ child :: l2) = l1 ++ l2 ∧
  removeChild_emitted child (l1 ++ child :: l2) = Z.of_nat (length l1).
Proof.
  intros Hn. unfold removeChild, removeChild_emitted.
  rewrite (findIndex_first _ _ _ Hn). split; [apply delete_middle|done].
Qed.

(** X5: [removeChild] of a child the fragment does not hold takes out
    the last child, and emits [-1]. *)
Theorem removeChild_absent_takes_last child l x :
  child ∉ l ++ [x] →
  removeChild child (l ++ [x]) = l ∧
  hasChild child (l ++ [x]) = false ∧
  removeChild_emitted child (l ++ [x]) = (-1)%Z.
Proof.
  intros Hn. unfold removeChild, removeChild_emitted, hasChild.
  rewrite (findIndex_absent _ _ Hn). split; [|done]. apply removelast_last.
Qed.

Lemma addChild_split child index children :
  instanceof_Fragment child = false →
  addChild instanceof_Fragment child index children =
  Returned (take (addChild_position index children) children ++
            child :: drop (addChild_position index children) children).
Proof.
  intros Hi. unfold addChild, addChild_position. rewrite Hi. case_decide as Hpos.
  - destruct (decide (Z.to_nat index ≤ length children)) as [Hle|Hgt].
    + by rewrite Nat.min_l by done.
    + rewrite Nat.min_r by lia. rewrite !take_ge, !drop_ge by lia. done.
  - by rewrite take_ge, drop_ge by lia.
Qed.

(** X6: [addChild(child, index)] throws for a child that is a fragment,
    and nothing is emitted.  Any other child it puts at position [index]
    when [0 < index <= length], and at the end otherwise - also for
    [index = 0]; the other children keep their order, so the first child of
    a fragment that has one stays first.  The index it emits is the child's
    position unless [index] is past the end. *)
Theorem addChild_places child index children :
  let p := addChild_position index children in
  let nesting := "nesting Fragments are not yet supported"%string in
  (instanceof_Fragment child = true →
     addChild instanceof_Fragment child index children = Threw nesting ∧
     addChild_emitted instanceof_Fragment child index children = Threw nesting) ∧
  (instanceof_Fragment child = false →
     ∃ l, addChild instanceof_Fragment child index children = Returned l ∧
       l !! p = Some child ∧
       delete p l = children ∧
       (children ≠ [] → head l = head children) ∧
       ((index ≤ Z.of_nat (length children))%Z →
          addChild_emitted instanceof_Fragment child index children = Returned (Z.of_nat p)) ∧
       ((index ≤ 0)%Z → l = children ++ [child])).
Proof.
  intros p nesting. split.
  - intros Hi. unfold addChild, addChild_emitted. by rewrite Hi.
  - intros Hi. rewrite (addChild_split _ _ _ Hi). fold p. eexists. split; [done|].
    assert (Hp : p ≤ length children).
    { unfold p, addChild_position. case_decide; lia. }
    assert (Hlen : length (take p children) = p) by (rewrite length_take; lia).
    split_and!.
    + rewrite <- Hlen at 1. by rewrite list_lookup_middle.
    + rewrite <- Hlen at 1. by rewrite delete_middle, take_drop.
    + intros Hne. destruct children as [|a l]; [done|].
      unfold p, addChild_position. case_decide as Hpos; simpl.
      * destruct (Z.to_nat index) as [|k] eqn:Hk; [lia|]. done.
      * done.
    + intros Hle. unfold addChild_emitted, p, addChild_position. rewrite Hi. case_decide.
      * rewrite Nat.min_l by lia. f_equal. lia.
      * rewrite length_app. simpl. f_equal. lia.
    + intros Hle. unfold p, addChild_position. rewrite decide_False by lia.
      by rewrite take_ge, drop_ge by lia.
Qed.

(** X7: adding a child that is not a fragment and that the fragment does
    not hold, and removing it again, gives the children back, whatever the
    index; in between [hasChild] answers [true]. *)
Theorem addChild_removeChild child index children :
  child ∉ children → instanceof_Fragment child = false →
  ∃ l, addChild instanceof_Fragment child index children = Returned l ∧
    hasChild child l = true ∧
    removeChild child l = children.
Proof.
  intros Hn Hi. rewrite (addChild_split _ _ _ Hi). eexists. split; [done|].
  set (p := addChild_position index children).
  assert (Hn1 : child ∉ take p children).
  { intros (i & Hlk & _)%elem_of_take. apply Hn. by eapply list_elem_of_lookup_2. }
  split.
  - unfold hasChild. by rewrite (findIndex_first _ _ _ Hn1).
  - unfold removeChild. rewrite (findIndex_first _ _ _ Hn1).
    by rewrite delete_middle, take_drop.
Qed.

End Fragment.

Ltac decided :=
  lazymatch goal with |- ?P => apply (bool_decide_unpack P) end; vm_compute; exact I.

Lemma removeChild_first_occurrence_witness :
  (2 ∉ [1]) ∧ removeChild 2 ([1] ++ 2 :: [3; 2]) = [1; 3; 2].
Proof.
  assert (H : 2 ∉ [1]) by decided.
  split; [exact H|]. exact (proj1 (removeChild_first_occurrence 2 [1] [3; 2] H)).
Defined.

Lemma removeChild_absent_takes_last_witness :
  (9 ∉ [1; 2] ++ [3]) ∧ removeChild 9 ([1; 2] ++ [3]) = [1; 2].
Proof.
  assert (H : 9 ∉ [1; 2] ++ [3]) by decided.
  split; [exact H|]. exact (proj1 (removeChild_absent_takes_last 9 [1; 2] 3 H)).
Defined.

Lemma addChild_removeChild_witness :
  (9 ∉ [1; 2; 3]) ∧ ForTs.demo_instanceof 9 = false ∧
  ∃ l, addChild ForTs.demo_instanceof 9 1 [1; 2; 3] = Returned l ∧
    hasChild 9 l = true ∧ removeChild 9 l = [1; 2; 3].
Proof.
  assert (H : 9 ∉ [1; 2; 3]) by decided.
  split; [exact H|]. split; [reflexivity|].
  exact (addChild_removeChild ForTs.demo_instanceof 9 1 [1; 2; 3] H eq_refl).
Defined.

(** A fragment as the child: nothing is added. *)
Example addChild_fragment_throws :
  addChild ForTs.demo_instanceof 0 (-1) [1; 2; 3]
    = Threw "nesting Fragments are not yet supported".
Proof. reflexivity. Qed.

End FragmentFacts.

(** ** Scopes: contexts, disposal, roots *)

Module ScopeLaws.
Import ScopeTs ScopeUses ScopeFacts.

Lemma strict_ne_true a b : a ≠ b → strict_ne a b = true.
Proof. intros H. unfold strict_ne. by apply bool_decide_eq_true. Qed.

Lemma strict_ne_refl a : strict_ne a a = false.
Proof. unfold strict_ne. by apply bool_decide_eq_false; intros H. Qed.

Lemma use_from_provider h ctx d :
  wf h → ∀ s v, provider h ctx s v → ∀ f, s < f → use_from f (Some s) ctx d h = Some v.
Proof.
  intros Hwf s v Hp. induction Hp as [s sc v Hs Hv Hne|s sc p v Hs Hv Hpar Hp IH]; intros f Hf.
  - rewrite (use_from_step h ctx d f f s sc Hwf Hs Hf ltac:(lia)).
    rewrite Hv. by rewrite strict_ne_true.
  - rewrite (use_from_step h ctx d f f s sc Hwf Hs Hf ltac:(lia)).
    rewrite Hv, strict_ne_refl, Hpar. apply IH.
    pose proof (Hwf _ _ _ Hs Hpar). lia.
Qed.

Lemma use_provider st ctx d v s :
  wf (heap st) → current st = Some s → provider (heap st) ctx s v →
  use ctx d st = Some v.
Proof.
  intros Hwf Hcur Hp. unfold use. rewrite Hcur.
  apply use_from_provider; [done|done|].
  inversion Hp; subst; by eapply lookup_lt_Some.
Qed.

(** X8: [use] returns the value of the nearest scope, going up from the
    current one, that maps the context to something other than
    [undefined]: an inner value shadows the outer ones. *)
Theorem use_returns_nearest_value (st : State) (ctx : nat) (defaultValue v : value) (s : nat) :
  wf (heap st) → current st = Some s → provider (heap st) ctx s v →
  use ctx defaultValue st = Some v.
Proof. apply use_provider. Qed.

Lemma child_of_provider_wf : wf (heap child_of_provider).
Proof.
  intros s sc p Hs Hp. destruct s as [|[|s]]; simpl in Hs; simplify_eq; simpl in Hp;
    simplify_eq. lia.
Defined.

Lemma use_returns_nearest_value_witness :
  provider (heap child_of_provider) 3 1 (VNum 5) ∧
  use 3 (VNum 0) child_of_provider = Some (VNum 5).
Proof.
  assert (Hp : provider (heap child_of_provider) 3 1 (VNum 5)).
  { eapply provider_above; [reflexivity|reflexivity|reflexivity|].
    eapply provider_here; [reflexivity|reflexivity|discriminate]. }
  split; [exact Hp|].
  exact (use_returns_nearest_value child_of_provider 3 (VNum 0) (VNum 5) 1
           child_of_provider_wf eq_refl Hp).
Defined.


Lemma wf_insert h s sc sc' :
  wf h → h !! s = Some sc → parent sc' = parent sc → wf (<[s := sc']> h).
Proof.
  intros Hwf Hs Hpar u usc p Hu Hp.
  destruct (decide (u = s)) as [->|Hne].
  - rewrite list_lookup_insert_eq in Hu by (by eapply lookup_lt_Some).
    simplify_eq. rewrite Hpar in Hp. eauto.
  - rewrite list_lookup_insert_ne in Hu by done. eauto.
Qed.

(** X9: inside [provide(value, fn)], with a value other than [undefined],
    [use] returns that value, in the providing scope and in a scope
    created under it. *)
Theorem provide_then_use (st : State) (ctx : nat) (v defaultValue : value)
  (s : nat) (sc : Scope) :
  wf (heap st) → current st = Some s → heap st !! s = Some sc → v ≠ VUndefined →
  (provide ctx v (use_fn ctx defaultValue) st).1 = Returned (Some v) ∧
  (provide ctx v (use_in_child ctx defaultValue) st).1 = Returned (Some v).
Proof.
  intros Hwf Hcur Hs Hv.
  set (sc' := with_contexts (<[ctx := v]> (contexts sc)) sc).
  set (h' := <[s := sc']> (heap st)).
  assert (Hlt : s < length (heap st)) by (by eapply lookup_lt_Some).
  assert (Hwf' : wf h') by (by eapply wf_insert).
  assert (Hs' : h' !! s = Some sc') by (by apply list_lookup_insert_eq).
  assert (Hhere : provider h' ctx s v).
  { eapply provider_here; [done| |done]. unfold Map_get. simpl.
    by rewrite lookup_insert_eq. }
  unfold provide, getScope. rewrite Hcur, Hs. fold sc' h'. split.
  - unfold Scope_run, use_fn. simpl. f_equal.
    by apply (use_provider _ ctx defaultValue v s).
  - unfold Scope_run at 1. unfold use_in_child, getScope. simpl.
    unfold Scope_run, use_fn. simpl. f_equal.
    apply (use_provider _ ctx defaultValue v (length h')); simpl.
    + apply (new_Scope_wf (Some s) (mkState h' (Some s) (trace st))); simpl; [done|].
      intros q [= <-]. unfold h'. by rewrite length_insert.
    + done.
    + eapply provider_above.
      * by apply list_lookup_middle.
      * done.
      * done.
      * inversion Hhere as [? ? ? H1 H2 H3|? ? ? ? H1 H2 H3 H4]; subst.
        -- eapply provider_here; [|done|done]. by apply lookup_app_l_Some.
        -- rewrite Hs' in H1. simplify_eq. unfold Map_get in H2. simpl in H2.
           rewrite lookup_insert_eq in H2. done.
Qed.

Lemma provide_then_use_witness :
  (VNum 9 ≠ VUndefined) ∧
  (provide 3 (VNum 9) (use_fn 3 (VNum 0)) child_of_provider).1 = Returned (Some (VNum 9)).
Proof.
  assert (H : VNum 9 ≠ VUndefined) by discriminate.
  split; [exact H|].
  exact (proj1 (provide_then_use child_of_provider 3 (VNum 9) (VNum 0) 1
                  (mkScope (Some 0) ∅ [] [] false) child_of_provider_wf eq_refl eq_refl H)).
Defined.

Lemma onCleanup_all_spec cbs : ∀ st s sc,
  current st = Some s → heap st !! s = Some sc →
  onCleanup_all cbs st =
    with_heap (<[s := with_cleanups (foldl (λ acc cb, set_add cb acc) (cleanups sc) cbs) sc]>
                 (heap st)) st.
Proof.
  induction cbs as [|cb cbs IH]; intros st s sc Hcur Hs; cbn [onCleanup_all foldl].
  - destruct sc, st. unfold with_heap, with_cleanups. simpl in *. f_equal.
    by rewrite list_insert_id.
  - fold (onCleanup_all cbs (onCleanup cb st)).
    assert (Hlt : s < length (heap st)) by (by eapply lookup_lt_Some).
    assert (onCleanup cb st =
            with_heap (<[s := with_cleanups (set_add cb (cleanups sc)) sc]> (heap st)) st) as ->.
    { unfold onCleanup. rewrite Hcur. unfold Scope_onCleanup. by rewrite Hs. }
    rewrite (IH _ s (with_cleanups (set_add cb (cleanups sc)) sc)); simpl.
    + unfold with_heap. simpl. f_equal. by rewrite list_insert_insert_eq.
    + done.
    + by rewrite list_lookup_insert_eq.
Qed.

(** X10: however often each callback was given to [onCleanup], [dispose]
    runs every one of them once, in the order of their first
    registration, and a second [dispose] runs nothing and changes
    nothing. *)
Theorem dispose_runs_each_cleanup_once (st : State) (s : nat) (sc : Scope) (cbs : list nat) :
  current st = Some s → heap st !! s = Some sc → cleanups sc = [] →
  let st1 := Scope_dispose s (onCleanup_all cbs st) in
  since st st1 = CleanupRan <$> Set_of cbs ∧
  NoDup (Set_of cbs) ∧ (∀ cb, cb ∈ Set_of cbs ↔ cb ∈ cbs) ∧
  Scope_dispose s st1 = st1.
Proof.
  intros Hcur Hs Hcs st1.
  assert (Hlt : s < length (heap st)) by (by eapply lookup_lt_Some).
  assert (Hst1 : st1 = mkState (<[s := mkScope None ∅ [] (mounts sc) (mounted sc)]> (heap st))
                         (Some s) (trace st ++ (CleanupRan <$> Set_of cbs))).
  { unfold st1. rewrite (onCleanup_all_spec cbs st s sc Hcur Hs).
    unfold Scope_dispose. simpl. rewrite list_lookup_insert_eq by done. simpl.
    rewrite list_insert_insert_eq, Hcs, Hcur. done. }
  split_and!.
  - rewrite Hst1. unfold since. simpl. by rewrite drop_app_length.
  - apply ForFacts.NoDup_Set_of.
  - intros cb. apply ForFacts.elem_of_Set_of.
  - rewrite Hst1. unfold Scope_dispose. simpl.
    rewrite list_lookup_insert_eq by done. simpl.
    by rewrite list_insert_insert_eq, app_nil_r.
Qed.

Lemma dispose_runs_each_cleanup_once_witness :
  since pending_root (Scope_dispose 0 (onCleanup_all [4; 5; 4] pending_root)) =
    [CleanupRan 4; CleanupRan 5].
Proof.
  exact (proj1 (dispose_runs_each_cleanup_once pending_root 0 (mkScope None ∅ [] [7] false)
                  [4; 5; 4] eq_refl eq_refl eq_refl)).
Defined.

(** X11: a disposed scope has lost its context values and its parent:
    from it, and from a scope under it that has no value of its own,
    [use] returns the default value, whatever the scopes above hold. *)
Theorem use_after_dispose_gives_default (st : State) (ctx : nat) (defaultValue : value)
  (s c : nat) (sc csc : Scope) :
  wf (heap st) → heap st !! s = Some sc →
  heap st !! c = Some csc → parent csc = Some s →
  Map_get (contexts csc) ctx = VUndefined →
  use ctx defaultValue (with_current (Some s) (Scope_dispose s st)) = Some defaultValue ∧
  use ctx defaultValue (with_current (Some c) (Scope_dispose s st)) = Some defaultValue.
Proof.
  intros Hwf Hs Hc Hpar Hv.
  assert (Hlt : s < length (heap st)) by (by eapply lookup_lt_Some).
  assert (Hcs : s < c) by eauto.
  set (sc' := mkScope None ∅ [] (mounts sc) (mounted sc)).
  assert (Hh : heap (Scope_dispose s st) = <[s := sc']> (heap st)).
  { unfold Scope_dispose. by rewrite Hs. }
  assert (Hwf' : wf (<[s := sc']> (heap st))).
  { intros u usc p Hu Hp. destruct (decide (u = s)) as [->|Hne].
    - rewrite list_lookup_insert_eq in Hu by done. by simplify_eq.
    - rewrite list_lookup_insert_ne in Hu by done. eauto. }
  assert (Hs' : <[s := sc']> (heap st) !! s = Some sc') by (by apply list_lookup_insert_eq).
  assert (Hc' : <[s := sc']> (heap st) !! c = Some csc).
  { rewrite list_lookup_insert_ne by lia. done. }
  assert (Hus : ∀ f, s < f → use_from f (Some s) ctx defaultValue (<[s := sc']> (heap st))
                             = Some defaultValue).
  { intros f Hf. rewrite (use_from_step _ ctx defaultValue f f s sc' Hwf' Hs' Hf ltac:(lia)).
    simpl. unfold Map_get. rewrite lookup_empty. simpl.
    apply use_from_None. }
  unfold use. simpl. rewrite Hh, length_insert. split.
  - by apply Hus.
  - apply lookup_lt_Some in Hc.
    rewrite (use_from_step _ ctx defaultValue _ (length (heap st)) c csc Hwf' Hc' Hc ltac:(lia)).
    rewrite Hv, strict_ne_refl, Hpar. by apply Hus.
Qed.

Lemma use_after_dispose_gives_default_witness :
  use 3 (VNum 0) child_of_provider = Some (VNum 5) ∧
  use 3 (VNum 0) (with_current (Some 1) (Scope_dispose 0 child_of_provider)) = Some (VNum 0).
Proof.
  split; [reflexivity|].
  exact (proj2 (use_after_dispose_gives_default child_of_provider 3 (VNum 0) 0 1
                  (mkScope None {[3 := VNum 5]} [] [] true) (mkScope (Some 0) ∅ [] [] false)
                  child_of_provider_wf eq_refl eq_refl eq_refl eq_refl)).
Defined.

(** X12: [createRoot(fn)] runs [fn] with a new scope current that has no
    parent and no context value, so every [use] in it returns its default;
    the result of [fn] - also a thrown error - is the result of
    [createRoot], and the current scope of the caller is current again
    afterwards. *)
Theorem createRoot_runs_in_fresh_root {A} (fn : nat → State → outcome A * State) (st : State) :
  let s := length (heap st) in
  let entry := with_current (Some s) (new_Scope None st).2 in
  heap entry !! s = Some (mkScope None ∅ [] [] false) ∧
  (∀ u, u < s → heap entry !! u = heap st !! u) ∧
  (∀ ctx defaultValue, use ctx defaultValue entry = Some defaultValue) ∧
  (createRoot fn st).1 = (fn s entry).1 ∧
  current (createRoot fn st).2 = current st ∧
  (∀ sc1, heap (fn s entry).2 !! s = Some sc1 →
     trace (createRoot fn st).2 = trace (fn s entry).2 ++ (MountRan <$> mounts sc1) ∧
     mounted_of s (createRoot fn st).2 = true ∧ mounts_of s (createRoot fn st).2 = []).
Proof.
  intros s entry.
  assert (He : heap entry !! s = Some (mkScope None ∅ [] [] false)).
  { unfold entry, s. simpl. by apply list_lookup_middle. }
  assert (Hrun : createRoot fn st =
                 ((fn s entry).1, run_finally s (current st) (fn s entry).2)).
  { unfold createRoot, new_Scope, Scope_run. simpl. fold s.
    change (with_current (Some s) _) with entry. by destruct (fn s entry). }
  split_and!.
  - done.
  - intros u Hu. unfold entry. simpl. by rewrite lookup_app_l.
  - intros ctx d. unfold use. unfold entry at 2. cbn [current with_current].
    assert (Hlen : length (heap entry) = S s).
    { unfold entry. simpl. rewrite length_app. simpl. unfold s. lia. }
    rewrite Hlen. cbn [use_from]. rewrite He. simpl.
    unfold Map_get. rewrite lookup_empty. simpl.
    apply use_from_None.
  - by rewrite Hrun.
  - rewrite Hrun. simpl. unfold run_finally. by destruct (heap (fn s entry).2 !! s).
  - intros sc1 Hsc1. rewrite Hrun. simpl.
    destruct (run_finally_spec s (current st) _ sc1 Hsc1) as (Ht & Hm & Hmd & _).
    done.
Qed.

(** X13: outside of any scope, [getScope] and [provide] throw - [provide]
    before it calls [fn] - while [onCleanup] and [onMount] log an error
    and drop the callback: no scope holds it. *)
Theorem out_of_tracking_context {A} (st : State) (ctx : nat) (v : value)
  (fn : State → outcome A * State) (cb : nat) :
  current st = None →
  getScope st = Threw "cannot get scope: out of tracking context" ∧
  provide ctx v fn st = (Threw "cannot get scope: out of tracking context", st) ∧
  onCleanup cb st =
    emit [ConsoleError "out of tracking context: will not be able to cleanup"] st ∧
  onMount cb st =
    Some (emit [ConsoleError "cannot attach onMount: out of tracking context"] st) ∧
  heap (onCleanup cb st) = heap st ∧
  (∀ st', onMount cb st = Some st' → heap st' = heap st).
Proof.
  intros Hcur. unfold provide, getScope, onCleanup, onMount. rewrite Hcur.
  split_and!; try done. by intros st' [= <-].
Qed.

Lemma out_of_tracking_context_witness :
  getScope (mkState [] None []) = Threw "cannot get scope: out of tracking context" ∧
  trace (onCleanup 1 (mkState [] None [])) =
    [ConsoleError "out of tracking context: will not be able to cleanup"].
Proof.
  pose proof (out_of_tracking_context (A := unit) (mkState [] None []) 0 VNull
                (λ x, (Returned tt, x)) 1 eq_refl) as (H1 & _ & H3 & _).
  split; [exact H1|]. rewrite H3. reflexivity.
Defined.

(** X14: the mount callbacks a scope holds run when [run] completes and
    are then forgotten: running the scope again, with a function that
    registers nothing, runs no callback and changes nothing. *)
Theorem run_fires_mounts_once {A} (fn : State → outcome A * State) (st : State)
  (s : nat) (sc1 : Scope) :
  heap (fn (with_current (Some s) st)).2 !! s = Some sc1 →
  let st1 := (Scope_run s fn st).2 in
  trace st1 = trace (fn (with_current (Some s) st)).2 ++ (MountRan <$> mounts sc1) ∧
  (Scope_run s (λ x, (Returned tt, x)) st1).2 = st1.
Proof.
  intros Hs st1.
  assert (Hst1 : st1 = run_finally s (current st) (fn (with_current (Some s) st)).2).
  { unfold st1, Scope_run. by destruct (fn _). }
  assert (Hlt : s < length (heap (fn (with_current (Some s) st)).2))
    by (by eapply lookup_lt_Some).
  split.
  - rewrite Hst1. unfold run_finally. by rewrite Hs.
  - unfold Scope_run. simpl. rewrite Hst1. unfold run_finally. rewrite Hs. simpl.
    rewrite list_lookup_insert_eq by done. simpl.
    by rewrite list_insert_insert_eq, app_nil_r.
Qed.

Lemma run_fires_mounts_once_witness :
  (Scope_run 0 (λ x, (Returned tt, x)) pending_root).2 =
    mkState [mkScope None ∅ [] [] true] (Some 0) [MountRan 7] ∧
  (Scope_run 0 (λ x, (Returned tt, x))
     (Scope_run 0 (λ x, (Returned tt, x)) pending_root).2).2 =
  (Scope_run 0 (λ x, (Returned tt, x)) pending_root).2.
Proof.
  split; [reflexivity|].
  exact (proj2 (run_fires_mounts_once (λ x, (Returned tt, x)) pending_root 0
                  (mkScope None ∅ [] [7] false) eq_refl)).
Defined.

End ScopeLaws.

(** ** Stateful sources and unsubscribing *)

Module StateLaws.
Import StateTs StateClients StateFacts.

Lemma arr_get_arr_set a i v j :
  arr_get (arr_set a i v) j = if decide (j = i) then v else arr_get a j.
Proof.
  unfold arr_get, arr_set. destruct (decide (i < length a)) as [Hlt|Hge].
  - destruct (decide (j = i)) as [->|Hne].
    + by rewrite list_lookup_insert_eq.
    + by rewrite list_lookup_insert_ne.
  - destruct (decide (j = i)) as [->|Hne].
    + rewrite lookup_app_r by lia. rewrite lookup_app_r by (rewrite length_replicate; lia).
      rewrite length_replicate. by replace (i - length a - (i - length a)) with 0 by lia.
    + destruct (decide (j < length a)) as [Hj|Hj].
      * by rewrite lookup_app_l.
      * rewrite lookup_app_r by lia. rewrite (lookup_ge_None_2 a j) by lia. simpl.
        destruct (decide (j < i)) as [Hji|Hji].
        -- rewrite lookup_app_l by (rewrite length_replicate; lia).
           by rewrite lookup_replicate_2 by lia.
        -- rewrite lookup_app_r by (rewrite length_replicate; lia).
           rewrite length_replicate.
           destruct (j - length a - (i - length a)) as [|k] eqn:E; [lia|]. done.
Qed.

Lemma strict_ne_refl_eq a : strict_ne a a = false.
Proof. unfold strict_ne. by apply bool_decide_eq_false; intros H. Qed.

Lemma strict_ne_neq a b : a ≠ b → strict_ne a b = true.
Proof. intros H. unfold strict_ne. by apply bool_decide_eq_true. Qed.

Lemma notify_users fuel ss w :
  Forall (λ s, is_user s = true) ss → notify fuel ss w = Some (emit (Called <$> ss) w).
Proof.
  intros Hss. revert w. induction Hss as [|s ss Hs _ IH]; intros w.
  - destruct fuel; simpl; unfold emit; by rewrite app_nil_r; destruct w.
  - destruct s as [cb|]; [|done].
    assert (notify fuel (UserCb cb :: ss) w = notify fuel ss (emit [Called (UserCb cb)] w)) as ->
      by (by destruct fuel).
    rewrite IH. unfold emit. simpl. by rewrite <- app_assoc.
Qed.


Lemma state_subscribe_spec n s x w :
  nodes w !! n = Some (NState s) →
  subscribe n x w =
    Some (Unsub n x, put n (NState (mkStateSrc (st_value s) (set_add x (st_subs s)))) w).
Proof.
  intros Hn. unfold subscribe. simpl. unfold activate, add_sub. rewrite Hn. simpl.
  destruct (decide _); simpl; by rewrite Hn.
Qed.

Lemma state_unsubscribe_spec n s x w :
  nodes w !! n = Some (NState s) →
  call_unsub (Unsub n x) w =
    Some (put n (NState (mkStateSrc (st_value s) (set_delete x (st_subs s)))) w).
Proof. intros Hn. simpl. unfold delete_sub. by rewrite Hn. Qed.

Lemma fmap_set_add {A B} `{EqDecision A} `{EqDecision B} (f : A → B) `{!Inj (=) (=) f}
  (x : A) (l : list A) : f <$> set_add x l = set_add (f x) (f <$> l).
Proof.
  unfold set_add. destruct (decide (x ∈ l)) as [Hin|Hnin].
  - rewrite decide_True; [done|]. by apply list_elem_of_fmap_2.
  - rewrite decide_False; [by rewrite fmap_app|].
    intros (y & Hy & Hin)%list_elem_of_fmap. apply (inj f) in Hy. by subst.
Qed.

#[local] Instance UserCb_inj : Inj (=) (=) UserCb.
Proof. by intros ?? [= ->]. Qed.

Lemma subscribe_all_state n cbs : ∀ w s,
  nodes w !! n = Some (NState s) →
  subscribe_all n cbs w =
    Some (put n (NState (mkStateSrc (st_value s)
                           (foldl (λ acc cb, set_add (UserCb cb) acc) (st_subs s) cbs))) w).
Proof.
  induction cbs as [|cb cbs IH]; intros w s Hn; cbn [subscribe_all foldl].
  - f_equal. destruct w as [ns lg]. unfold put. simpl in *. f_equal.
    symmetry. apply list_insert_id. by destruct s.
  - rewrite (state_subscribe_spec _ _ _ _ Hn). simpl.
    erewrite IH; [|simpl; apply list_lookup_insert_eq; by eapply lookup_lt_Some].
    simpl. by rewrite put_put.
Qed.

Lemma foldl_set_add_fmap cbs : ∀ l,
  foldl (λ acc cb, set_add (UserCb cb) acc) (UserCb <$> l) cbs =
  UserCb <$> foldl (λ acc cb, set_add cb acc) l cbs.
Proof.
  induction cbs as [|cb cbs IH]; intros l; cbn [foldl]; [done|].
  by rewrite <- IH, (fmap_set_add UserCb).
Qed.

(** X15: once callbacks have been subscribed to a stateful source, however
    often each, a call of the setter with the value the source holds
    does nothing, and a call with another value stores it and calls every
    distinct callback once, in the order of first subscription. *)
Theorem state_set_calls_each_subscriber_once (w : World) (n : nat) (s : StateSrc)
  (cbs : list nat) (a : setter_arg) :
  nodes w !! n = Some (NState s) → st_subs s = [] →
  ∃ w1, subscribe_all n cbs w = Some w1 ∧
    subs_of n w1 = UserCb <$> Set_of cbs ∧ NoDup (Set_of cbs) ∧
    (resolve a (st_value s) = st_value s → set n a w1 = Some w1) ∧
    (resolve a (st_value s) ≠ st_value s →
       ∃ w2, set n a w1 = Some w2 ∧
         since w1 w2 = Called <$> (UserCb <$> Set_of cbs) ∧
         value_of n w2 = resolve a (st_value s) ∧ subs_of n w2 = subs_of n w1).
Proof.
  intros Hn Hsubs. assert (Hlt : n < length (nodes w)) by (by eapply lookup_lt_Some).
  rewrite (subscribe_all_state n cbs w s Hn), Hsubs.
  change [] with (UserCb <$> []) at 1. rewrite foldl_set_add_fmap. fold (Set_of cbs).
  eexists. split; [done|].
  assert (Hn1 : ∀ lg, nodes (put n (NState (mkStateSrc (st_value s) (UserCb <$> Set_of cbs)))
                              (mkWorld (nodes w) lg)) !! n =
                Some (NState (mkStateSrc (st_value s) (UserCb <$> Set_of cbs)))).
  { intros lg. simpl. by apply list_lookup_insert_eq. }
  split_and!.
  - unfold subs_of. simpl. by rewrite list_lookup_insert_eq.
  - apply ForFacts.NoDup_Set_of.
  - intros Hv. unfold set. simpl. rewrite list_lookup_insert_eq by done. simpl.
    by rewrite Hv, strict_ne_refl_eq.
  - intros Hv. unfold set. simpl. rewrite list_lookup_insert_eq by done. simpl.
    rewrite strict_ne_neq by done.
    rewrite notify_users by (apply Forall_fmap, Forall_true; done).
    eexists. split; [done|]. unfold since, value_of, subs_of. simpl.
    rewrite drop_app_length, !list_insert_insert_eq, !list_lookup_insert_eq by done. done.
Qed.

Lemma state_set_calls_each_subscriber_once_witness :
  ∃ w1 w2, subscribe_all 0 [4; 5; 4] (createState (VNum 1) empty_world).2 = Some w1 ∧
    set 0 (SetValue (VNum 2)) w1 = Some w2 ∧
    log w2 = [Called (UserCb 4); Called (UserCb 5)].
Proof.
  destruct (state_set_calls_each_subscriber_once (createState (VNum 1) empty_world).2 0
              (mkStateSrc (VNum 1) []) [4; 5; 4] (SetValue (VNum 2)) eq_refl eq_refl)
    as (w1 & H1 & _ & _ & _ & H2).
  destruct (H2 ltac:(discriminate)) as (w2 & Hset & _).
  exists w1, w2. split; [exact H1|]. split; [exact Hset|].
  vm_compute in H1. injection H1 as <-. vm_compute in Hset. injection Hset as <-.
  reflexivity.
Defined.

(** X16: the subscribers of a stateful source are held by identity: if
    the same callback is subscribed twice, the unsubscribe function of
    either subscription removes it altogether, and the other unsubscribe
    function has nothing left to do. *)
Theorem state_unsubscribe_removes_shared_callback (w : World) (n : nat) (s : StateSrc)
  (cb : nat) :
  nodes w !! n = Some (NState s) →
  ∃ u1 w1 u2 w2 w3,
    subscribe n (UserCb cb) w = Some (u1, w1) ∧
    subscribe n (UserCb cb) w1 = Some (u2, w2) ∧
    subs_of n w2 = subs_of n w1 ∧
    call_unsub u1 w2 = Some w3 ∧
    (UserCb cb ∉ subs_of n w3) ∧
    call_unsub u2 w3 = Some w3.
Proof.
  intros Hn. assert (Hlt : n < length (nodes w)) by (by eapply lookup_lt_Some).
  set (w1 := put n (NState (mkStateSrc (st_value s) (set_add (UserCb cb) (st_subs s)))) w).
  set (w3 := put n (NState (mkStateSrc (st_value s)
                              (set_delete (UserCb cb) (set_add (UserCb cb) (st_subs s))))) w).
  assert (Hin : UserCb cb ∈ set_add (UserCb cb) (st_subs s)) by apply ScopeFacts.set_add_elem.
  assert (H1 : subscribe n (UserCb cb) w = Some (Unsub n (UserCb cb), w1))
    by apply (state_subscribe_spec _ _ _ _ Hn).
  assert (H2 : subscribe n (UserCb cb) w1 = Some (Unsub n (UserCb cb), w1)).
  { erewrite state_subscribe_spec; [|by apply nodes_put_eq]. simpl.
    unfold set_add at 1. rewrite decide_True by done. unfold w1. by rewrite put_put. }
  assert (H3 : call_unsub (Unsub n (UserCb cb)) w1 = Some w3).
  { erewrite state_unsubscribe_spec; [|by apply nodes_put_eq]. simpl.
    unfold w1, w3. by rewrite put_put. }
  assert (H4 : call_unsub (Unsub n (UserCb cb)) w3 = Some w3).
  { erewrite state_unsubscribe_spec; [|by apply nodes_put_eq]. simpl.
    unfold w3. by rewrite put_put, set_delete_idem. }
  exists (Unsub n (UserCb cb)), w1, (Unsub n (UserCb cb)), w1, w3.
  split_and!; try done.
  unfold subs_of, w3. rewrite nodes_put_eq by done. simpl.
  unfold set_delete. intros [Hne _]%list_elem_of_filter. done.
Qed.

Lemma state_unsubscribe_removes_shared_callback_witness :
  ∃ u1 w1 u2 w2 w3,
    subscribe 0 (UserCb 4) (createState (VNum 1) empty_world).2 = Some (u1, w1) ∧
    subscribe 0 (UserCb 4) w1 = Some (u2, w2) ∧
    call_unsub u1 w2 = Some w3 ∧ subs_of 0 w3 = [].
Proof.
  destruct (state_unsubscribe_removes_shared_callback (createState (VNum 1) empty_world).2 0
              (mkStateSrc (VNum 1) []) 4 eq_refl)
    as (u1 & w1 & u2 & w2 & w3 & H1 & H2 & _ & H3 & _).
  exists u1, w1, u2, w2, w3. split; [exact H1|]. split; [exact H2|]. split; [exact H3|].
  vm_compute in H1. injection H1 as <- <-. vm_compute in H2. injection H2 as <- <-.
  vm_compute in H3. injection H3 as <-. reflexivity.
Defined.


Lemma put_same n nd w : nodes w !! n = Some nd → put n nd w = w.
Proof. intros Hn. destruct w as [ns lg]. unfold put. simpl in *. by rewrite list_insert_id. Qed.

Lemma disposers_below_put n nd w :
  disposers_below w →
  (∀ c, nd = NComputed c → Forall (λ u, match u with Unsub d _ => d < n end) (c_dispose c)) →
  disposers_below (put n nd w).
Proof.
  intros Hw Hnd m c Hm. simpl in Hm. destruct (decide (m = n)) as [->|Hne].
  - destruct (decide (n < length (nodes w))).
    + rewrite list_lookup_insert_eq in Hm by done. simplify_eq. by apply Hnd.
    + rewrite list_insert_ge in Hm by lia. by eapply Hw.
  - rewrite list_lookup_insert_ne in Hm by done. by eapply Hw.
Qed.

Lemma disposers_below_delete_sub n s w : disposers_below w → disposers_below (delete_sub n s w).
Proof.
  intros Hw. unfold delete_sub. destruct (nodes w !! n) as [[?|c|?|?]|] eqn:Hn; try done;
    apply disposers_below_put; try done.
  intros c' [= <-]. simpl. by eapply Hw.
Qed.

Lemma nodes_delete_sub_ne n m s w : m ≠ n → nodes (delete_sub n s w) !! m = nodes w !! m.
Proof.
  intros Hne. unfold delete_sub. destruct (nodes w !! n) as [[?|?|?|?]|]; [..|done];
    simpl; by rewrite list_lookup_insert_ne.
Qed.

Lemma run_disposers_frame (unsub_at : nat → sub → World → option World) n :
  (∀ d l w w', d < n → disposers_below w → unsub_at d l w = Some w' →
     disposers_below w' ∧ ∀ m, d < m → nodes w' !! m = nodes w !! m) →
  ∀ us w w', Forall (λ u, match u with Unsub d _ => d < n end) us →
    disposers_below w → run_disposers unsub_at us w = Some w' →
    disposers_below w' ∧ ∀ m, n ≤ m → nodes w' !! m = nodes w !! m.
Proof.
  intros Hun. induction us as [|[d l] us IH]; intros w w' Hus Hw; simpl.
  - by intros [= <-].
  - inversion Hus as [|? ? Hd Hus']; subst.
    destruct (unsub_at d l w) as [w1|] eqn:H1; simpl; [|done]. intros Hrest.
    destruct (Hun _ _ _ _ Hd Hw H1) as [Hw1 Hf1].
    destruct (IH _ _ Hus' Hw1 Hrest) as [Hw' Hf']. split; [done|].
    intros m Hm. rewrite Hf' by done. apply Hf1. lia.
Qed.

(** An unsubscribe function touches no source created after its own. *)
Lemma unsubscribe_from_frame fuel :
  ∀ n s w w', disposers_below w → unsubscribe_from fuel n s w = Some w' →
  disposers_below w' ∧ ∀ m, n < m → nodes w' !! m = nodes w !! m.
Proof.
  induction fuel as [|fuel IH]; intros n s w w' Hw; [done|]. simpl.
  destruct (nodes w !! n) as [nd|] eqn:Hn; simpl; [|done].
  assert (Hlt : n < length (nodes w)) by (by eapply lookup_lt_Some).
  pose proof (disposers_below_delete_sub n s w Hw) as Hw1.
  assert (Hf1 : ∀ m, n < m → nodes (delete_sub n s w) !! m = nodes w !! m).
  { intros m Hm. apply nodes_delete_sub_ne. lia. }
  assert (Hkeep : Some (delete_sub n s w) = Some w' →
                  disposers_below w' ∧ ∀ m, n < m → nodes w' !! m = nodes w !! m).
  { by intros [= <-]. }
  destruct nd as [st|c|c|e]; [done|..];
    (destruct (decide (length (subs_of n (delete_sub n s w)) = 0)) as [Hz|Hnz]; [|done]).
  - unfold deactivate.
    destruct (nodes (delete_sub n s w) !! n) as [[?|c0|?|?]|] eqn:Hn0; simpl; try done;
      try (unfold delete_sub in Hn0; rewrite Hn in Hn0; simpl in Hn0;
           rewrite list_lookup_insert_eq in Hn0 by done; done).
    destruct (run_disposers _ _ _) as [w2|] eqn:Hrun; simpl; [|done].
    destruct (run_disposers_frame (unsubscribe_from fuel) n
                ltac:(intros; by eapply IH) _ _ _ ltac:(by eapply Hw1) Hw1 Hrun) as [Hw2 Hf2].
    destruct (nodes w2 !! n) as [[?|c1|?|?]|]; try done. intros [= <-]. split.
    + apply disposers_below_put; [done|]. by intros c' [= <-].
    + intros m Hm. simpl. rewrite list_lookup_insert_ne by lia.
      rewrite Hf2 by lia. by apply Hf1.
  - unfold deactivate.
    destruct (nodes (delete_sub n s w) !! n) as [[?|?|c0|?]|] eqn:Hn0; simpl; try done;
      try (unfold delete_sub in Hn0; rewrite Hn in Hn0; simpl in Hn0;
           rewrite list_lookup_insert_eq in Hn0 by done; done).
    intros [= <-]. split.
    + intros m c' Hm. simpl in Hm. eapply (disposers_below_put n _ _ Hw1); [|exact Hm].
      done.
    + intros m Hm. simpl. rewrite list_lookup_insert_ne by lia. by apply Hf1.
  - unfold deactivate.
    destruct (nodes (delete_sub n s w) !! n) as [[?|?|?|e0]|] eqn:Hn0; simpl; try done;
      try (unfold delete_sub in Hn0; rewrite Hn in Hn0; simpl in Hn0;
           rewrite list_lookup_insert_eq in Hn0 by done; done).
    destruct (ex_dispose e0); simpl; [|done]. by intros [= <-].
Qed.

Lemma computed_unsubscribe_step n c s w :
  nodes w !! n = Some (NComputed c) →
  call_unsub (Unsub n s) w =
    let c0 := mkComputedSrc (deps c) (transform c) (c_dispose c)
                            (set_delete s (c_subs c)) (cache c) (c_gen c) in
    let w0 := put n (NComputed c0) w in
    if decide (length (set_delete s (c_subs c)) = 0)
    then w2 ← run_disposers (unsubscribe_from n) (c_dispose c) w0;
         match nodes w2 !! n with
         | Some (NComputed c1) =>
           Some (put n (NComputed (mkComputedSrc (deps c1) (transform c1) [] (c_subs c1)
                                                 [] (c_gen c1))) w2)
         | _ => None
         end
    else Some w0.
Proof.
  intros Hn. assert (Hlt : n < length (nodes w)) by (by eapply lookup_lt_Some).
  cbv zeta.
  set (c0 := mkComputedSrc (deps c) (transform c) (c_dispose c)
                           (set_delete s (c_subs c)) (cache c) (c_gen c)).
  assert (Hdel : delete_sub n s w = put n (NComputed c0) w).
  { unfold delete_sub. by rewrite Hn. }
  assert (Hn0 : nodes (put n (NComputed c0) w) !! n = Some (NComputed c0))
    by (by apply nodes_put_eq).
  assert (Hsubs : subs_of n (put n (NComputed c0) w) = set_delete s (c_subs c)).
  { unfold subs_of. by rewrite Hn0. }
  cbn [call_unsub unsubscribe_from]. rewrite Hn. cbn [mbind option_bind].
  rewrite Hdel, Hsubs. case_decide; [|done].
  unfold deactivate. rewrite Hn0. done.
Qed.

Lemma computed_unsubscribe_idempotent n c s w w1 :
  disposers_below w → nodes w !! n = Some (NComputed c) →
  call_unsub (Unsub n s) w = Some w1 → call_unsub (Unsub n s) w1 = Some w1.
Proof.
  intros Hw Hn. assert (Hlt : n < length (nodes w)) by (by eapply lookup_lt_Some).
  rewrite (computed_unsubscribe_step n c s w Hn). cbv zeta.
  set (c0 := mkComputedSrc (deps c) (transform c) (c_dispose c)
                           (set_delete s (c_subs c)) (cache c) (c_gen c)).
  assert (Hn0 : nodes (put n (NComputed c0) w) !! n = Some (NComputed c0))
    by (by apply nodes_put_eq).
  destruct (decide (length (set_delete s (c_subs c)) = 0)) as [Hz|Hnz].
  - destruct (run_disposers _ _ _) as [w2|] eqn:Hrun; cbn [mbind option_bind]; [|done].
    destruct (run_disposers_frame (unsubscribe_from n) n
                ltac:(intros; by eapply unsubscribe_from_frame) _ _ _
                ltac:(by eapply Hw) (disposers_below_put n (NComputed c0) w Hw
                  ltac:(intros ? [= <-]; unfold c0; simpl; by eapply Hw)) Hrun) as [Hw2 Hf2].
    rewrite (Hf2 n) by lia. rewrite Hn0. intros [= <-].
    apply nil_length_inv in Hz. rewrite Hz.
    set (cz := mkComputedSrc (deps c) (transform c) [] [] [] (c_gen c)).
    assert (Hlt2 : n < length (nodes w2)).
    { apply lookup_lt_is_Some. rewrite (Hf2 n) by lia. by rewrite Hn0. }
    assert (Hnz : nodes (put n (NComputed cz) w2) !! n = Some (NComputed cz))
      by (by apply nodes_put_eq).
    rewrite (computed_unsubscribe_step n cz s _ Hnz). cbv zeta.
    unfold cz. simpl.
    rewrite list_lookup_insert_eq by (by rewrite length_insert). simpl.
    unfold put. simpl. by rewrite !list_insert_insert_eq.
  - intros [= <-].
    rewrite (computed_unsubscribe_step n c0 s _ Hn0). cbv zeta.
    simpl c_subs. rewrite set_delete_idem, decide_False by done.
    by rewrite put_put.
Qed.

(** X17: the unsubscribe function of a stateful, a computed or a
    connection source can be called again: the second call changes
    nothing. *)
Theorem unsubscribe_again_changes_nothing (w : World) (n : nat) (s : sub) (w1 : World) :
  disposers_below w → kinds w !! n ≠ Some KExternal →
  call_unsub (Unsub n s) w = Some w1 → call_unsub (Unsub n s) w1 = Some w1.
Proof.
  intros Hw Hk Hcall.
  destruct (nodes w !! n) as [[st|c|c|e]|] eqn:Hn.
  - by eapply state_unsubscribe_idempotent.
  - by eapply computed_unsubscribe_idempotent.
  - by eapply connection_unsubscribe_idempotent.
  - exfalso. apply Hk. unfold kinds. by rewrite list_lookup_fmap, Hn.
  - simpl in Hcall. by rewrite Hn in Hcall.
Qed.

Lemma subscribed_computed_disposers : disposers_below subscribed_computed.
Proof.
  intros n c Hn. destruct n as [|[|n]]; vm_compute in Hn; simplify_eq.
  vm_compute. repeat constructor.
Defined.

Lemma unsubscribe_again_changes_nothing_witness :
  ∃ w1, call_unsub (Unsub 1 (UserCb 7)) subscribed_computed = Some w1 ∧
        subs_of 0 subscribed_computed = [DepListener 1 0 0] ∧ subs_of 0 w1 = [] ∧
        call_unsub (Unsub 1 (UserCb 7)) w1 = Some w1.
Proof.
  assert (H1 : call_unsub (Unsub 1 (UserCb 7)) subscribed_computed =
               Some (mkWorld [NState (mkStateSrc (VNum 1) []);
                              NComputed (mkComputedSrc [0] double [] [] [] 1)] []))
    by (vm_compute; reflexivity).
  eexists. split; [exact H1|]. split; [reflexivity|]. split; [reflexivity|].
  exact (unsubscribe_again_changes_nothing subscribed_computed 1 (UserCb 7) _
           subscribed_computed_disposers ltac:(discriminate) H1).
Defined.

End StateLaws.

(** ** Subscribed computed sources *)

Module ComputedLaws.
Import StateTs StateClients StateFacts StateLaws.

Lemma state_subscribe_from f n s x w :
  nodes w !! n = Some (NState s) →
  subscribe_from (S f) n x w = Some (Unsub n x, add_sub n x w).
Proof.
  intros Hn. simpl. unfold activate. rewrite Hn. simpl.
  by destruct (decide _).
Qed.

Lemma add_sub_state n s x w :
  nodes w !! n = Some (NState s) →
  add_sub n x w = put n (NState (mkStateSrc (st_value s) (set_add x (st_subs s)))) w.
Proof. intros Hn. unfold add_sub. by rewrite Hn. Qed.

Lemma elem_of_set_add `{EqDecision A} (x y : A) (l : list A) :
  y ∈ set_add x l ↔ y = x ∨ y ∈ l.
Proof.
  unfold set_add. case_decide as Hx.
  - split; [by right|]. intros [->|?]; done.
  - rewrite elem_of_app, list_elem_of_singleton. tauto.
Qed.

(** What the listeners added for the slots [i], [i+1], ... of [ds] change. *)
Lemma add_listeners_spec c g ds : ∀ i w,
  Forall (λ d, ∃ s, nodes w !! d = Some (NState s)) ds →
  let w' := add_listeners c g ds i w in
  log w' = log w ∧ length (nodes w') = length (nodes w) ∧
  (∀ m, (∀ s, nodes w !! m ≠ Some (NState s)) → nodes w' !! m = nodes w !! m) ∧
  (∀ m s, nodes w !! m = Some (NState s) →
     ∃ s', nodes w' !! m = Some (NState s') ∧ st_value s' = st_value s ∧
       ∀ x, x ∈ st_subs s' ↔
            x ∈ st_subs s ∨ ∃ j, x = DepListener c (i + j) g ∧ ds !! j = Some m).
Proof.
  induction ds as [|d ds IH]; intros i w Hds; cbn [add_listeners].
  - split_and!; try done. intros m s Hm. exists s. split_and!; try done.
    intros x. split; [by left|]. intros [?|(j & _ & Hj)]; done.
  - inversion Hds as [|? ? [sd Hd] Hds']; subst.
    assert (Hlt : d < length (nodes w)) by (by eapply lookup_lt_Some).
    rewrite (add_sub_state _ _ _ _ Hd).
    set (w1 := put d (NState (mkStateSrc (st_value sd)
                                (set_add (DepListener c i g) (st_subs sd)))) w).
    assert (Hds1 : Forall (λ d0, ∃ s, nodes w1 !! d0 = Some (NState s)) ds).
    { eapply Forall_impl; [exact Hds'|]. intros m [s Hm]. simpl.
      destruct (decide (m = d)) as [->|Hne].
      - rewrite list_lookup_insert_eq by done. eauto.
      - rewrite list_lookup_insert_ne by done. eauto. }
    destruct (IH (S i) w1 Hds1) as (Hlog & Hlen & Hother & Hst).
    split_and!.
    + by rewrite Hlog.
    + rewrite Hlen. simpl. by rewrite length_insert.
    + intros m Hm. rewrite Hother.
      * simpl. rewrite list_lookup_insert_ne; [done|]. intros ->. by eapply Hm.
      * intros s Hs. simpl in Hs. destruct (decide (m = d)) as [->|Hne].
        -- by eapply Hm.
        -- rewrite list_lookup_insert_ne in Hs by done. by eapply Hm.
    + intros m s Hm. destruct (decide (m = d)) as [->|Hne].
      * rewrite Hd in Hm. injection Hm as <-.
        destruct (Hst d (mkStateSrc (st_value sd) (set_add (DepListener c i g) (st_subs sd))))
          as (s' & Hs' & Hv & Hsubs).
        { simpl. by rewrite list_lookup_insert_eq. }
        exists s'. split_and!; [done|done|]. intros x. rewrite Hsubs. simpl.
        rewrite elem_of_set_add. split.
        -- intros [[->|Hx]|(j & -> & Hj)].
           ++ right. exists 0. split; [f_equal; lia|done].
           ++ by left.
           ++ right. exists (S j). split; [f_equal; lia|done].
        -- intros [Hx|(j & -> & Hj)]; [left; by right|].
           destruct j as [|j].
           ++ left. left. f_equal. lia.
           ++ right. exists j. split; [f_equal; lia|done].
      * destruct (Hst m s) as (s' & Hs' & Hv & Hsubs).
        { simpl. by rewrite list_lookup_insert_ne. }
        exists s'. split_and!; [done|done|]. intros x. rewrite Hsubs. split.
        -- intros [Hx|(j & -> & Hj)]; [by left|].
           right. exists (S j). split; [f_equal; lia|done].
        -- intros [Hx|(j & -> & Hj)]; [by left|].
           destruct j as [|j]; [simpl in Hj; congruence|].
           right. exists j. split; [f_equal; lia|done].
Qed.

Lemma subscribe_deps_states f c g ds : ∀ i w,
  Forall (λ d, ∃ s, nodes w !! d = Some (NState s)) ds →
  ∃ us, subscribe_deps (subscribe_from (S f)) c g ds i w =
          Some (us, add_listeners c g ds i w).
Proof.
  induction ds as [|d ds IH]; intros i w Hds.
  - by exists [].
  - inversion Hds as [|? ? [sd Hd] Hds']; subst.
    assert (Hlt : d < length (nodes w)) by (by eapply lookup_lt_Some).
    destruct (IH (S i) (add_sub d (DepListener c i g) w)) as [us Hus].
    { eapply Forall_impl; [exact Hds'|]. intros m [s Hm].
      rewrite (add_sub_state _ _ _ _ Hd). simpl.
      destruct (decide (m = d)) as [->|Hne].
      - rewrite list_lookup_insert_eq by done. eauto.
      - rewrite list_lookup_insert_ne by done. eauto. }
    exists (Unsub d (DepListener c i g) :: us).
    change (subscribe_deps (subscribe_from (S f)) c g (d :: ds) i w) with
      ('(u, w1) ← subscribe_from (S f) d (DepListener c i g) w;
       '(us, w2) ← subscribe_deps (subscribe_from (S f)) c g ds (S i) w1;
       Some (u :: us, w2)).
    rewrite (state_subscribe_from f d sd _ w Hd). cbn [mbind option_bind].
    rewrite Hus. done.
Qed.


Lemma with_cache_same cs : with_cache (cache cs) cs = cs.
Proof. by destruct cs. Qed.

(** [tracking] after the values of stateful sources and the cache of
    [c] have changed: the new cache has to fit the new values. *)
Lemma tracking_update c ds tr w cs ca ns lg :
  tracking c ds tr w → nodes w !! c = Some (NComputed cs) →
  length ns = length (nodes w) →
  (∀ d s, d ≠ c → nodes w !! d = Some (NState s) →
     ∃ s', ns !! d = Some (NState s') ∧ st_subs s' = st_subs s) →
  (∀ k d s', ds !! k = Some d → ns !! d = Some (NState s') →
     arr_get ca k = VUndefined ∨ arr_get ca k = st_value s') →
  tracking c ds tr (mkWorld (<[c := NComputed (with_cache ca cs)]> ns) lg).
Proof.
  intros (cs0 & Hc & Hds & Htr & Hus & Hslots) Hc' Hlen Hns Hca. simplify_eq.
  assert (Hlt : c < length (nodes w)) by (by eapply lookup_lt_Some).
  exists (with_cache ca cs0). simpl. split_and!; try done.
  - apply list_lookup_insert_eq. by rewrite Hlen.
  - intros i d Hi. destruct (Hslots i d Hi) as (Hdc & s & Hd & Hl & Hall & Hcoh).
    split; [done|]. destruct (Hns d s ltac:(lia) Hd) as (s' & Hd' & Hsubs').
    exists s'. rewrite list_lookup_insert_ne by lia. rewrite Hsubs'.
    split_and!; try done. by eapply Hca.
Qed.

Lemma notify_cons_listener fuel c i g rest w :
  notify (S fuel) (DepListener c i g :: rest) w =
  w' ← dep_listener (notify fuel) c i (emit [Called (DepListener c i g)] w);
  notify (S fuel) rest w'.
Proof. done. Qed.

Lemma notify_cons_user fuel cb rest w :
  notify fuel (UserCb cb :: rest) w = notify fuel rest (emit [Called (UserCb cb)] w).
Proof. by destruct fuel. Qed.

Lemma state_get d s w :
  nodes w !! d = Some (NState s) → get d w = Some (st_value s, emit [GetCalled d] w).
Proof. intros Hd. unfold get. simpl. by rewrite Hd. Qed.

Lemma state_get_from f d s w :
  nodes w !! d = Some (NState s) →
  get_from (S f) d w = Some (st_value s, emit [GetCalled d] w).
Proof. intros Hd. simpl. by rewrite Hd. Qed.

(** The fan-out of a stateful source [d] that holds [v], over
    subscribers that are callbacks of the caller or listeners of [c] for
    slots of [d]: every slot with a listener in the list ends with [v]. *)
Lemma notify_listeners c ds d v fuel : ∀ ss w cs sd,
  nodes w !! c = Some (NComputed cs) → deps cs = ds →
  Forall (λ x, is_user x = true) (c_subs cs) →
  d < c → nodes w !! d = Some (NState sd) → st_value sd = v →
  Forall (λ x, is_user x = true ∨ ∃ j g, x = DepListener c j g ∧ ds !! j = Some d) ss →
  ∃ w' ca', notify (S fuel) ss w = Some w' ∧
    nodes w' = <[c := NComputed (with_cache ca' cs)]> (nodes w) ∧
    ∀ j, arr_get ca' j = if existsb (listens_at c j) ss then v else arr_get (cache cs) j.
Proof.
  induction ss as [|x ss IH]; intros w cs sd Hc Hds Hus Hdc Hd Hv Hss.
  - exists w, (cache cs). split_and!; [done| |done].
    rewrite with_cache_same. symmetry. by apply list_insert_id.
  - inversion Hss as [|? ? Hx Hss']; subst.
    assert (Hlt : c < length (nodes w)) by (by eapply lookup_lt_Some).
    destruct Hx as [Hx|(j0 & g & -> & Hj0)].
    + destruct x as [cb|]; [|done]. rewrite notify_cons_user.
      destruct (IH (emit [Called (UserCb cb)] w) cs sd) as (w' & ca' & Hn & Hnodes & Hca);
        try done.
      exists w', ca'. split_and!; try done.
    + rewrite notify_cons_listener.
      pose (w0 := emit [Called (DepListener c j0 g)] w).
      pose (w1 := emit [GetCalled d] w0).
      assert (Hc0 : nodes w0 !! c = Some (NComputed cs)) by done.
      assert (Hd0 : nodes w0 !! d = Some (NState sd)) by done.
      assert (Hd1 : nodes w1 !! d = Some (NState sd)) by done.
      assert (Hca1 : cache_of c w1 = cache cs) by (unfold cache_of; simpl; by rewrite Hc).
      assert (Hca2 : cache_of c (emit [GetCalled d] w1) = cache cs)
        by (unfold cache_of; simpl; by rewrite Hc).
      assert (Hget0 : get d w0 = Some (st_value sd, w1)) by (by apply state_get).
      assert (Hget1 : get d w1 = Some (st_value sd, emit [GetCalled d] w1))
        by (by apply state_get).
      fold w0.
      destruct (strict_ne (arr_get (cache cs) j0) (st_value sd)) eqn:Hne.
      * pose (cs1 := with_cache (arr_set (cache cs) j0 (st_value sd)) cs).
        pose (w3 := put c (NComputed cs1) (emit [GetCalled d] w1)).
        assert (Hc3 : nodes w3 !! c = Some (NComputed cs1)) by (by apply nodes_put_eq).
        assert (Hset : set_cache c (arr_set (cache cs) j0 (st_value sd))
                         (emit [GetCalled d] w1) = w3).
        { unfold set_cache. simpl. by rewrite Hc. }
        assert (Hsubs3 : subs_of c w3 = c_subs cs) by (unfold subs_of; by rewrite Hc3).
        assert (Hstep : dep_listener (notify fuel) c j0 w0 =
                        Some (emit (Called <$> c_subs cs) w3)).
        { unfold dep_listener. rewrite Hc0. cbn [mbind option_bind].
          rewrite Hj0. cbn [mbind option_bind]. rewrite Hget0. cbn [mbind option_bind].
          rewrite Hca1, Hne, Hget1. cbn [mbind option_bind].
          rewrite Hca2, Hset, Hsubs3. by rewrite notify_users. }
        rewrite Hstep. cbn [mbind option_bind].
        destruct (IH (emit (Called <$> c_subs cs) w3) cs1 sd) as (w' & ca' & Hn & Hnodes & Hca);
          try done.
        { unfold w3. simpl. by rewrite list_lookup_insert_ne by lia. }
        exists w', ca'. split_and!; [done| |].
        -- rewrite Hnodes. unfold w3. simpl. by rewrite list_insert_insert_eq.
        -- intros j. rewrite Hca. cbn [existsb listens_at]. rewrite bool_decide_eq_true_2 by done.
           simpl. destruct (existsb (listens_at c j) ss); [by rewrite orb_true_r|].
           rewrite orb_false_r, arr_get_arr_set.
           destruct (decide (j = j0)) as [->|Hjj].
           ++ by rewrite bool_decide_eq_true_2.
           ++ by rewrite bool_decide_eq_false_2 by (by intros ->).
      * assert (Hstep : dep_listener (notify fuel) c j0 w0 = Some w1).
        { unfold dep_listener. rewrite Hc0. cbn [mbind option_bind].
          rewrite Hj0. cbn [mbind option_bind]. rewrite Hget0. cbn [mbind option_bind].
          by rewrite Hca1, Hne. }
        rewrite Hstep. cbn [mbind option_bind].
        destruct (IH w1 cs sd) as (w' & ca' & Hn & Hnodes & Hca); try done.
        exists w', ca'. split_and!; [done|done|].
        intros j. rewrite Hca. cbn [existsb listens_at]. rewrite bool_decide_eq_true_2 by done.
        simpl. destruct (existsb (listens_at c j) ss); [by rewrite orb_true_r|].
        rewrite orb_false_r. destruct (decide (j = j0)) as [->|Hjj].
        -- rewrite bool_decide_eq_true_2 by done.
           unfold strict_ne in Hne. apply bool_decide_eq_false in Hne.
           by destruct (decide (arr_get (cache cs) j0 = st_value sd)).
        -- by rewrite bool_decide_eq_false_2 by (by intros ->).
Qed.


Lemma existsb_listens c j ss :
  existsb (listens_at c j) ss = true ↔ ∃ g, DepListener c j g ∈ ss.
Proof.
  rewrite existsb_exists. split.
  - intros (x & Hx%list_elem_of_In & Hl). destruct x as [|c' j' g]; [done|].
    simpl in Hl. apply andb_true_iff in Hl as [->%bool_decide_eq_true ->%bool_decide_eq_true].
    by exists g.
  - intros [g Hg]. exists (DepListener c j g). split; [by apply list_elem_of_In|].
    simpl. by rewrite !bool_decide_eq_true_2.
Qed.

(** The setter of a dependency keeps [tracking]. *)
Lemma subs_of_cache c cs ca ns lg m :
  ns !! c = Some (NComputed cs) →
  subs_of m (mkWorld (<[c := NComputed (with_cache ca cs)]> ns) lg) = subs_of m (mkWorld ns lg).
Proof.
  intros Hc. assert (Hlt : c < length ns) by (by eapply lookup_lt_Some).
  unfold subs_of. simpl. destruct (decide (m = c)) as [->|Hne].
  - by rewrite list_lookup_insert_eq, Hc.
  - by rewrite list_lookup_insert_ne.
Qed.

Lemma set_tracking c ds tr d a w :
  tracking c ds tr w → d ∈ ds →
  ∃ w', set d a w = Some w' ∧ tracking c ds tr w' ∧ ∀ m, subs_of m w' = subs_of m w.
Proof.
  intros Htrack Hin. pose proof Htrack as (cs & Hc & Hds & Htr & Hus & Hslots).
  apply list_elem_of_lookup in Hin as [i0 Hi0].
  destruct (Hslots i0 d Hi0) as (Hdc & sd & Hd & _ & Hall & _).
  assert (Hltd : d < length (nodes w)) by (by eapply lookup_lt_Some).
  assert (Hltc : c < length (nodes w)) by (by eapply lookup_lt_Some).
  unfold set. rewrite Hd. cbn [mbind option_bind].
  set (v := resolve a (st_value sd)).
  destruct (strict_ne (st_value sd) v) eqn:Hne; [|by exists w].
  set (sd' := mkStateSrc v (st_subs sd)).
  assert (Hsubs_a : ∀ m lg, subs_of m (mkWorld (<[d := NState sd']> (nodes w)) lg) = subs_of m w).
  { intros m lg. unfold subs_of. simpl. destruct (decide (m = d)) as [->|Hmd].
    - by rewrite list_lookup_insert_eq, Hd.
    - by rewrite list_lookup_insert_ne. }
  set (wa := put d (NState sd') w).
  assert (Hlen : length (nodes w) = S (length (nodes w) - 1)) by lia.
  rewrite Hlen.
  destruct (notify_listeners c ds d v (length (nodes w) - 1) (st_subs sd) wa cs sd')
    as (w' & ca' & Hn & Hnodes & Hca); try done.
  { unfold wa. simpl. by rewrite list_lookup_insert_ne by lia. }
  { by apply nodes_put_eq. }
  { by apply Forall_forall. }
  exists w'. split; [done|].
  assert (Hw' : w' = mkWorld (<[c := NComputed (with_cache ca' cs)]> (nodes wa)) (log w'))
    by (destruct w'; simpl in *; by subst).
  rewrite Hw'. split; [|intros m; rewrite subs_of_cache;
    [apply Hsubs_a|unfold wa; simpl; by rewrite list_lookup_insert_ne by lia]].
  apply (tracking_update c ds tr w); try done.
  - unfold wa. simpl. by rewrite length_insert.
  - intros d' s' Hne' Hd'. unfold wa. simpl. destruct (decide (d' = d)) as [->|Hdd].
    + exists sd'. rewrite list_lookup_insert_eq by done. by simplify_eq.
    + exists s'. by rewrite list_lookup_insert_ne by done.
  - intros k d' s' Hk Hd'. rewrite Hca.
    destruct (Hslots k d' Hk) as (_ & s0 & Hd0 & [g Hg] & Hall0 & Hcoh0).
    unfold wa in Hd'. simpl in Hd'.
    destruct (decide (d' = d)) as [->|Hdd].
    + rewrite list_lookup_insert_eq in Hd' by done. injection Hd' as <-. simplify_eq.
      assert (existsb (listens_at c k) (st_subs sd) = true) as ->
        by (apply existsb_listens; eauto).
      by right.
    + rewrite list_lookup_insert_ne in Hd' by done. simplify_eq.
      destruct (existsb (listens_at c k) (st_subs sd)) eqn:Hex; [|done].
      apply existsb_listens in Hex as [g' Hg'].
      destruct (Hall _ Hg') as [Hu|(j & g'' & Heq & Hj)]; [done|].
      injection Heq as <- <-. congruence.
Qed.

Lemma computed_args_cons getf n d rest i w :
  computed_args getf n (d :: rest) i w =
  w1 ← (if negb (truthy (arr_get (cache_of n w) i))
        then '(v, w') ← getf d w; Some (set_cache n (arr_set (cache_of n w') i v) w')
        else Some w);
  '(args, w2) ← computed_args getf n rest (S i) w1;
  Some (arr_get (cache_of n w1) i :: args, w2).
Proof. done. Qed.

Lemma tracking_value c ds tr w i d :
  tracking c ds tr w → ds !! i = Some d →
  ∃ cs s, nodes w !! c = Some (NComputed cs) ∧ nodes w !! d = Some (NState s) ∧ d < c ∧
    value_of d w = st_value s ∧
    (arr_get (cache cs) i = VUndefined ∨ arr_get (cache cs) i = st_value s).
Proof.
  intros (cs & Hc & Hds & Htr & Hus & Hslots) Hi.
  destruct (Hslots i d Hi) as (Hdc & s & Hd & _ & _ & Hcoh).
  exists cs, s. split_and!; try done. unfold value_of. by rewrite Hd.
Qed.

Lemma tracking_emit c ds tr es w : tracking c ds tr w → tracking c ds tr (emit es w).
Proof. done. Qed.

(** Reading the slots [i], [i+1], ... gives the current values of their
    dependencies and keeps [tracking]. *)
Lemma computed_args_tracking f c ds tr : ∀ ds' i w,
  (∀ k d, ds' !! k = Some d → ds !! (i + k) = Some d) →
  tracking c ds tr w →
  ∃ w', computed_args (get_from (S f)) c ds' i w = Some (values_of ds' w, w') ∧
    tracking c ds tr w' ∧ (∀ d, value_of d w' = value_of d w) ∧
    ∀ m, subs_of m w' = subs_of m w.
Proof.
  induction ds' as [|d ds' IH]; intros i w Hsuf Htrack.
  - by exists w.
  - assert (Hi : ds !! i = Some d) by (rewrite <- (Nat.add_0_r i); by apply Hsuf).
    destruct (tracking_value c ds tr w i d Htrack Hi) as (cs & s & Hc & Hd & Hdc & Hval & Hcoh).
    assert (Hltc : c < length (nodes w)) by (by eapply lookup_lt_Some).
    assert (Hcache : cache_of c w = cache cs) by (unfold cache_of; by rewrite Hc).
    assert (Hstep : ∃ w1,
      (if negb (truthy (arr_get (cache_of c w) i))
       then '(v, w') ← get_from (S f) d w;
            Some (set_cache c (arr_set (cache_of c w') i v) w')
       else Some w) = Some w1 ∧
      tracking c ds tr w1 ∧ (∀ d', value_of d' w1 = value_of d' w) ∧
      arr_get (cache_of c w1) i = st_value s ∧ ∀ m, subs_of m w1 = subs_of m w).
    { rewrite Hcache. destruct (truthy (arr_get (cache cs) i)) eqn:Htruthy; cbn [negb].
      - exists w. split_and!; try done. rewrite Hcache.
        destruct Hcoh as [Hu|Hv]; [|done]. by rewrite Hu in Htruthy.
      - assert (Hca1 : cache_of c (emit [GetCalled d] w) = cache cs)
          by (unfold cache_of; simpl; by rewrite Hc).
        assert (Hset : set_cache c (arr_set (cache cs) i (st_value s)) (emit [GetCalled d] w) =
                       mkWorld (<[c := NComputed (with_cache (arr_set (cache cs) i (st_value s))
                                                     cs)]> (nodes w))
                               (log w ++ [GetCalled d])).
        { unfold set_cache. simpl. by rewrite Hc. }
        eexists. split.
        { rewrite (state_get_from f d s w Hd). cbn [mbind option_bind].
          rewrite Hca1, Hset. done. }
        split_and!.
        + apply (tracking_update c ds tr w cs); [done|done|done|eauto|].
          intros k d' s' Hk Hd'. rewrite arr_get_arr_set.
          destruct (decide (k = i)) as [->|Hki]; [right; congruence|].
          destruct Htrack as (cs0 & Hc0 & _ & _ & _ & Hslots).
          destruct (Hslots k d' Hk) as (_ & s0 & Hd0 & _ & _ & Hcoh0). by simplify_eq.
        + intros d'. unfold value_of. simpl.
          destruct (decide (d' = c)) as [->|Hne].
          * rewrite list_lookup_insert_eq by done. by rewrite Hc.
          * by rewrite list_lookup_insert_ne.
        + unfold cache_of. simpl. rewrite list_lookup_insert_eq by done. simpl.
          rewrite arr_get_arr_set. by rewrite decide_True.
        + intros m. rewrite subs_of_cache by done. done. }
    destruct Hstep as (w1 & Hw1 & Htrack1 & Hval1 & Hslot & Hsubs1).
    destruct (IH (S i) w1) as (w' & Hargs & Htrack' & Hval' & Hsubs'); [|done|].
    { intros k d' Hk. replace (S i + k) with (i + S k) by lia. by apply Hsuf. }
    exists w'. rewrite computed_args_cons, Hw1. cbn [mbind option_bind].
    rewrite Hargs. cbn [mbind option_bind]. split_and!; [|done| |].
    + rewrite Hslot, <- Hval. unfold values_of. cbn [fmap list_fmap]. do 3 f_equal.
      apply list_fmap_ext. intros ? d' _. apply Hval1.
    + intros d'. by rewrite Hval', Hval1.
    + intros m. by rewrite Hsubs', Hsubs1.
Qed.

(** Reading [c] gives the transform of the current values and keeps
    [tracking]. *)
Lemma get_tracking c ds tr w :
  tracking c ds tr w →
  ∃ w', get c w = Some (tr (values_of ds w), w') ∧ tracking c ds tr w' ∧
        (∀ d, value_of d w' = value_of d w) ∧ ∀ m, subs_of m w' = subs_of m w.
Proof.
  intros Htrack. pose proof Htrack as (cs & Hc & Hds & Htr & Hus & Hslots).
  unfold get. cbn [get_from]. rewrite Hc. cbn [mbind option_bind]. rewrite Hds.
  destruct c as [|f].
  - destruct ds as [|d ds]; [|destruct (Hslots 0 d eq_refl); lia].
    eexists. split; [by rewrite Htr|]. split; [done|]. done.
  - destruct (computed_args_tracking f (S f) ds tr ds 0 (emit [GetCalled (S f)] w))
      as (w' & Hargs & Htrack' & Hval' & Hsubs'); [done|done|].
    rewrite Hargs. cbn [mbind option_bind]. rewrite Htr.
    eexists. split; [reflexivity|]. split; [done|].
    split; [intros d; exact (Hval' d)|intros m; exact (Hsubs' m)].
Qed.

(** What the first [subscribe] of [c] leaves behind. *)
Lemma subscribe_world c cs cb w :
  unread_over_states c cs w →
  ∃ us, subscribe c (UserCb cb) w =
    Some (Unsub c (UserCb cb),
          put c (NComputed (mkComputedSrc (deps cs) (transform cs) us [UserCb cb] (cache cs)
                                          (S (c_gen cs))))
              (add_listeners c (c_gen cs) (deps cs) 0 w)).
Proof.
  intros (Hc & Hsubs & Hcache & Hdeps).
  assert (Hltc : c < length (nodes w)) by (by eapply lookup_lt_Some).
  assert (Hstates : Forall (λ d, ∃ s, nodes w !! d = Some (NState s)) (deps cs)).
  { eapply Forall_impl; [exact Hdeps|]. intros d (_ & s & Hd & _). eauto. }
  set (g := c_gen cs).
  set (w1 := add_listeners c g (deps cs) 0 w).
  destruct (add_listeners_spec c g (deps cs) 0 w Hstates) as (Hlog & Hlen & Hother & Hst).
  fold w1 in Hlog, Hlen, Hother, Hst.
  assert (Hsd : ∃ us, subscribe_deps (subscribe_from c) c g (deps cs) 0 w = Some (us, w1)).
  { destruct c as [|f]; [|by apply subscribe_deps_states].
    destruct (deps cs) as [|d ds] eqn:Hds; [by exists []|].
    inversion Hdeps as [|? ? [Hlt _] _]. lia. }
  destruct Hsd as [us Hsd].
  assert (Hc1 : nodes w1 !! c = Some (NComputed cs)).
  { rewrite Hother; [done|]. intros s Hs. congruence. }
  exists us.
  unfold subscribe. cbn [subscribe_from].
  assert (subs_of c w = []) as -> by (unfold subs_of; by rewrite Hc).
  rewrite decide_True by done.
  unfold activate. rewrite Hc. cbn [mbind option_bind]. fold g. rewrite Hsd.
  cbn [mbind option_bind]. rewrite Hc1. cbn [mbind option_bind].
  unfold add_sub. rewrite nodes_put_eq by (by rewrite Hlen). simpl.
  rewrite Hsubs. unfold put. simpl. by rewrite list_insert_insert_eq.
Qed.

(** The first subscriber makes [c] track its dependencies. *)
Lemma subscribe_tracks c cs cb w :
  unread_over_states c cs w →
  ∃ w1, subscribe c (UserCb cb) w = Some (Unsub c (UserCb cb), w1) ∧
        tracking c (deps cs) (transform cs) w1.
Proof.
  intros Hw. destruct (subscribe_world c cs cb w Hw) as [us Hsub].
  destruct Hw as (Hc & Hsubs & Hcache & Hdeps).
  assert (Hltc : c < length (nodes w)) by (by eapply lookup_lt_Some).
  assert (Hstates : Forall (λ d, ∃ s, nodes w !! d = Some (NState s)) (deps cs)).
  { eapply Forall_impl; [exact Hdeps|]. intros d (_ & s & Hd & _). eauto. }
  set (g := c_gen cs) in *.
  set (w1 := add_listeners c g (deps cs) 0 w) in *.
  destruct (add_listeners_spec c g (deps cs) 0 w Hstates) as (Hlog & Hlen & Hother & Hst).
  fold w1 in Hlog, Hlen, Hother, Hst.
  set (cs1 := mkComputedSrc (deps cs) (transform cs) us [UserCb cb] (cache cs) (S g)) in *.
  exists (put c (NComputed cs1) w1). split; [done|].
  exists cs1. simpl. split_and!; try done.
  - apply list_lookup_insert_eq. by rewrite Hlen.
  - by repeat constructor.
  - intros i d Hi.
    assert (Hd : d ∈ deps cs) by (by eapply list_elem_of_lookup_2).
    rewrite Forall_forall in Hdeps. destruct (Hdeps d Hd) as (Hdc & s & Hs & Hu).
    split; [done|]. destruct (Hst d s Hs) as (s' & Hs' & Hv & Hsubs').
    exists s'. rewrite list_lookup_insert_ne by lia. split_and!; try done.
    + exists g. apply Hsubs'. right. by exists i.
    + intros x [Hx|(j & -> & Hj)]%Hsubs'.
      * left. rewrite Forall_forall in Hu. by apply Hu.
      * right. by exists (0 + j), g.
    + left. apply Hcache.
Qed.

Lemma reader_run_tracking c ds tr ops : ∀ w,
  tracking c ds tr w →
  Forall (λ o, match o with RSet d _ => d ∈ ds | RGet => True end) ops →
  ∃ w', reader_run c ops w = Some w' ∧ tracking c ds tr w' ∧
        ∀ m, subs_of m w' = subs_of m w.
Proof.
  induction ops as [|o ops IH]; intros w Htrack Hops; [by exists w|].
  inversion Hops as [|? ? Ho Hops']; subst. cbn [reader_run].
  destruct o as [d a|]; cbn [reader_step].
  - destruct (set_tracking c ds tr d a w Htrack Ho) as (w1 & -> & Htrack1 & Hsubs1).
    cbn [mbind option_bind]. destruct (IH w1 Htrack1 Hops') as (w' & Hrun & Htrack' & Hsubs').
    exists w'. split_and!; [done|done|]. intros m. by rewrite Hsubs', Hsubs1.
  - destruct (get_tracking c ds tr w Htrack) as (w1 & -> & Htrack1 & _ & Hsubs1).
    cbn [mbind option_bind]. destruct (IH w1 Htrack1 Hops') as (w' & Hrun & Htrack' & Hsubs').
    exists w'. split_and!; [done|done|]. intros m. by rewrite Hsubs', Hsubs1.
Qed.

(** X18: a computed source over stateful sources that is subscribed to
    before it is read follows them: after any calls of their setters and
    any reads in between, [get] returns the transform of the values the
    sources hold now. *)
Theorem subscribed_computed_follows_states (w : World) (c : nat) (cs : ComputedSrc)
  (cb : nat) (ops : list reader_op) :
  unread_over_states c cs w →
  Forall (λ o, match o with RSet d _ => d ∈ deps cs | RGet => True end) ops →
  ∃ w1 w2 w3,
    subscribe c (UserCb cb) w = Some (Unsub c (UserCb cb), w1) ∧
    reader_run c ops w1 = Some w2 ∧
    get c w2 = Some (transform cs (values_of (deps cs) w2), w3).
Proof.
  intros Hw Hops.
  destruct (subscribe_tracks c cs cb w Hw) as (w1 & Hsub & Htrack1).
  destruct (reader_run_tracking c _ _ ops w1 Htrack1 Hops) as (w2 & Hrun & Htrack2 & _).
  destruct (get_tracking c _ _ w2 Htrack2) as (w3 & Hget & _).
  by exists w1, w2, w3.
Qed.

Lemma computed_over_state_unread :
  unread_over_states 1 (mkComputedSrc [0] double [] [] [VUndefined] 0) computed_over_state.
Proof.
  split; [reflexivity|]. split; [reflexivity|]. split.
  - intros [|i]; reflexivity.
  - constructor; [|constructor]. split; [lia|].
    exists (mkStateSrc (VNum 1) []). split; [reflexivity|constructor].
Defined.

Lemma subscribed_computed_follows_states_witness :
  ∃ w1 w2 w3,
    subscribe 1 (UserCb 7) computed_over_state = Some (Unsub 1 (UserCb 7), w1) ∧
    reader_run 1 [RGet; RSet 0 (SetValue (VNum 5))] w1 = Some w2 ∧
    get 1 w2 = Some (VNum 10, w3).
Proof.
  destruct (subscribed_computed_follows_states computed_over_state 1
              (mkComputedSrc [0] double [] [] [VUndefined] 0) 7
              [RGet; RSet 0 (SetValue (VNum 5))] computed_over_state_unread)
    as (w1 & w2 & w3 & H1 & H2 & H3).
  { constructor; [done|]. constructor; [|constructor]. by apply list_elem_of_singleton. }
  exists w1, w2, w3. split; [exact H1|]. split; [exact H2|].
  rewrite H3. vm_compute in H1. injection H1 as <-.
  vm_compute in H2. injection H2 as <-. reflexivity.
Defined.

End ComputedLaws.

(** ** Reading a source *)

Module GetLaws.
Import StateTs StateClients StateFacts StateLaws.

Lemma same_node_refl nd : same_node_but_cache nd nd.
Proof. by destruct nd. Qed.

Lemma same_node_trans a b c :
  same_node_but_cache a b → same_node_but_cache b c → same_node_but_cache a c.
Proof.
  destruct a, b, c; simpl; try congruence; try done.
  intros (? & ? & ? & ? & ?) (? & ? & ? & ? & ?). split_and!; congruence.
Qed.

Lemma same_but_caches_refl w : same_but_caches w w.
Proof.
  apply Forall2_same_length_lookup_2; [done|].
  intros i x y ? ?. simplify_eq. apply same_node_refl.
Qed.

Lemma same_but_caches_trans w1 w2 w3 :
  same_but_caches w1 w2 → same_but_caches w2 w3 → same_but_caches w1 w3.
Proof.
  unfold same_but_caches. intros H12 H23.
  eapply Forall2_trans; [|exact H12|exact H23]. apply same_node_trans.
Qed.

Lemma same_but_caches_emit es w : same_but_caches w (emit es w).
Proof. exact (same_but_caches_refl w). Qed.

Lemma same_but_caches_set_cache n ca w : same_but_caches w (set_cache n ca w).
Proof.
  unfold set_cache. destruct (nodes w !! n) as [[?|c|?|?]|] eqn:Hn;
    try apply same_but_caches_refl.
  unfold same_but_caches, put. simpl.
  apply Forall2_same_length_lookup_2; [by rewrite length_insert|].
  intros i x y Hx Hy. destruct (decide (i = n)) as [->|Hne].
  - rewrite list_lookup_insert_eq in Hy by (by eapply lookup_lt_Some). by simplify_eq.
  - rewrite list_lookup_insert_ne in Hy by done. simplify_eq. apply same_node_refl.
Qed.

Lemma same_but_caches_wf w w' : same_but_caches w w' → wf w → wf w'.
Proof.
  intros Hs Hwf n c Hn.
  destruct (Forall2_lookup_r _ _ _ _ _ Hs Hn) as (nd & Hnd & Hsame).
  destruct nd as [?|c0|?|?]; simpl in Hsame; try done.
  destruct Hsame as (-> & _). by eapply Hwf.
Qed.

Lemma same_but_caches_length w w' : same_but_caches w w' → length (nodes w') = length (nodes w).
Proof. intros Hs. symmetry. by eapply Forall2_length. Qed.

Lemma computed_args_total (getf : nat → World → option (value * World)) n :
  (∀ d w, wf w → d < n → d < length (nodes w) →
     ∃ v w', getf d w = Some (v, w') ∧ same_but_caches w w') →
  ∀ ds i w, wf w → Forall (λ d, d < n) ds → n < length (nodes w) →
  ∃ args w', computed_args getf n ds i w = Some (args, w') ∧ same_but_caches w w' ∧
             length args = length ds.
Proof.
  intros Hget. induction ds as [|d ds IH]; intros i w Hwf Hds Hn.
  - exists [], w. split_and!; [done|apply same_but_caches_refl|done].
  - inversion Hds as [|? ? Hd Hds']; subst.
    rewrite ComputedLaws.computed_args_cons.
    assert (Hstep : ∃ w1,
      (if negb (truthy (arr_get (cache_of n w) i))
       then '(v, w') ← getf d w; Some (set_cache n (arr_set (cache_of n w') i v) w')
       else Some w) = Some w1 ∧ same_but_caches w w1).
    { destruct (negb _).
      - destruct (Hget d w Hwf Hd ltac:(lia)) as (v & w' & Hg & Hs).
        eexists. split; [rewrite Hg; done|].
        eapply same_but_caches_trans; [done|apply same_but_caches_set_cache].
      - exists w. split; [done|apply same_but_caches_refl]. }
    destruct Hstep as (w1 & -> & Hs1). cbn [mbind option_bind].
    destruct (IH (S i) w1) as (args & w2 & -> & Hs2 & Hlen); try done.
    { by eapply same_but_caches_wf. }
    { by rewrite (same_but_caches_length _ _ Hs1). }
    cbn [mbind option_bind]. eexists _, _. split_and!; [done| |simpl; by rewrite Hlen].
    by eapply same_but_caches_trans.
Qed.

Lemma get_from_total fuel :
  ∀ n w, wf w → n < fuel → n < length (nodes w) →
  ∃ v w', get_from fuel n w = Some (v, w') ∧ same_but_caches w w'.
Proof.
  induction fuel as [|fuel IH]; intros n w Hwf Hfuel Hn; [lia|].
  destruct (lookup_lt_is_Some_2 _ _ Hn) as [nd Hnd].
  cbn [get_from]. rewrite Hnd. cbn [mbind option_bind].
  destruct nd as [s|c|c|e]; try (eexists _, _; split; [done|apply same_but_caches_emit]).
  destruct (computed_args_total (get_from fuel) n
              ltac:(intros; apply IH; [done|lia|done]) (deps c) 0 (emit [GetCalled n] w))
    as (args & w' & -> & Hs & _); try done.
  { by eapply Hwf. }
  cbn [mbind option_bind]. eexists _, _. split; [done|].
  eapply same_but_caches_trans; [apply (same_but_caches_emit [GetCalled n])|].
  eapply same_but_caches_trans; [exact Hs|apply same_but_caches_emit].
Qed.

(** X19: on a world where every computed source was created after its
    dependencies, [get] of any source returns; it calls no subscriber, and
    it leaves every source as it was but for the caches of computed
    sources. *)
Theorem get_returns_and_only_fills_caches (w : World) (n : nat) :
  wf w → n < length (nodes w) →
  ∃ v w' evs, get n w = Some (v, w') ∧ same_but_caches w w' ∧
    log w' = log w ++ evs ∧ Forall (λ e, is_call e = false) evs ∧
    (∀ m, subs_of m w' = subs_of m w) ∧ (∀ m, value_of m w' = value_of m w).
Proof.
  intros Hwf Hn.
  destruct (get_from_total (S n) n w Hwf ltac:(lia) Hn) as (v & w' & Hget & Hs).
  destruct (get_from_grows _ _ _ _ _ Hget) as (evs & Hlog & Hq).
  exists v, w', evs. split_and!; try done.
  - intros m. unfold subs_of.
    destruct (nodes w !! m) as [nd|] eqn:Hm.
    + destruct (Forall2_lookup_l _ _ _ _ _ Hs Hm) as (nd' & -> & Hsame).
      destruct nd, nd'; simpl in Hsame; try done; try by simplify_eq.
      by destruct Hsame as (_ & _ & _ & -> & _).
    + rewrite (lookup_ge_None_2 (nodes w')); [done|].
      rewrite (same_but_caches_length _ _ Hs). by apply lookup_ge_None.
  - intros m. unfold value_of.
    destruct (nodes w !! m) as [nd|] eqn:Hm.
    + destruct (Forall2_lookup_l _ _ _ _ _ Hs Hm) as (nd' & -> & Hsame).
      destruct nd, nd'; simpl in Hsame; try done; by simplify_eq.
    + rewrite (lookup_ge_None_2 (nodes w')); [done|].
      rewrite (same_but_caches_length _ _ Hs). by apply lookup_ge_None.
Qed.

Lemma get_returns_and_only_fills_caches_witness :
  ∃ w', get 2 computed_over_external = Some (VNum 0, w') ∧
        cache_of 2 computed_over_external = [VUndefined; VUndefined] ∧
        cache_of 2 w' = [VNum 1; VNum 0].
Proof.
  destruct (get_returns_and_only_fills_caches computed_over_external 2
              computed_over_external_wf ltac:(simpl; lia)) as (v & w' & evs & Hget & _).
  vm_compute in Hget. injection Hget as <- <-. eexists. split; [reflexivity|].
  split; reflexivity.
Defined.

End GetLaws.

(** ** Connection sources *)

Module ConnectionLaws.
Import StateTs StateClients StateFacts StateLaws.

Lemma count_event_app e l1 l2 : count_event e (l1 ++ l2) = count_event e l1 + count_event e l2.
Proof. unfold count_event. by rewrite filter_app, length_app. Qed.

Lemma count_event_none e l : e ∉ l → count_event e l = 0.
Proof.
  intros Hn. unfold count_event. induction l as [|x l IH]; [done|].
  apply not_elem_of_cons in Hn as [Hx Hl]. rewrite filter_cons, decide_False by done. auto.
Qed.

Lemma count_event_fmap_NoDup `{EqDecision A} (f : A → event) `{!Inj (=) (=) f}
  (x : A) (l : list A) :
  NoDup l → count_event (f x) (f <$> l) = if bool_decide (x ∈ l) then 1 else 0.
Proof.
  intros Hnd. induction Hnd as [|y l Hy Hnd IH]; [done|].
  unfold count_event in *. rewrite fmap_cons, filter_cons.
  destruct (decide (f y = f x)) as [Heq|Hne].
  - apply (inj f) in Heq as ->. simpl. rewrite IH.
    rewrite (bool_decide_eq_false_2 (x ∈ l)) by done.
    rewrite bool_decide_eq_true_2; [done|by left].
  - rewrite IH. destruct (decide (x ∈ l)).
    + rewrite !bool_decide_eq_true_2; [done|by right|done].
    + rewrite !bool_decide_eq_false_2; [done| |done].
      intros [->|?]%elem_of_cons; done.
Qed.

#[local] Instance Connected_inj n : Inj (=) (=) (Connected n).
Proof. by intros ?? [= ->]. Qed.

#[local] Instance Disconnected_inj n : Inj (=) (=) (Disconnected n).
Proof. by intros ?? [= ->]. Qed.

Lemma connection_subscribe_spec n c x w :
  nodes w !! n = Some (NConnection c) →
  subscribe n x w =
    Some (Unsub n x,
          if decide (cn_subs c = []) then
            mkWorld (<[n := NConnection (mkConnectionSrc (cn_value c)
                                           (seq 0 (length (signals c))) [x] (signals c))]>
                       (nodes w))
                    (log w ++ (Connected n <$> seq 0 (length (signals c))))
          else put n (NConnection (mkConnectionSrc (cn_value c) (cn_dispose c)
                                     (set_add x (cn_subs c)) (signals c))) w).
Proof.
  intros Hn. assert (Hlt : n < length (nodes w)) by (by eapply lookup_lt_Some).
  assert (Hsubs : subs_of n w = cn_subs c) by (unfold subs_of; by rewrite Hn).
  unfold subscribe. cbn [subscribe_from]. rewrite Hsubs.
  destruct (decide (cn_subs c = [])) as [Hnil|Hne].
  - rewrite Hnil. simpl. unfold activate. rewrite Hn. simpl. do 2 f_equal.
    unfold add_sub. simpl. rewrite list_lookup_insert_eq by done. simpl.
    unfold put. simpl. by rewrite list_insert_insert_eq, Hnil.
  - rewrite decide_False by (by destruct (cn_subs c)). rewrite Hn. simpl.
    unfold add_sub. by rewrite Hn.
Qed.

Lemma connection_unsubscribe_spec n c x w :
  nodes w !! n = Some (NConnection c) →
  call_unsub (Unsub n x) w =
    Some (if decide (set_delete x (cn_subs c) = []) then
            mkWorld (<[n := NConnection (mkConnectionSrc (cn_value c) []
                                           (set_delete x (cn_subs c)) (signals c))]> (nodes w))
                    (log w ++ (Disconnected n <$> cn_dispose c))
          else put n (NConnection (mkConnectionSrc (cn_value c) (cn_dispose c)
                                     (set_delete x (cn_subs c)) (signals c))) w).
Proof.
  intros Hn. assert (Hlt : n < length (nodes w)) by (by eapply lookup_lt_Some).
  set (w1 := put n (NConnection (mkConnectionSrc (cn_value c) (cn_dispose c)
                                   (set_delete x (cn_subs c)) (signals c))) w).
  assert (Hdel : delete_sub n x w = w1) by (by apply delete_sub_connection).
  assert (Hn1 : nodes w1 !! n = Some (NConnection (mkConnectionSrc (cn_value c) (cn_dispose c)
                                   (set_delete x (cn_subs c)) (signals c))))
    by (by apply nodes_put_eq).
  assert (Hsubs : subs_of n w1 = set_delete x (cn_subs c)) by (unfold subs_of; by rewrite Hn1).
  cbn [call_unsub unsubscribe_from]. rewrite Hn. cbn [mbind option_bind].
  rewrite Hdel, Hsubs.
  destruct (decide (set_delete x (cn_subs c) = [])) as [Hnil|Hne].
  - rewrite Hnil. simpl. unfold deactivate. rewrite Hn1. simpl. rewrite Hnil.
    unfold emit, put. simpl. by rewrite list_insert_insert_eq.
  - rewrite decide_False; [done|]. by destruct (set_delete x (cn_subs c)).
Qed.

Section Session.
Variable n : nat.
Variable hs : list (value → value).
Variable lg0 : list event.

Lemma count_connected_all h :
  h < length hs →
  count_event (Connected n h) (Connected n <$> seq 0 (length hs)) = 1 ∧
  count_event (Disconnected n h) (Disconnected n <$> seq 0 (length hs)) = 1 ∧
  count_event (Connected n h) (Disconnected n <$> seq 0 (length hs)) = 0 ∧
  count_event (Disconnected n h) (Connected n <$> seq 0 (length hs)) = 0.
Proof.
  intros Hh.
  assert (Hin : h ∈ seq 0 (length hs)) by (apply elem_of_seq; lia).
  split_and!.
  - rewrite (count_event_fmap_NoDup (Connected n)) by apply NoDup_seq.
    by rewrite bool_decide_eq_true_2.
  - rewrite (count_event_fmap_NoDup (Disconnected n)) by apply NoDup_seq.
    by rewrite bool_decide_eq_true_2.
  - apply count_event_none. by intros (? & ? & ?)%list_elem_of_fmap.
  - apply count_event_none. by intros (? & ? & ?)%list_elem_of_fmap.
Qed.

Lemma conn_step_inv o ss issued :
  conn_inv n hs lg0 ss → length ss.2 = issued →
  (match o with COUnsubscribe k => k < issued | _ => True end) →
  ∃ ss', conn_step n o ss = Some ss' ∧ conn_inv n hs lg0 ss' ∧
         length ss'.2 = match o with COSubscribe _ => S issued | _ => issued end.
Proof.
  intros (c & evs & Hn & Hsig & Hus & Hdis & Hhandles & Hlog & Hbal) Hlen Hvalid.
  destruct ss as [w us]. simpl in *.
  assert (Hlt : n < length (nodes w)) by (by eapply lookup_lt_Some).
  destruct o as [cb|k|h]; cbn [conn_step fst snd].
  - rewrite (connection_subscribe_spec n c _ w Hn). cbn [mbind option_bind].
    eexists. split; [done|]. split; [|simpl; rewrite length_app; simpl; lia].
    assert (Hhandles' : Forall (λ u, ∃ cb0, u = Unsub n (UserCb cb0))
                               (us ++ [Unsub n (UserCb cb)])).
    { apply Forall_app. split; [done|]. repeat constructor. by exists cb. }
    destruct (decide (cn_subs c = [])) as [Hnil|Hne].
    + eexists _, (evs ++ (Connected n <$> seq 0 (length hs))). simpl.
      rewrite list_lookup_insert_eq by done. split_and!.
      * done.
      * done.
      * by repeat constructor.
      * unfold connected_handlers. simpl. done.
      * done.
      * by rewrite Hlog, Hsig, <- app_assoc.
      * intros h Hh. rewrite !count_event_app, (Hbal h Hh). simpl.
        destruct (count_connected_all h Hh) as (-> & _ & _ & ->). lia.
    + eexists _, evs. simpl. rewrite list_lookup_insert_eq by done.
      assert (Hne' : set_add (UserCb cb) (cn_subs c) ≠ []).
      { unfold set_add. case_decide; [done|]. by destruct (cn_subs c). }
      split_and!.
      * done.
      * done.
      * unfold set_add. case_decide; [done|]. apply Forall_app. split; [done|].
        by repeat constructor.
      * rewrite Hdis. unfold connected_handlers. simpl.
        by rewrite !decide_False.
      * done.
      * done.
      * intros h Hh. rewrite (Hbal h Hh). simpl. by rewrite ?decide_False by done.
  - destruct (lookup_lt_is_Some_2 us k ltac:(lia)) as [u Hu]. rewrite Hu.
    cbn [mbind option_bind].
    pose proof Hhandles as Hhandles0. rewrite Forall_forall in Hhandles0.
    destruct (Hhandles0 u ltac:(by eapply list_elem_of_lookup_2)) as [cb ->].
    rewrite (connection_unsubscribe_spec n c _ w Hn). cbn [mbind option_bind].
    eexists. split; [done|]. split; [|done].
    assert (Hus' : Forall (λ x, is_user x = true) (set_delete (UserCb cb) (cn_subs c))).
    { unfold set_delete. apply Forall_forall. intros y [_ Hy]%list_elem_of_filter.
      rewrite Forall_forall in Hus. by apply Hus. }
    destruct (decide (set_delete (UserCb cb) (cn_subs c) = [])) as [Hnil|Hne].
    + eexists _, (evs ++ (Disconnected n <$> cn_dispose c)). simpl.
      rewrite list_lookup_insert_eq by done. split_and!.
      * done.
      * done.
      * done.
      * unfold connected_handlers. simpl. by rewrite Hnil.
      * done.
      * by rewrite Hlog, <- app_assoc.
      * intros h Hh. rewrite !count_event_app, (Hbal h Hh). simpl.
        rewrite (decide_True _ _ Hnil).
        rewrite Hdis. unfold connected_handlers.
        destruct (decide (cn_subs c = [])) as [Hc|Hc]; simpl.
        -- unfold count_event. simpl. lia.
        -- rewrite Hsig. destruct (count_connected_all h Hh) as (_ & -> & -> & _). lia.
    + eexists _, evs. simpl. rewrite list_lookup_insert_eq by done.
      assert (Hc : cn_subs c ≠ []).
      { intros Hc. rewrite Hc in Hne. done. }
      split_and!.
      * done.
      * done.
      * done.
      * rewrite Hdis. unfold connected_handlers. simpl. by rewrite !decide_False.
      * done.
      * done.
      * intros h Hh. rewrite (Hbal h Hh). simpl. by rewrite ?decide_False by done.
  - unfold connection_emit. rewrite Hn. cbn [mbind option_bind].
    assert (Hsame : conn_inv n hs lg0 (w, us)) by (by exists c, evs).
    destruct (decide (h ∈ cn_dispose c)) as [Hin|Hnin]; [|by exists (w, us)].
    assert (Hh : h < length hs).
    { rewrite Hdis in Hin. unfold connected_handlers in Hin.
      case_decide; [by apply elem_of_nil in Hin|].
      apply elem_of_seq in Hin. rewrite <- Hsig. lia. }
    destruct (lookup_lt_is_Some_2 (signals c) h ltac:(by rewrite Hsig)) as [callback Hcb].
    rewrite Hcb. cbn [mbind option_bind].
    destruct (strict_ne (cn_value c) (callback (cn_value c))); [|by exists (w, us)].
    rewrite notify_users by done. cbn [mbind option_bind].
    eexists. split; [done|]. split; [|done].
    eexists _, (evs ++ (Called <$> cn_subs c)). simpl.
    rewrite list_lookup_insert_eq by done. split_and!.
    + done.
    + done.
    + done.
    + done.
    + done.
    + by rewrite Hlog, <- app_assoc.
    + intros h' Hh'. rewrite !count_event_app, (Hbal h' Hh').
      rewrite !(count_event_none _ (Called <$> _)); [simpl; lia|..];
        by intros (? & ? & ?)%list_elem_of_fmap.
Qed.

Lemma conn_run_inv ops : ∀ ss issued,
  conn_inv n hs lg0 ss → length ss.2 = issued → handles_exist issued ops = true →
  ∃ ss', conn_run n ops ss = Some ss' ∧ conn_inv n hs lg0 ss'.
Proof.
  induction ops as [|o ops IH]; intros ss issued Hinv Hlen Hvalid; [by exists ss|].
  cbn [conn_run].
  assert (Hnow : match o with COUnsubscribe k => k < issued | _ => True end).
  { destruct o; try done. simpl in Hvalid.
    apply andb_true_iff in Hvalid as [Hk _]. by apply bool_decide_eq_true in Hk. }
  destruct (conn_step_inv o ss issued Hinv Hlen Hnow) as (ss' & -> & Hinv' & Hlen').
  cbn [mbind option_bind]. eapply IH; [done|done|].
  destruct o; simpl in Hvalid; try done. by apply andb_true_iff in Hvalid as [_ ?].
Qed.

End Session.

(** X20: whatever a client of a connection source does - subscribe, call
    any unsubscribe function any number of times, signals arriving in
    between - the handlers are connected exactly while there is a
    subscriber: after every run each handler has been connected once more
    than disconnected if somebody is subscribed, and as often if nobody
    is. *)
Theorem connection_connected_while_subscribed (w : World) (n : nat) (c : ConnectionSrc)
  (ops : list conn_op) :
  cold_connection n c w → handles_exist 0 ops = true →
  ∃ w' us c',
    conn_run n ops (w, []) = Some (w', us) ∧
    nodes w' !! n = Some (NConnection c') ∧
    cn_dispose c' = connected_handlers c (cn_subs c') ∧
    ∀ h, h < length (signals c) →
      count_event (Connected n h) (since w w') =
      count_event (Disconnected n h) (since w w') +
      (if decide (cn_subs c' = []) then 0 else 1).
Proof.
  intros (Hn & Hsubs & Hdis) Hvalid.
  destruct (conn_run_inv n (signals c) (log w) ops (w, []) 0) as ([w' us] & Hrun & Hinv);
    [|done|done|].
  { exists c, []. simpl. rewrite Hsubs, Hdis, app_nil_r. split_and!; try done. }
  destruct Hinv as (c' & evs & Hn' & Hsig & _ & Hdis' & _ & Hlog & Hbal). simpl in *.
  exists w', us, c'. split_and!; try done.
  - rewrite Hdis'. unfold connected_handlers. by rewrite Hsig.
  - intros h Hh. unfold since. rewrite Hlog, drop_app_length. by apply Hbal.
Qed.

Lemma connection_connected_while_subscribed_witness :
  ∃ w' us c',
    conn_run 0 [COEmit 0; COSubscribe 4; COEmit 0; COUnsubscribe 0; COUnsubscribe 0; COEmit 0]
      ((createConnection (VNum 0) [increment] empty_world).2, []) = Some (w', us) ∧
    nodes w' !! 0 = Some (NConnection c') ∧ cn_value c' = VNum 1 ∧
    log w' = [Connected 0 0; Called (UserCb 4); Disconnected 0 0].
Proof.
  destruct (connection_connected_while_subscribed
              (createConnection (VNum 0) [increment] empty_world).2 0
              (mkConnectionSrc (VNum 0) [] [] [increment])
              [COEmit 0; COSubscribe 4; COEmit 0; COUnsubscribe 0; COUnsubscribe 0; COEmit 0])
    as (w' & us & c' & Hrun & Hn & _).
  { split; [reflexivity|]. split; reflexivity. }
  { reflexivity. }
  exists w', us, c'. split; [exact Hrun|]. split; [exact Hn|].
  vm_compute in Hrun. injection Hrun as <- <-. vm_compute in Hn. injection Hn as <-.
  split; reflexivity.
Defined.

End ConnectionLaws.

(** ** The keyed list reconciler between passes *)

Module ForLaws.
Import ForTs ForStates ForFacts.

Section For.
Context {Item Key El : Type} `{EqDecision Key} `{EqDecision El}.
Variable id : Item → Key.
Variable instanceof_Fragment : El → bool.
Variable mkChild : Item → nat → ScopeTs.State → outcome El * ScopeTs.State.
Variable cleanup : cleanup_prop.
Variable currentScope : nat.

Local Abbreviation place_item := (ForTs.place_item id instanceof_Fragment mkChild currentScope).
Local Abbreviation place_items :=
  (ForTs.place_items id instanceof_Fragment mkChild currentScope).
Local Abbreviation callback := (ForTs.callback id instanceof_Fragment mkChild cleanup currentScope).
Local Abbreviation pass_events :=
  (ForTs.pass_events id instanceof_Fragment mkChild cleanup currentScope).
Local Abbreviation scopes_after := (ForTs.scopes_after mkChild currentScope).

Implicit Types (st : @ForState Item Key El) (m entries : list (Key * @MapItem Item El))
  (v e : @MapItem Item El) (k : Key) (c : El) (x : Item).









(** Items whose keys the map holds: the loop changes neither the map nor
    the scopes, whatever its outcome, and it returns when no output it has
    to add is a fragment. *)
Lemma place_items_all_tracked items : ∀ i st,
  (∀ x, x ∈ items → id x ∈ (map st).*1) →
  map (place_items items i st).2 = map st ∧
  scopes (place_items items i st).2 = scopes st ∧
  length (indices (place_items items i st).2) = length (indices st) ∧
  (Forall (λ c, instanceof_Fragment c = false) (children (map st)) →
   (place_items items i st).1 = Returned tt).
Proof.
  induction items as [|x items IH]; intros i st Hall; cbn [ForTs.place_items]; [done|].
  destruct (map_get_is_Some (map st) (id x) ltac:(apply Hall; by left)) as [v Hv].
  pose proof (place_item_tracked id instanceof_Fragment mkChild currentScope x i st v Hv)
    as Hp.
  assert (Hvin : child v ∈ children (map st)).
  { apply list_elem_of_fmap. exists (id x, v). split; [done|by apply map_get_Some]. }
  destruct (decide (child v ∈ fragment st)) as [Hin|Hnin].
  - rewrite Hp.
    destruct (IH (S i) (mkForState (map st) (fragment st) (<[index v := i]> (indices st))
                          (scopes st)
                          (log st ++ [IndexSet (index v) i; Warned (id x)])))
      as (Hm & Hs & Hl & Hr).
    { intros y Hy. simpl. apply Hall. by right. }
    simpl in *. rewrite length_insert in Hl. done.
  - rewrite Hp. destruct (instanceof_Fragment (child v)) eqn:Hf.
    + simpl. rewrite length_insert. split_and!; try done.
      intros Hnf. rewrite Forall_forall in Hnf. specialize (Hnf _ Hvin). congruence.
    + destruct (IH (S i) (mkForState (map st) (fragment st ++ [child v])
                            (<[index v := i]> (indices st)) (scopes st)
                            (log st ++ [IndexSet (index v) i; ChildAdded (child v)])))
        as (Hm & Hs & Hl & Hr).
      { intros y Hy. simpl. apply Hall. by right. }
      simpl in *. rewrite length_insert in Hl. done.
Qed.


(** *** A second pass over the same input *)

Lemma filter_none {A} (P : A → Prop) `{∀ a, Decision (P a)} (l : list A) :
  (∀ a, a ∈ l → ¬ P a) → filter P l = [].
Proof.
  induction l as [|a l IH]; intros Hall; [done|].
  rewrite filter_cons, decide_False by (apply Hall; by left).
  apply IH. intros b Hb. apply Hall. by right.
Qed.

Lemma new_items_all_seen items : ∀ seen,
  (∀ x, x ∈ items → id x ∈ seen) → new_items id seen items = [].
Proof.
  induction items as [|x items IH]; intros seen Hall; cbn [new_items]; [done|].
  rewrite decide_True by (apply Hall; by left). apply IH. intros y Hy. apply Hall. by right.
Qed.

Lemma place_items_index_other items : ∀ i st st' sig,
  place_items items i st = (Returned tt, st') →
  (∀ kv, kv ∈ map st' → index kv.2 ≠ sig) →
  sig < length (indices st) →
  indices st' !! sig = indices st !! sig.
Proof.
  induction items as [|x items IH]; intros i st st' sig Hrun Hnot Hsig.
  - by injection Hrun as <-.
  - apply place_items_Returned_cons in Hrun as (st1 & Hstep & Hrun).
    assert (Hmono : ∀ kv, kv ∈ map st1 → kv ∈ map st').
    { intros [k e] Hkv. by eapply place_items_map_mono. }
    apply place_item_Returned in Hstep as [(v & Hg & _ & Hst1)|(Hg & c & Hc & _ & Hst1)].
    + rewrite (IH _ _ _ sig Hrun Hnot); [|rewrite Hst1; simpl; by rewrite length_insert].
      rewrite Hst1. simpl. rewrite list_lookup_insert_ne; [done|].
      apply (Hnot (id x, v)). apply Hmono. rewrite Hst1. simpl. by apply map_get_Some.
    + rewrite (IH _ _ _ sig Hrun Hnot);
        [|rewrite Hst1; simpl; rewrite length_app; simpl; lia].
      rewrite Hst1. simpl. by rewrite lookup_app_l.
Qed.

Lemma last_occurrence (k : Key) (l : list Key) :
  k ∈ l → ∃ p, l !! p = Some k ∧ ∀ q, p < q → l !! q ≠ Some k.
Proof.
  induction l as [|a l IH]; intros Hin; [by apply elem_of_nil in Hin|].
  destruct (decide (k ∈ l)) as [Hl|Hl].
  - destruct (IH Hl) as (p & Hp & Hlast). exists (S p). split; [done|].
    intros [|q] Hq; [lia|]. simpl. apply Hlast. lia.
  - apply elem_of_cons in Hin as [->|?]; [|done]. exists 0. split; [done|].
    intros [|q] Hq; [lia|]. simpl. intros Hq'. apply Hl. by eapply list_elem_of_lookup_2.
Qed.

Lemma sweep_events_kept (idSet : list Key) st entries :
  (∀ kv, kv ∈ entries → kv.1 ∈ idSet) →
  flat_map (sweep_events cleanup idSet st) entries = ChildRemoved <$> children entries.
Proof.
  induction entries as [|kv entries IH]; intros Hall; cbn [flat_map]; [done|].
  rewrite IH by (intros kv' Hkv'; apply Hall; by right).
  unfold sweep_events. rewrite decide_True by (apply Hall; by left). done.
Qed.

Lemma dispose_none_kept (idSet : list Key) entries (ss : ScopeTs.State) :
  (∀ kv, kv ∈ entries → kv.1 ∈ idSet) →
  foldl (λ ss (kv : Key * MapItem), if decide (kv.1 ∈ idSet) then ss
                  else ScopeTs.Scope_dispose (scope kv.2) ss) ss entries = ss.
Proof.
  revert ss. induction entries as [|kv entries IH]; intros ss Hall; cbn [foldl]; [done|].
  rewrite decide_True by (apply Hall; by left).
  apply IH. intros kv' Hkv'. apply Hall. by right.
Qed.

Lemma sweep_all_kept items st :
  (∀ kv, kv ∈ map st → kv.1 ∈ id <$> items) →
  scopes (sweep id cleanup items st) = scopes st ∧
  map (sweep id cleanup items st) = map st ∧
  log (sweep id cleanup items st) = log st ++ (ChildRemoved <$> children (map st)).
Proof.
  intros Hall. destruct (sweep_spec id cleanup items st) as (Hm & _ & _ & Hl & _).
  assert (Hall' : ∀ kv, kv ∈ map st → kv.1 ∈ Set_of (id <$> items)).
  { intros kv Hkv. by apply elem_of_Set_of, Hall. }
  split_and!.
  - unfold sweep. rewrite sweep_fold_scopes. by apply dispose_none_kept.
  - rewrite Hm. apply filter_all. apply Forall_forall. intros kv Hkv. by apply Hall.
  - rewrite Hl. f_equal. by apply sweep_events_kept.
Qed.

Lemma callback_fragment items st st' :
  NoDup (map st).*1 → fragment st ≡ₚ children (map st) →
  callback items st = (Returned tt, st') → NoDup (children (map st')) →
  fragment st' = omap (λ k, child <$> map_get k (map st')) (Set_of (id <$> items)).
Proof.
  intros Hkeys Hperm Hcb Hnd.
  destruct (sweep_spec id cleanup items st) as (_ & _ & _ & _ & Hfrag).
  apply lists_outputs_omap; [by eapply callback_keys_NoDup|].
  unfold ForTs.callback in Hcb.
  apply (place_items_fragment id instanceof_Fragment mkChild currentScope items 0
           (sweep id cleanup items st) st' [] Hcb).
  - by apply sweep_keys_NoDup.
  - done.
  - rewrite (Hfrag Hperm). constructor.
Qed.

Lemma callback_settled items st st' :
  tracked st → callback items st = (Returned tt, st') → NoDup (children (map st')) →
  settled id instanceof_Fragment items st'.
Proof.
  intros Htr Hcb Hnd. pose proof Htr as (Hkeys & _ & Hperm & Hidx1 & Hidx2 & _).
  destruct (callback_map id instanceof_Fragment mkChild cleanup currentScope _ _ _ Hcb)
    as (Hmap & Hk & _). cbv zeta in Hmap, Hk.
  destruct (sweep_spec id cleanup items st) as (_ & _ & _ & _ & Hfrag).
  pose proof Hcb as Hrun. unfold ForTs.callback in Hrun.
  split_and!.
  - by eapply callback_keys_NoDup.
  - done.
  - eapply place_items_index_ok; [exact Hrun|]. by apply sweep_index_ok.
  - eapply place_items_no_fragment; [exact Hrun|]. rewrite (Hfrag Hperm). constructor.
  - intros [k e]. rewrite Hmap. simpl.
    intros [[Hk' _]%list_elem_of_filter|Hnew]%elem_of_app; [done|].
    assert (Hkin : k ∈ (new_entries id mkChild currentScope (length (indices st))
                          (scopes (sweep id cleanup items st))
                          (new_items id (filter (λ kv, kv.1 ∈ id <$> items) (map st)).*1
                             items)).*1).
    { apply list_elem_of_fmap. by exists (k, e). }
    rewrite Hk in Hkin. by apply new_items_keys in Hkin as [? _].
  - intros x Hx. eapply place_items_keys; [exact Hrun|]. by apply list_elem_of_fmap_2.
  - by eapply callback_fragment.
  - intros k e p He Hp Hlast.
    rewrite (place_items_index_last id instanceof_Fragment mkChild currentScope items 0
               (sweep id cleanup items st) st' k e p); try done.
    + by apply sweep_keys_NoDup.
    + by apply sweep_index_ok.
Qed.

Lemma settled_fixed items st :
  settled id instanceof_Fragment items st →
  (callback items st).1 = Returned tt ∧
  map (callback items st).2 = map st ∧ fragment (callback items st).2 = fragment st ∧
  indices (callback items st).2 = indices st ∧ scopes (callback items st).2 = scopes st.
Proof.
  intros (Hkeys & Hch & Hidx & Hnf & Hsub & Hsup & Hfrag & Hlast).
  assert (Hperm : fragment st ≡ₚ children (map st)).
  { rewrite Hfrag, (children_omap _ Hkeys). apply omap_Permutation.
    apply NoDup_Permutation; [apply NoDup_Set_of|done|].
    intros k. rewrite elem_of_Set_of. split.
    - intros (x & -> & Hx)%list_elem_of_fmap. by apply Hsup.
    - intros (kv & -> & Hkv)%list_elem_of_fmap. by apply Hsub. }
  destruct (sweep_all_kept items st Hsub) as (Hss & Hsm & _).
  destruct (sweep_spec id cleanup items st) as (_ & Hsi & _ & _ & _).
  destruct (place_items_all_tracked items 0 (sweep id cleanup items st))
    as (Hm & Hs & Hl & Hr).
  { intros x Hx. rewrite Hsm. by apply Hsup. }
  assert (Hret : (callback items st).1 = Returned tt).
  { apply Hr. rewrite Hsm, <- Hperm. done. }
  pose proof (returned_eq _ Hret) as Hcb.
  pose proof Hcb as Hrun. unfold ForTs.callback in Hrun at 1.
  assert (Hmap : map (callback items st).2 = map st) by (unfold ForTs.callback; by rewrite Hm).
  split_and!.
  - done.
  - done.
  - rewrite (callback_fragment items st _ Hkeys Hperm Hcb) by (by rewrite Hmap).
    by rewrite Hmap, Hfrag.
  - apply list_eq. intros sig.
    destruct (decide (sig ∈ (λ kv, index kv.2) <$> map st)) as [Hin|Hnot].
    + apply list_elem_of_fmap in Hin as ([k e] & -> & He). simpl.
      destruct (last_occurrence k (id <$> items) (Hsub _ He)) as (p & Hp & Hlast').
      rewrite (place_items_index_last id instanceof_Fragment mkChild currentScope items 0
                 (sweep id cleanup items st) _ k e p Hrun); try done.
      * by rewrite (Hlast k e p He Hp Hlast').
      * by apply sweep_keys_NoDup.
      * by apply sweep_index_ok.
      * by rewrite Hmap.
    + destruct (decide (sig < length (indices st))) as [Hlt|Hge].
      * rewrite (place_items_index_other items 0 _ _ sig Hrun); [by rewrite Hsi| |by rewrite Hsi].
        intros kv Hkv Heq. apply Hnot. apply list_elem_of_fmap. exists kv.
        split; [done|]. by rewrite Hmap in Hkv.
      * rewrite !lookup_ge_None_2; [done|lia|].
        unfold ForTs.callback. rewrite Hl, Hsi. lia.
  - unfold ForTs.callback. by rewrite Hs, Hss.
Qed.

(** X23: when a pass from a tracked state has returned and the outputs
    it leaves are pairwise distinct, a pass over the same input returns
    too and changes neither the tracking map nor the children of the
    fragment, the index signals or the scopes: it renders nothing, tears
    nothing down and disposes nothing. *)
Theorem callback_again_changes_nothing (items : list Item) (st : ForState) :
  tracked st → (callback items st).1 = Returned tt →
  NoDup (children (map (callback items st).2)) →
  let st1 := (callback items st).2 in
  let st2 := (callback items st1).2 in
  (callback items st1).1 = Returned tt ∧
  map st2 = map st1 ∧ fragment st2 = fragment st1 ∧ indices st2 = indices st1 ∧
  scopes st2 = scopes st1 ∧
  disposals (pass_events items st1) = [] ∧
  (∀ k, renders id k (pass_events items st1) = []) ∧
  (∀ c, teardowns c (pass_events items st1) = []).
Proof.
  intros Htr Hret Hnd st1 st2.
  pose proof (returned_eq _ Hret) as Hcb. fold st1 in Hcb, Hnd.
  pose proof (callback_settled items st st1 Htr Hcb Hnd) as Hset.
  destruct (settled_fixed items st1 Hset) as (Hret2 & Hm & Hf & Hi & Hs).
  fold st2 in Hm, Hf, Hi, Hs.
  pose proof (returned_eq _ Hret2) as Hcb2.
  destruct Hset as (_ & _ & _ & _ & Hsub & Hsup & _).
  destruct (callback_events id instanceof_Fragment mkChild cleanup currentScope _ _ _ Hcb2)
    as (pevs & _ & Hevs & Hd & Ht & Hr).
  split_and!; try done.
  - rewrite Hevs, disposals_app, Hd, sweep_events_disposals, app_nil_r.
    rewrite filter_none; [done|].
    intros kv Hkv Hn. apply Hn, elem_of_Set_of. by apply Hsub.
  - intros k. rewrite Hevs, renders_app, sweep_events_renders, Hr. simpl.
    rewrite (filter_all (λ kv, kv.1 ∈ id <$> items)) by (by apply Forall_forall).
    rewrite new_items_all_seen; [done|]. apply Hsup.
  - intros c. rewrite Hevs, teardowns_app, Ht, app_nil_r.
    assert (Hev : flat_map (sweep_events cleanup (Set_of (id <$> items)) st1) (map st1) =
                  ChildRemoved <$> children (map st1)).
    { apply sweep_events_kept. intros kv Hkv. by apply elem_of_Set_of, Hsub. }
    rewrite Hev. unfold teardowns. apply filter_none.
    intros ev (c' & -> & _)%list_elem_of_fmap. simpl. done.
Qed.

End For.

Lemma callback_again_changes_nothing_witness :
  (callback fst demo_instanceof demo_render CleanupFunction 0 [(3, 0); (1, 0)]
     (demo_rendered CleanupFunction)).1 = Returned tt ∧
  fragment (callback fst demo_instanceof demo_render CleanupFunction 0 [(3, 0); (1, 0)]
              (callback fst demo_instanceof demo_render CleanupFunction 0 [(3, 0); (1, 0)]
                 (demo_rendered CleanupFunction)).2).2 =
  fragment (callback fst demo_instanceof demo_render CleanupFunction 0 [(3, 0); (1, 0)]
              (demo_rendered CleanupFunction)).2.
Proof.
  assert (Hret : (callback fst demo_instanceof demo_render CleanupFunction 0 [(3, 0); (1, 0)]
                    (demo_rendered CleanupFunction)).1 = Returned tt) by reflexivity.
  assert (Hnd : NoDup (children (map (callback fst demo_instanceof demo_render
                                        CleanupFunction 0 [(3, 0); (1, 0)]
                                        (demo_rendered CleanupFunction)).2)))
    by by_computation.
  split; [exact Hret|].
  pose proof (callback_again_changes_nothing fst demo_instanceof demo_render CleanupFunction 0
                [(3, 0); (1, 0)] (demo_rendered CleanupFunction)
                (demo_rendered_tracked CleanupFunction) Hret Hnd) as H.
  cbv zeta in H. exact (proj1 (proj2 (proj2 H))).
Defined.


End ForLaws.


(** ** The optional-value reconciler over time *)

Module WithLaws.
Import WithTs WithRuns WithFacts.
Section With.
Context {T El : Type} `{EqDecision El}.
Variable instanceof_Fragment : El → bool.
Variable mkChild : T → ScopeTs.State → outcome (option El) * ScopeTs.State.
Variable cleanup : ForTs.cleanup_prop.
Variable currentScope : nat.

Local Abbreviation callback :=
  (WithTs.callback instanceof_Fragment mkChild cleanup currentScope).
Local Abbreviation With_run :=
  (WithRuns.With_run instanceof_Fragment mkChild cleanup currentScope).
Local Abbreviation With_states :=
  (WithRuns.With_states instanceof_Fragment mkChild cleanup currentScope).
Local Abbreviation entry_state := (ForTs.entry_state currentScope).

Implicit Types (st : @WithState T El) (v : T) (c : El).

Lemma dispose_length s ss :
  length (ScopeTs.heap (ScopeTs.Scope_dispose s ss)) = length (ScopeTs.heap ss).
Proof.
  unfold ScopeTs.Scope_dispose. destruct (ScopeTs.heap ss !! s); [|done].
  simpl. by rewrite length_insert.
Qed.

Lemma With_disposals_app (a b : list (@event T El)) :
  disposals (a ++ b) = disposals a ++ disposals b.
Proof. apply omap_app. Qed.

(** One change that returns, when the fragment holds what the last render
    returned. *)
Lemma callback_step v st st' prev s :
  fragment st = option_list prev → (is_Some prev → scope st = Some s) →
  callback v st = (Returned tt, st') →
  ∃ ch sst0,
    scope st' = Some (length (ScopeTs.heap sst0)) ∧
    (mkChild v (entry_state sst0)).1 = Returned ch ∧
    fragment st' = option_list ch ∧
    (∀ c, ch = Some c → instanceof_Fragment c = false) ∧
    ∃ evs, log st' = log st ++ evs ∧
      disposals evs = match prev with Some _ => [s] | None => [] end.
Proof.
  intros Hf Hs. rewrite callback_render. cbv zeta.
  destruct prev as [c|]; simpl in Hf.
  - rewrite (unmount_one_mounted cleanup st c s Hf (Hs ltac:(done))). simpl.
    intros Hcb.
    exists (match (mkChild v (entry_state (ScopeTs.Scope_dispose s (scopes st)))).1 with
            | Returned ch => ch | Threw _ => None end),
      (ScopeTs.Scope_dispose s (scopes st)).
    destruct (mkChild v _).1 as [[c'|]|msg] eqn:Hr;
      [destruct (instanceof_Fragment c') eqn:Hi| |]; simplify_eq/=.
    + split_and!; [done|done|done|by intros ? [= <-]|].
      eexists. split; [by rewrite <- !app_assoc|].
      destruct cleanup; by vm_compute.
    + split_and!; [done|done|done|done|].
      eexists. split; [by rewrite <- !app_assoc|].
      destruct cleanup; by vm_compute.
  - rewrite Hf. simpl. intros Hcb.
    exists (match (mkChild v (entry_state (scopes st))).1 with
            | Returned ch => ch | Threw _ => None end), (scopes st).
    destruct (mkChild v _).1 as [[c'|]|msg] eqn:Hr;
      [destruct (instanceof_Fragment c') eqn:Hi| |]; simplify_eq/=.
    + split_and!; [done|done|by rewrite Hf|by intros ? [= <-]|].
      eexists. split; [by rewrite <- ?app_assoc|]. done.
    + split_and!; [done|done|done|done|].
      eexists. split; [done|]. done.
Qed.

Lemma With_run_cons v vs st :
  With_run (v :: vs) st =
    match callback v st with
    | (Returned _, st1) => With_run vs st1
    | (Threw msg, st1) => (Threw msg, st1)
    end.
Proof. done. Qed.

(** A run that returns, from a state whose fragment holds what the last
    render returned. *)
Lemma With_run_spec (vs : list T) : ∀ v st prev s,
  fragment st = option_list prev → (is_Some prev → scope st = Some s) →
  (With_run (vs ++ [v]) st).1 = Returned tt →
  ∃ s' ch sst0 evs,
    scope (With_run (vs ++ [v]) st).2 = Some s' ∧ s' = length (ScopeTs.heap sst0) ∧
    (mkChild v (entry_state sst0)).1 = Returned ch ∧
    fragment (With_run (vs ++ [v]) st).2 = option_list ch ∧
    (∀ c, ch = Some c → instanceof_Fragment c = false) ∧
    log (With_run (vs ++ [v]) st).2 = log st ++ evs ∧
    disposals evs =
      match prev with Some _ => [s] | None => [] end ++
      omap held_with_output (With_states vs st).
Proof.
  induction vs as [|a vs IH]; intros v st prev s Hf Hs.
  - cbn [app]. rewrite With_run_cons.
    destruct (callback v st) as [[[]|msg] st1] eqn:Hcb; [|done]. simpl. intros _.
    destruct (callback_step v st st1 prev s Hf Hs Hcb)
      as (ch & sst0 & H1 & H2 & H3 & H4 & evs & H5 & H6).
    exists (length (ScopeTs.heap sst0)), ch, sst0, evs.
    split_and!; try done. by rewrite app_nil_r.
  - cbn [app]. rewrite With_run_cons. cbn [WithRuns.With_states].
    destruct (callback a st) as [[[]|msg] st1] eqn:Hcb; [|done]. intros Hret.
    destruct (callback_step a st st1 prev s Hf Hs Hcb)
      as (ch1 & sst1 & H1 & H2 & H3 & H4 & evs1 & H5 & H6).
    destruct (IH v st1 ch1 (length (ScopeTs.heap sst1)) H3 ltac:(done) Hret)
      as (s' & ch & sst0 & evs & G1 & G2 & G3 & G4 & G5 & G6 & G7).
    exists s', ch, sst0, (evs1 ++ evs). split_and!; try done.
    + by rewrite G6, H5, <- app_assoc.
    + rewrite With_disposals_app, H6, G7. f_equal. simpl.
      unfold held_with_output at 2. rewrite H3, H1. by destruct ch1.
Qed.

(** X24: after any sequence of values whose calls of [callback] all
    return - a call throws when the render function throws or returns a
    fragment -, [With] holds the scope made for the render of the last
    value, the fragment holds exactly what that render returned - one
    child, which is not a fragment, or none -, and the scopes [With] has
    disposed are the scopes it held after those earlier calls that left an
    output mounted: the scope of a render that returned nothing is not
    disposed when the value changes. *)
Theorem With_shows_last_render (vs : list T) (v : T) (st : WithState) :
  fragment st = [] →
  (With_run (vs ++ [v]) st).1 = Returned tt →
  let st' := (With_run (vs ++ [v]) st).2 in
  ∃ s ch (sst0 : ScopeTs.State) evs,
    scope st' = Some s ∧ s = length (ScopeTs.heap sst0) ∧
    (mkChild v (entry_state sst0)).1 = Returned ch ∧
    fragment st' = option_list ch ∧
    (∀ c, ch = Some c → instanceof_Fragment c = false) ∧
    log st' = log st ++ evs ∧
    disposals evs = omap held_with_output (With_states vs st).
Proof.
  intros Hf Hret. cbv zeta.
  destruct (With_run_spec vs v st None 0 Hf ltac:(by intros [? ?]) Hret)
    as (s & ch & sst0 & evs & H1 & H2 & H3 & H4 & H5 & H6 & H7).
  by exists s, ch, sst0, evs.
Qed.

End With.

Lemma With_shows_last_render_witness :
  let r := With_run demo_instanceof demo_child ForTs.CleanupUndefined 0
             ([false; true] ++ [true]) demo_start in
  fragment demo_start = [] ∧ r.1 = Returned tt ∧
  ∃ (s : nat) (ch : option nat) (sst0 : ScopeTs.State) evs,
    scope r.2 = Some s ∧ s = length (ScopeTs.heap sst0) ∧
    (demo_child true (ForTs.entry_state 0 sst0)).1 = Returned ch ∧
    fragment r.2 = option_list ch ∧
    (∀ c, ch = Some c → demo_instanceof c = false) ∧
    log r.2 = log demo_start ++ evs ∧
    disposals evs =
      omap held_with_output
        (With_states demo_instanceof demo_child ForTs.CleanupUndefined 0 [false; true]
           demo_start).
Proof.
  split; [reflexivity|]. split; [reflexivity|].
  exact (With_shows_last_render demo_instanceof demo_child ForTs.CleanupUndefined 0
           [false; true] true demo_start eq_refl eq_refl).
Defined.

(** In that run the first render returns nothing and its scope, 1, is
    never disposed; the second returns widget 7 and its scope, 2, is
    disposed by the third call. *)
Example With_run_disposals :
  let r := With_run demo_instanceof demo_child ForTs.CleanupUndefined 0
             [false; true; true] demo_start in
  r.1 = Returned tt ∧ fragment r.2 = [7] ∧ scope r.2 = Some 3 ∧
  disposals (log r.2) = [2] ∧
  omap held_with_output
    (With_states demo_instanceof demo_child ForTs.CleanupUndefined 0 [false; true]
       demo_start) = [2].
Proof. vm_compute. repeat split. Qed.

End WithLaws.


(** ** Notifications of a subscribed computed source *)

Module NotifyLaws.
Import StateTs StateClients StateFacts StateLaws ComputedLaws ConnectionLaws.

Lemma dep_listener_state fuel c j d cs sd w :
  nodes w !! c = Some (NComputed cs) → deps cs !! j = Some d →
  nodes w !! d = Some (NState sd) →
  Forall (λ x, is_user x = true) (c_subs cs) →
  dep_listener (notify fuel) c j w =
    Some (if strict_ne (arr_get (cache cs) j) (st_value sd)
          then emit (Called <$> c_subs cs)
                 (put c (NComputed (with_cache (arr_set (cache cs) j (st_value sd)) cs))
                    (emit [GetCalled d] (emit [GetCalled d] w)))
          else emit [GetCalled d] w).
Proof.
  intros Hc Hj Hd Hus.
  assert (Hlt : c < length (nodes w)) by (by eapply lookup_lt_Some).
  pose (w1 := emit [GetCalled d] w).
  assert (Hca1 : cache_of c w1 = cache cs) by (unfold cache_of; simpl; by rewrite Hc).
  assert (Hca2 : cache_of c (emit [GetCalled d] w1) = cache cs)
    by (unfold cache_of; simpl; by rewrite Hc).
  assert (Hget0 : get d w = Some (st_value sd, w1)) by (by apply state_get).
  assert (Hget1 : get d w1 = Some (st_value sd, emit [GetCalled d] w1))
    by (by apply state_get).
  unfold dep_listener. rewrite Hc. cbn [mbind option_bind].
  rewrite Hj. cbn [mbind option_bind]. rewrite Hget0. cbn [mbind option_bind].
  rewrite Hca1. destruct (strict_ne (arr_get (cache cs) j) (st_value sd)); [|done].
  rewrite Hget1. cbn [mbind option_bind]. rewrite Hca2.
  pose (w3 := put c (NComputed (with_cache (arr_set (cache cs) j (st_value sd)) cs))
                (emit [GetCalled d] w1)).
  assert (Hset : set_cache c (arr_set (cache cs) j (st_value sd)) (emit [GetCalled d] w1) = w3).
  { unfold set_cache. simpl. by rewrite Hc. }
  assert (Hsubs3 : subs_of c w3 = c_subs cs).
  { unfold subs_of, w3. by rewrite nodes_put_eq. }
  rewrite Hset, Hsubs3. by rewrite notify_users.
Qed.

Lemma count_event_cons e x l :
  count_event e (x :: l) = (if decide (x = e) then 1 else 0) + count_event e l.
Proof. unfold count_event. rewrite filter_cons. by case_decide. Qed.

(** The fan-out of a stateful source whose listeners all find their slot
    different from the new value: every listener calls the subscribers of
    [c] once. *)
Lemma notify_listeners_count c ds d v g0 cb fuel : ∀ ss w cs sd,
  nodes w !! c = Some (NComputed cs) → deps cs = ds →
  Forall (λ x, is_user x = true) (c_subs cs) →
  count_event (Called (UserCb cb)) (Called <$> c_subs cs) = 1 →
  d < c → nodes w !! d = Some (NState sd) → st_value sd = v →
  NoDup ss → UserCb cb ∉ ss →
  Forall (λ x, is_user x = true ∨
               ∃ j, x = DepListener c j g0 ∧ ds !! j = Some d ∧
                    arr_get (cache cs) j ≠ v) ss →
  ∃ w' evs, notify (S fuel) ss w = Some w' ∧ log w' = log w ++ evs ∧
    count_event (Called (UserCb cb)) evs = length (filter (λ x, is_user x = false) ss).
Proof.
  induction ss as [|x ss IH]; intros w cs sd Hc Hds Hus Hone Hdc Hd Hv Hnd Hcb Hss.
  - exists w, []. split_and!; [done|by rewrite app_nil_r|done].
  - inversion Hss as [|? ? Hx Hss']; subst. inversion Hnd as [|? ? Hxn Hnd']; subst.
    apply not_elem_of_cons in Hcb as [Hcbx Hcb'].
    assert (Hlt : c < length (nodes w)) by (by eapply lookup_lt_Some).
    destruct Hx as [Hx|(j0 & -> & Hj0 & Hslot)].
    + destruct x as [cb'|]; [|done]. rewrite notify_cons_user.
      destruct (IH (emit [Called (UserCb cb')] w) cs sd) as (w' & evs & Hn & Hlog & Hcount);
        try done.
      exists w', (Called (UserCb cb') :: evs). split_and!; [done| |].
      * rewrite Hlog. simpl. by rewrite <- app_assoc.
      * rewrite count_event_cons, decide_False by congruence.
        rewrite filter_cons, decide_False by done. done.
    + rewrite notify_cons_listener.
      rewrite (dep_listener_state fuel c j0 d cs sd); try done.
      rewrite strict_ne_neq by done. cbn [mbind option_bind].
      set (cs1 := with_cache (arr_set (cache cs) j0 (st_value sd)) cs).
      set (w3 := emit (Called <$> c_subs cs) _).
      destruct (IH w3 cs1 sd) as (w' & evs & Hn & Hlog & Hcount); try done.
      { unfold w3. simpl. by apply list_lookup_insert_eq. }
      { unfold w3. simpl. by rewrite list_lookup_insert_ne by lia. }
      { rewrite Forall_forall in Hss' |- *. intros x Hx.
        destruct (Hss' x Hx) as [Hu|(j & -> & Hj & Hsl)]; [by left|].
        right. exists j. split_and!; [done|done|].
        simpl. rewrite arr_get_arr_set.
        rewrite decide_False; [done|]. intros ->. done. }
      exists w', ([Called (DepListener c j0 g0); GetCalled d; GetCalled d] ++
                  (Called <$> c_subs cs) ++ evs).
      split_and!; [done| |].
      * rewrite Hlog. unfold w3. simpl. by rewrite <- !app_assoc.
      * rewrite !count_event_app, Hone, Hcount.
        rewrite !count_event_cons, !decide_False by done.
        rewrite filter_cons, decide_True by done. done.
Qed.

Lemma NoDup_subs_add_sub m d x w : NoDup (subs_of m w) → NoDup (subs_of m (add_sub d x w)).
Proof.
  intros Hnd. unfold add_sub.
  destruct (nodes w !! d) as [nd|] eqn:Hd; [|done].
  assert (Hlt : d < length (nodes w)) by (by eapply lookup_lt_Some).
  destruct (decide (m = d)) as [->|Hne].
  - unfold subs_of in *. rewrite Hd in Hnd.
    destruct nd; simpl; rewrite list_lookup_insert_eq by done;
      by apply ScopeFacts.set_add_NoDup.
  - unfold subs_of in *. destruct nd; simpl; by rewrite list_lookup_insert_ne.
Qed.

Lemma NoDup_subs_add_listeners c g ds m : ∀ i w,
  NoDup (subs_of m w) → NoDup (subs_of m (add_listeners c g ds i w)).
Proof.
  induction ds as [|d ds IH]; intros i w Hnd; cbn [add_listeners]; [done|].
  by apply IH, NoDup_subs_add_sub.
Qed.

Lemma length_filter_unique {A} (P : A → Prop) `{∀ a, Decision (P a)} (l : list A) (x : A) :
  NoDup l → x ∈ l → P x → (∀ y, y ∈ l → P y → y = x) → length (filter P l) = 1.
Proof.
  intros Hnd Hx HP Huniq.
  induction Hnd as [|a l Ha Hnd IH]; [by apply elem_of_nil in Hx|].
  rewrite filter_cons. destruct (decide (P a)) as [Hpa|Hpa].
  - assert (a = x) as -> by (apply Huniq; [by left|done]).
    simpl. f_equal. rewrite ForLaws.filter_none; [done|].
    intros y Hy Hpy. assert (y = x) as -> by (apply Huniq; [by right|done]). done.
  - apply IH.
    + apply elem_of_cons in Hx as [->|?]; done.
    + intros y Hy. apply Huniq. by right.
Qed.

(** X25: once a callback is subscribed to a computed source over distinct
    stateful sources - and to none of them directly -, a call of one of
    their setters that does not change the value calls nothing, and a call
    that changes it to something other than [undefined] calls the callback
    exactly once. *)
Theorem subscribed_computed_notifies_once (w : World) (c : nat) (cs : ComputedSrc)
  (cb : nat) (ops : list reader_op) (d : nat) (a : setter_arg) :
  unread_over_states c cs w → NoDup (deps cs) →
  (∀ d', d' ∈ deps cs → NoDup (subs_of d' w) ∧ (UserCb cb ∉ subs_of d' w)) →
  Forall (λ o, match o with RSet d' _ => d' ∈ deps cs | RGet => True end) ops →
  d ∈ deps cs →
  ∃ w1 w2,
    subscribe c (UserCb cb) w = Some (Unsub c (UserCb cb), w1) ∧
    reader_run c ops w1 = Some w2 ∧
    (resolve a (value_of d w2) = value_of d w2 → set d a w2 = Some w2) ∧
    (resolve a (value_of d w2) ≠ value_of d w2 → resolve a (value_of d w2) ≠ VUndefined →
       ∃ w3, set d a w2 = Some w3 ∧
         count_event (Called (UserCb cb)) (since w2 w3) = 1).
Proof.
  intros Hw Hnd Hfresh Hops Hd.
  destruct (subscribe_world c cs cb w Hw) as [us Hsub].
  destruct (subscribe_tracks c cs cb w Hw) as (w1 & Hsub' & Htrack1).
  rewrite Hsub in Hsub'. injection Hsub' as Hw1.
  pose proof Hw as (Hc & Hsubs & Hcache & Hdeps).
  assert (Hltc : c < length (nodes w)) by (by eapply lookup_lt_Some).
  assert (Hstates : Forall (λ d, ∃ s, nodes w !! d = Some (NState s)) (deps cs)).
  { eapply Forall_impl; [exact Hdeps|]. intros d' (_ & s & Hd' & _). eauto. }
  destruct (add_listeners_spec c (c_gen cs) (deps cs) 0 w Hstates) as (_ & Hlen & _ & Hst).
  (* the subscribers right after [subscribe] *)
  assert (Hc1 : subs_of c w1 = [UserCb cb]).
  { rewrite <- Hw1. unfold subs_of. rewrite nodes_put_eq by (by rewrite Hlen). done. }
  assert (Hd1 : ∀ d', d' ∈ deps cs →
            NoDup (subs_of d' w1) ∧ (UserCb cb ∉ subs_of d' w1) ∧
            ∀ c' j g, DepListener c' j g ∈ subs_of d' w1 → g = c_gen cs).
  { intros d' Hd'. destruct (Hfresh d' Hd') as [Hnd' Hcb'].
    rewrite Forall_forall in Hdeps. destruct (Hdeps d' Hd') as (Hlt' & s & Hs & Hu).
    destruct (Hst d' s Hs) as (s' & Hs' & _ & Hmem).
    assert (Heq : ∀ w0, subs_of d' (put c (NComputed
                     (mkComputedSrc (deps cs) (transform cs) us [UserCb cb] (cache cs)
                                    (S (c_gen cs)))) w0) = subs_of d' w0).
    { intros w0. unfold subs_of. simpl. by rewrite list_lookup_insert_ne by lia. }
    rewrite <- Hw1, Heq.
    assert (Hsubs' : subs_of d' (add_listeners c (c_gen cs) (deps cs) 0 w) = st_subs s')
      by (unfold subs_of; by rewrite Hs').
    assert (Hsubs0 : subs_of d' w = st_subs s) by (unfold subs_of; by rewrite Hs).
    split_and!.
    - by apply NoDup_subs_add_listeners.
    - rewrite Hsubs'. intros [Hin|[j [Heq' _]]]%Hmem; [|done].
      apply Hcb'. by rewrite Hsubs0.
    - intros c' j g. rewrite Hsubs'. intros [Hin|(j' & Heq' & _)]%Hmem.
      + rewrite Forall_forall in Hu. by specialize (Hu _ Hin).
      + by injection Heq' as _ _ ->. }
  destruct (reader_run_tracking c _ _ ops w1 Htrack1 Hops) as (w2 & Hrun & Htrack2 & Hsubs2).
  exists w1, w2. split; [by rewrite <- Hw1|]. split; [done|].
  pose proof Htrack2 as (cs2 & Hc2 & Hds2 & Htr2 & Hus2 & Hslots2).
  apply list_elem_of_lookup in Hd as [i Hi].
  destruct (Hslots2 i d Hi) as (Hdc & sd & Hsd & [g Hg] & Hall & Hcoh).
  assert (Hval : value_of d w2 = st_value sd) by (unfold value_of; by rewrite Hsd).
  assert (Hsubsd : st_subs sd = subs_of d w1).
  { rewrite <- Hsubs2. unfold subs_of. by rewrite Hsd. }
  assert (Hsubsc : c_subs cs2 = [UserCb cb]).
  { rewrite <- Hc1, <- Hsubs2. unfold subs_of. by rewrite Hc2. }
  destruct (Hd1 d ltac:(by eapply list_elem_of_lookup_2)) as (Hndd & Hcbd & Hgen).
  rewrite <- Hsubsd in Hndd, Hcbd, Hgen.
  rewrite Hval. unfold set. rewrite Hsd. cbn [mbind option_bind].
  split.
  - intros Hsame. by rewrite Hsame, strict_ne_refl_eq.
  - intros Hnew Hdef. rewrite strict_ne_neq by done.
    assert (Hltd : d < length (nodes w2)) by (by eapply lookup_lt_Some).
    assert (Hltc2 : c < length (nodes w2)) by (by eapply lookup_lt_Some).
    set (v := resolve a (st_value sd)) in *.
    set (sd' := mkStateSrc v (st_subs sd)).
    set (wa := put d (NState sd') w2).
    assert (Hlenw : length (nodes w2) = S (length (nodes w2) - 1)) by lia.
    rewrite Hlenw.
    destruct (notify_listeners_count c (deps cs) d v (c_gen cs) cb (length (nodes w2) - 1)
                (st_subs sd) wa cs2 sd') as (w3 & evs & Hn & Hlog & Hcount); try done.
    { unfold wa. simpl. by rewrite list_lookup_insert_ne by lia. }
    { rewrite Hsubsc. unfold count_event. cbn [fmap list_fmap].
      by rewrite filter_cons, decide_True. }
    { by apply nodes_put_eq. }
    { apply Forall_forall. intros x Hx.
      destruct (Hall x Hx) as [Hu|(j & g' & -> & Hj)]; [by left|].
      right. exists j. rewrite (Hgen _ _ _ Hx). split_and!; [done|done|].
      destruct (Hslots2 j d Hj) as (_ & sd0 & Hsd0 & _ & _ & Hcoh0). simplify_eq.
      destruct Hcoh0 as [-> | ->]; done. }
    exists w3. split; [done|].
    unfold since. rewrite Hlog. unfold wa. simpl. rewrite drop_app_length, Hcount.
    apply (length_filter_unique _ _ (DepListener c i g)); try done.
    intros y Hy Hyu. destruct (Hall y Hy) as [Hu|(j & g' & -> & Hj)]; [congruence|].
    rewrite (Hgen _ _ _ Hy), (Hgen _ _ _ Hg).
    by rewrite (NoDup_lookup _ _ _ _ Hnd Hj Hi).
Qed.

Lemma subscribed_computed_notifies_once_witness :
  ∃ w1 w2 w3,
    subscribe 1 (UserCb 7) computed_over_state = Some (Unsub 1 (UserCb 7), w1) ∧
    reader_run 1 [RGet] w1 = Some w2 ∧
    set 0 (SetValue (VNum 5)) w2 = Some w3 ∧
    count_event (Called (UserCb 7)) (since w2 w3) = 1.
Proof.
  destruct (subscribed_computed_notifies_once computed_over_state 1
              (mkComputedSrc [0] double [] [] [VUndefined] 0) 7 [RGet] 0 (SetValue (VNum 5))
              computed_over_state_unread)
    as (w1 & w2 & H1 & H2 & _ & H3).
  { by apply NoDup_singleton. }
  { intros d' ->%list_elem_of_singleton. split; [constructor|]. apply not_elem_of_nil. }
  { constructor; [done|constructor]. }
  { by apply list_elem_of_singleton. }
  vm_compute in H1. injection H1 as <-. vm_compute in H2. injection H2 as <-.
  destruct H3 as (w3 & H4 & H5); [discriminate|discriminate|].
  eexists _, _, w3. split; [reflexivity|]. split; [reflexivity|]. split; [exact H4|exact H5].
Defined.

End NotifyLaws.

